(** * move2kube: artifact merging, transformer selection and the Starlark host

    A shallow embedding of the transformer package (artifact merge, registry
    filtering, produced-artifact rewriting), of the helpers of common/utils.go
    they call, and of the builtins the Starlark transformer exposes to scripts.

    Go maps are reference types: an artifact holds a reference to its Paths
    and Configs maps, and the merge functions write through it.  The model
    keeps those maps in a store, addressed by locations, so that aliasing and
    in-place updates are visible. *)

From Stdlib Require Import Ascii.
From stdpp Require Import gmap strings list fin_maps.

(* ===================================================================== *)
(** ** common/utils.go *)
(* ===================================================================== *)

Module common.

Section slices.
Context {C : Type} `{EqDecision C}.

(** [IsPresent] checks if a value is present in a slice. *)
Fixpoint IsPresent (list_ : list C) (value : C) : bool :=
  match list_ with
  | [] => false
  | val :: rest => if decide (val = value) then true else IsPresent rest value
  end.

(** [AppendIfNotPresent]: [for _, value := range values], append the value
    to [list_] unless it is already there. *)
Definition AppendIfNotPresent (list_ values : list C) : list C :=
  fold_left (fun list_ value => if IsPresent list_ value then list_ else list_ ++ [value])
            values list_.

(** [MergeSlices] merges two slices. *)
Definition MergeSlices (slice1 slice2 : list C) : list C :=
  AppendIfNotPresent slice1 slice2.
End slices.

(** [strings.Join]. *)
Fixpoint Join (xs : list string) (sep : string) : string :=
  match xs with
  | [] => ""
  | [x] => x
  | x :: rest => x +:+ sep +:+ Join rest sep
  end.

(** [JoinQASubKeys] joins sub keys into a QA key with the delimiter [Delim].
    The constant [Delim] is declared outside the files at hand; it is a
    parameter here. *)
Definition JoinQASubKeys (Delim : string) (xs : list string) : string :=
  Join xs Delim.

End common.

(* ===================================================================== *)
(** ** types/transformer: artifacts and transformer descriptors *)
(* ===================================================================== *)

(** A location of the store: the identity of one Go map object. *)
Abbreviation addr := positive.

Module Artifact.
(** [transformertypes.Artifact].  [Paths] and [Configs] are map references:
    [None] is the nil map, [Some l] the map object stored at [l]. *)
Record t := mk {
  Name : string;
  Type_ : string;
  Paths : option addr;
  Configs : option addr
}.

(** The zero value of the struct, what a named result holds before it is
    assigned. *)
Definition zero : t := {| Name := ""; Type_ := ""; Paths := None; Configs := None |}.

Definition setType (a : t) (ty : string) : t :=
  {| Name := Name a; Type_ := ty; Paths := Paths a; Configs := Configs a |}.
End Artifact.

(** Errors.  [Errorf] keeps the format string and the arguments apart, as
    [fmt.Errorf] receives them; [PathError] is what package os returns for
    a failed operation on a path; [LibError] is an error of a library call
    (argument unpacking, decoding, marshalling). *)
Inductive os_errno := ErrNotExist | ErrPermission | ErrOther (msg : string).

Inductive error :=
  | Errorf (format : string) (args : list string)
  | PathError (op path : string) (errno : os_errno)
  | LibError (origin msg : string).

(** What [%s] and [%q] print for an error is of no concern here; an error
    used as a format argument is kept as a tag. *)
Definition error_text (e : error) : string :=
  match e with
  | Errorf format _ => format
  | PathError op path _ => op +:+ " " +:+ path
  | LibError origin msg => origin +:+ ": " +:+ msg
  end.

(** logrus: a log line is its level, its format and its arguments. *)
Inductive log_level := FatalLevel | ErrorLevel | WarnLevel | InfoLevel | DebugLevel.

Record log_entry := Log {
  level : log_level;
  log_format : string;
  log_args : list string
}.

(** [labels.Selector] is an interface; the code calls its [Matches] method
    only, so a selector is that method: a predicate on label sets. *)
Definition Selector : Type := gmap string string -> bool.

Module metav1.
Record LabelSelectorRequirement := {
  Key : string;
  Operator : string;
  Values : list string
}.

(** [metav1.LabelSelector]. *)
Record LabelSelector := {
  MatchLabels : gmap string string;
  MatchExpressions : list LabelSelectorRequirement
}.
End metav1.

(** A value of type [interface{}] that holds a selector, seen through
    [common.GetObjFromInterface(sel, &s)]: nil, a value the decoder
    rejects, or a value that decodes to a [LabelSelector]. *)
Inductive selector_iface :=
  | SelNil
  | SelUndecodable
  | SelDecodes (s : metav1.LabelSelector).

Module ProducedArtifact.
Record t := { ChangeTypeTo : string }.
End ProducedArtifact.

Module TransformerSpec.
(** The fields of [transformertypes.TransformerSpec] the code at hand
    reads or writes. *)
Record t := mk {
  FilePath : string;
  Class : string;
  Override : selector_iface;
  Dependency : selector_iface;
  OverrideSelector : option Selector;
  DependencySelector : option Selector;
  ProducedArtifacts : gmap string ProducedArtifact.t
}.
End TransformerSpec.

Module Transformer.
(** [transformertypes.Transformer].  A nil [Labels] map reads as the
    empty map. *)
Record t := mk {
  Kind : string;
  Name : string;
  Labels : gmap string string;
  Spec : TransformerSpec.t
}.
End Transformer.

(** What the registry takes from outside the files at hand: the constants
    [TransformerKind] and [LabelName], the blank descriptor
    [NewTransformer()], the table [transformerTypes] of registered classes,
    the YAML reader (the file system behind [common.ReadMove2KubeYaml]:
    the descriptor after decoding the file at a path into it, or an
    error), and [metav1.LabelSelectorAsSelector]. *)
Class RegistryHost := {
  TransformerKind : string;
  LabelName : string;
  NewTransformer : Transformer.t;
  transformerTypes : string -> bool;
  ReadMove2KubeYaml : string -> Transformer.t -> error + Transformer.t;
  LabelSelectorAsSelector : metav1.LabelSelector -> error + Selector
}.

(** The typed-configuration capability the merge relies on.  The registry
    [artifacts.ConfigTypes], the [Merge] methods of the registered configs,
    the mapstructure decoder behind [common.GetObjFromInterface] and
    [deepcopy.Merge] are declared outside the files at hand: they are the
    fields of this class.  A value of type [interface{}] is an
    [option CVal], [None] being the nil interface. *)
Class ConfigHost := {
  CVal : Type;
  Schema : Type;
  (** [artifacts.ConfigTypes[string(cn)]] *)
  ConfigTypes : string -> option Schema;
  (** [c := reflect.New(ct)...; GetObjFromInterface(v, c)]: the decoded
      object, [None] when decoding fails. *)
  GetObjFromInterface : Schema -> option CVal -> option CVal;
  (** [c1.Merge(c2)]: the receiver after the call, and the verdict. *)
  Config_Merge : CVal -> CVal -> CVal * bool;
  (** [deepcopy.Merge(x, y)] for a non-nil [x]. *)
  deepcopy_Merge : CVal -> option CVal -> option CVal
}.

(* ===================================================================== *)
(** ** package transformer *)
(* ===================================================================== *)

Module transformer.

Section merge.
Context {host : ConfigHost}.

(** [map[PathType][]string] is [gmap string (list string)]: the merge
    treats every key on its own, so the order in which [range] visits the
    keys is immaterial and the map is a finite map. *)

(** [map[ConfigType]interface{}].  The loop over the second map may stop
    early, so the order in which [range] visits it matters: the map is an
    association list and [range] visits it front to back.  Go fixes no
    order; every order is some list. *)
Definition ConfigMap : Type := list (string * option CVal).

(** [m[k]]: the nil interface when [k] is absent. *)
Fixpoint cfg_get (m : ConfigMap) (k : string) : option CVal :=
  match m with
  | [] => None
  | (k', v) :: rest => if decide (k' = k) then v else cfg_get rest k
  end.

(** [m[k] = v]. *)
Fixpoint cfg_set (m : ConfigMap) (k : string) (v : option CVal) : ConfigMap :=
  match m with
  | [] => [(k, v)]
  | (k', v') :: rest =>
      if decide (k' = k) then (k, v) :: rest else (k', v') :: cfg_set rest k v
  end.

(** The store of map objects.  Go has no dangling map reference; a location
    the store does not hold reads as the empty map. *)
Record Heap := mkHeap {
  pathMaps : gmap addr (gmap string (list string));
  configMaps : gmap addr ConfigMap
}.

Definition readPaths (h : Heap) (l : addr) : gmap string (list string) :=
  default ∅ (pathMaps h !! l).
Definition writePaths (h : Heap) (l : addr) (m : gmap string (list string)) : Heap :=
  {| pathMaps := <[l := m]> (pathMaps h); configMaps := configMaps h |}.
Definition readConfigs (h : Heap) (l : addr) : ConfigMap :=
  default [] (configMaps h !! l).
Definition writeConfigs (h : Heap) (l : addr) (m : ConfigMap) : Heap :=
  {| pathMaps := pathMaps h; configMaps := <[l := m]> (configMaps h) |}.

(** The body of [for cn2, cg2 := range configs2] in [mergeConfigs], over
    the entries still to visit.  [configs1] is the current content of the
    first map, [configs2] the second map as it was when the loop started:
    the loop writes only the key it is visiting, after reading it, so
    even when both references name one map a later read sees what the
    map held at the start.  The result is the first map and [merged]. *)
Fixpoint mergeConfigs_range (configs2 : ConfigMap) (todo : ConfigMap)
         (configs1 : ConfigMap) : ConfigMap * bool :=
  match todo with
  | [] => (configs1, true)
  | (cn2, cg2) :: rest =>
      match cfg_get configs1 cn2 with
      | None => mergeConfigs_range configs2 rest (cfg_set configs1 cn2 cg2)
      | Some v1 =>
          match ConfigTypes cn2 with
          | Some ct =>
              match GetObjFromInterface ct (Some v1) with
              | None => (configs1, true)                       (* break *)
              | Some c1 =>
                  match GetObjFromInterface ct (cfg_get configs2 cn2) with
                  | None => (configs1, true)                   (* break *)
                  | Some c2 =>
                      let '(c1', merged) := Config_Merge c1 c2 in
                      if merged
                      then mergeConfigs_range configs2 rest (cfg_set configs1 cn2 (Some c1'))
                      else (configs1, false)
                  end
              end
          | None =>
              mergeConfigs_range configs2 rest
                (cfg_set configs1 cn2 (deepcopy_Merge v1 (cfg_get configs2 cn2)))
          end
      end
  end.

(** [mergeConfigs]: the store after the call, the returned reference and
    [merged]. *)
Definition mergeConfigs (h : Heap) (configs1 configs2 : option addr)
  : Heap * option addr * bool :=
  match configs1, configs2 with
  | None, _ => (h, configs2, true)
  | Some _, None => (h, configs1, true)
  | Some l1, Some l2 =>
      let m2 := readConfigs h l2 in
      let '(m1, merged) := mergeConfigs_range m2 m2 (readConfigs h l1) in
      (writeConfigs h l1 m1, configs1, merged)
  end.

(** [mergePathSliceMaps] merges two string slice maps.  The loop
    [for k, v := range map2 { map1[k] = MergeSlices(map1[k], v) }] reads
    and writes only the key it visits; [map1[k]] is the nil slice when
    [k] is absent. *)
Definition mergePathSliceMaps_range (map2 map1 : gmap string (list string))
  : gmap string (list string) :=
  map_fold (fun k v map1 => <[k := common.MergeSlices (default [] (map1 !! k)) v]> map1)
           map1 map2.

Definition mergePathSliceMaps (h : Heap) (map1 map2 : option addr)
  : Heap * option addr :=
  match map1, map2 with
  | None, _ => (h, map2)
  | Some _, None => (h, map1)
  | Some l1, Some l2 =>
      (writePaths h l1 (mergePathSliceMaps_range (readPaths h l2) (readPaths h l1)), map1)
  end.

(** [mergeArtifact]. *)
Definition mergeArtifact (h : Heap) (a b : Artifact.t) : Heap * Artifact.t * bool :=
  if decide (Artifact.Type_ a = Artifact.Type_ b /\ Artifact.Name a = Artifact.Name b) then
    let '(h1, mergedConfig, merged) :=
      mergeConfigs h (Artifact.Configs a) (Artifact.Configs b) in
    if negb merged then (h1, Artifact.zero, false)
    else
      let '(h2, paths) := mergePathSliceMaps h1 (Artifact.Paths a) (Artifact.Paths b) in
      (h2,
       {| Artifact.Name := Artifact.Name a;
          Artifact.Type_ := Artifact.Type_ a;
          Artifact.Paths := paths;
          Artifact.Configs := mergedConfig |},
       true)
  else (h, Artifact.zero, false).

(** The inner loop of [mergeArtifacts]: try to merge [oldArtifact] into
    the entries of [newArtifacts] from the front; [Some] list when one
    merge succeeded ([added]), [None] otherwise. *)
Fixpoint mergeArtifacts_inner (h : Heap) (oldArtifact : Artifact.t)
         (newArtifacts : list Artifact.t) : Heap * option (list Artifact.t) :=
  match newArtifacts with
  | [] => (h, None)
  | newArtifact :: rest =>
      let '(h1, mergedArtifact, merged) := mergeArtifact h oldArtifact newArtifact in
      if merged then (h1, Some (mergedArtifact :: rest))
      else
        let '(h2, r) := mergeArtifacts_inner h1 oldArtifact rest in
        (h2, cons newArtifact <$> r)
  end.

Fixpoint mergeArtifacts_outer (h : Heap) (oldArtifacts newArtifacts : list Artifact.t)
  : Heap * list Artifact.t :=
  match oldArtifacts with
  | [] => (h, newArtifacts)
  | oldArtifact :: rest =>
      let '(h1, r) := mergeArtifacts_inner h oldArtifact newArtifacts in
      match r with
      | Some newArtifacts' => mergeArtifacts_outer h1 rest newArtifacts'
      | None => mergeArtifacts_outer h1 rest (newArtifacts ++ [oldArtifact])
      end
  end.

(** [mergeArtifacts]. *)
Definition mergeArtifacts (h : Heap) (oldArtifacts : list Artifact.t)
  : Heap * list Artifact.t :=
  mergeArtifacts_outer h oldArtifacts [].

(** The inner loop of [updatedArtifacts]: the first already seen artifact
    that merges replaces [newArtifact]. *)
Fixpoint updatedArtifacts_inner (h : Heap) (newArtifact : Artifact.t)
         (alreadySeenArtifacts : list Artifact.t) : Heap * Artifact.t :=
  match alreadySeenArtifacts with
  | [] => (h, newArtifact)
  | alreadySeenArtifact :: rest =>
      let '(h1, mergedArtifact, merged) := mergeArtifact h newArtifact alreadySeenArtifact in
      if merged then (h1, mergedArtifact)
      else updatedArtifacts_inner h1 newArtifact rest
  end.

Fixpoint updatedArtifacts_outer (h : Heap) (alreadySeenArtifacts : list Artifact.t)
         (newArtifacts : list Artifact.t) : Heap * list Artifact.t :=
  match newArtifacts with
  | [] => (h, [])
  | newArtifact :: rest =>
      let '(h1, a) := updatedArtifacts_inner h newArtifact alreadySeenArtifacts in
      let '(h2, rest') := updatedArtifacts_outer h1 alreadySeenArtifacts rest in
      (h2, a :: rest')
  end.

(** [updatedArtifacts]: the first loop overwrites the elements of the
    caller's [newArtifacts] slice, then the slice is merged with itself. *)
Definition updatedArtifacts (h : Heap) (alreadySeenArtifacts newArtifacts : list Artifact.t)
  : Heap * list Artifact.t :=
  let '(h1, newArtifacts') := updatedArtifacts_outer h alreadySeenArtifacts newArtifacts in
  mergeArtifacts h1 newArtifacts'.
End merge.

Section registry.
Context {reg : RegistryHost}.

(** [getSelectorFromInterface]: the selector (nil when the value is nil
    or selects nothing) or an error, and the lines it logs. *)
Definition getSelectorFromInterface (sel : selector_iface)
  : (error + option Selector) * list log_entry :=
  match sel with
  | SelNil => (inr None, [])
  | SelUndecodable =>
      let err := Errorf "failed to decode the object of type %T and value %+v into the type %T . Error: %w" [] in
      (inl err,
       [Log ErrorLevel "Unable to parse Override configuration, ignoring override : %s"
            [error_text err]])
  | SelDecodes s =>
      if negb (length (metav1.MatchExpressions s) =? 0)
         || negb (size (metav1.MatchLabels s) =? 0)
      then
        match LabelSelectorAsSelector s with
        | inl err => (inl err, [])
        | inr ls => (inr (Some ls), [])
        end
      else (inr None, [])
  end.

Definition withFilePath (tc : Transformer.t) (path : string) : Transformer.t :=
  let sp := Transformer.Spec tc in
  Transformer.mk (Transformer.Kind tc) (Transformer.Name tc) (Transformer.Labels tc)
    (TransformerSpec.mk path (TransformerSpec.Class sp) (TransformerSpec.Override sp)
       (TransformerSpec.Dependency sp) (TransformerSpec.OverrideSelector sp)
       (TransformerSpec.DependencySelector sp) (TransformerSpec.ProducedArtifacts sp)).

Definition withLabel (tc : Transformer.t) (k v : string) : Transformer.t :=
  Transformer.mk (Transformer.Kind tc) (Transformer.Name tc)
    (<[k := v]> (Transformer.Labels tc)) (Transformer.Spec tc).

Definition withOverrideSelector (tc : Transformer.t) (ls : option Selector) : Transformer.t :=
  let sp := Transformer.Spec tc in
  Transformer.mk (Transformer.Kind tc) (Transformer.Name tc) (Transformer.Labels tc)
    (TransformerSpec.mk (TransformerSpec.FilePath sp) (TransformerSpec.Class sp)
       (TransformerSpec.Override sp) (TransformerSpec.Dependency sp) ls
       (TransformerSpec.DependencySelector sp) (TransformerSpec.ProducedArtifacts sp)).

Definition withDependencySelector (tc : Transformer.t) (ls : option Selector) : Transformer.t :=
  let sp := Transformer.Spec tc in
  Transformer.mk (Transformer.Kind tc) (Transformer.Name tc) (Transformer.Labels tc)
    (TransformerSpec.mk (TransformerSpec.FilePath sp) (TransformerSpec.Class sp)
       (TransformerSpec.Override sp) (TransformerSpec.Dependency sp)
       (TransformerSpec.OverrideSelector sp) ls (TransformerSpec.ProducedArtifacts sp)).

(** [getTransformerConfig]: the descriptor read from [path] or an error,
    and the lines logged on the way.  (The reader's own log lines are
    not part of the model.) *)
Definition getTransformerConfig (path : string)
  : (error + Transformer.t) * list log_entry :=
  let tc := withFilePath NewTransformer path in
  match ReadMove2KubeYaml path tc with
  | inl err =>
      (inl err,
       [Log DebugLevel "Failed to read the transformer metadata at path %q Error: %q"
            [path; error_text err]])
  | inr tc =>
      if negb (String.eqb (Transformer.Kind tc) TransformerKind) then
        let err :=
          Errorf "the file at path %q is not a valid cluster metadata. Expected kind: %s Actual kind: %s"
                 [path; TransformerKind; Transformer.Kind tc] in
        (inl err, [Log DebugLevel "%v" [error_text err]])
      else
        let tc := withLabel tc LabelName (Transformer.Name tc) in
        let '(ovr, log1) :=
          getSelectorFromInterface (TransformerSpec.Override (Transformer.Spec tc)) in
        let '(tc, log1) :=
          match ovr with
          | inr ls => (withOverrideSelector tc ls, log1)
          | inl _ =>
              (withOverrideSelector tc None,
               log1 ++ [Log ErrorLevel "Unable to parse override selector for %s, Ignoring selector : %+v"
                            [Transformer.Name tc]])
          end in
        let '(dep, log2) :=
          getSelectorFromInterface (TransformerSpec.Dependency (Transformer.Spec tc)) in
        let '(tc, log2) :=
          match dep with
          | inr ls => (withDependencySelector tc ls, log2)
          | inl _ =>
              (withDependencySelector tc None,
               log2 ++ [Log ErrorLevel "Unable to parse dependency selector for %s, Ignoring selector : %+v"
                            [Transformer.Name tc]])
          end in
        (inr tc, log1 ++ log2)
  end.

(** The state of [getFilteredTransformers] while it loads. *)
Record loading := mkLoading {
  filteredTransformerConfigs : gmap string Transformer.t;
  overrideSelectors : list Selector;
  logged : list log_entry
}.

Definition conflict (tc ot : Transformer.t) : log_entry :=
  Log ErrorLevel "Found two conflicting transformer Names %s : %s, %s. Ignoring %s."
      [Transformer.Name tc;
       TransformerSpec.FilePath (Transformer.Spec ot);
       TransformerSpec.FilePath (Transformer.Spec tc);
       TransformerSpec.FilePath (Transformer.Spec ot)].

(** One round of [for tn, tfilepath := range transformerPaths]. *)
Definition loadOne (selector : Selector) (logError : bool)
           (st : loading) (entry : string * string) : loading :=
  let '(tn, tfilepath) := entry in
  let '(r, lg) := getTransformerConfig tfilepath in
  match r with
  | inl err =>
      mkLoading (filteredTransformerConfigs st) (overrideSelectors st)
        (logged st ++ lg ++
         [Log (if logError then ErrorLevel else DebugLevel)
              "failed to load '%s' as a Transformer config . Error: %q"
              [tfilepath; error_text err]])
  | inr tc =>
      let lg :=
        lg ++ match filteredTransformerConfigs st !! Transformer.Name tc with
              | Some ot => [conflict tc ot]
              | None => []
              end in
      if negb (selector (Transformer.Labels tc)) then
        mkLoading (filteredTransformerConfigs st) (overrideSelectors st)
          (logged st ++ lg ++
           [Log DebugLevel "Ignoring transformer %s because of filter" [tn]])
      else
        let sels :=
          match TransformerSpec.OverrideSelector (Transformer.Spec tc) with
          | Some ls => overrideSelectors st ++ [ls]
          | None => overrideSelectors st
          end in
        if transformerTypes (TransformerSpec.Class (Transformer.Spec tc)) then
          mkLoading (<[Transformer.Name tc := tc]> (filteredTransformerConfigs st)) sels
            (logged st ++ lg)
        else
          mkLoading (filteredTransformerConfigs st) sels
            (logged st ++ lg ++
             [Log ErrorLevel "Ignoring transformer %s since the class %s not found"
                  [tn; TransformerSpec.Class (Transformer.Spec tc)]])
  end.

(** The first loop.  [transformerPaths] is a Go map; the list gives its
    entries in the order [range] happens to visit them. *)
Definition loadAll (transformerPaths : list (string * string))
           (selector : Selector) (logError : bool) : loading :=
  fold_left (loadOne selector logError) transformerPaths (mkLoading ∅ [] []).

(** One round of [for tn, tc := range filteredTransformerConfigs]. *)
Definition shadowOne (sels : list Selector) (tn : string) (tc : Transformer.t)
           (acc : gmap string Transformer.t * list log_entry)
  : gmap string Transformer.t * list log_entry :=
  let '(transformerConfigs, lg) := acc in
  let lg :=
    lg ++ match transformerConfigs !! Transformer.Name tc with
          | Some ot => [conflict tc ot]
          | None => []
          end in
  let ignore := existsb (fun overrideSelector => overrideSelector (Transformer.Labels tc)) sels in
  if negb ignore then (<[tn := tc]> transformerConfigs, lg) else (transformerConfigs, lg).

(** [getFilteredTransformers]: the returned map and everything logged. *)
Definition getFilteredTransformers (transformerPaths : list (string * string))
           (selector : Selector) (logError : bool)
  : gmap string Transformer.t * list log_entry :=
  let st := loadAll transformerPaths selector logError in
  map_fold (shadowOne (overrideSelectors st)) (∅, logged st) (filteredTransformerConfigs st).

(** [selectTransformer]. *)
Definition selectTransformer (selector : metav1.LabelSelector) (t : Transformer.t)
  : error + bool :=
  match LabelSelectorAsSelector selector with
  | inl err => inl err
  | inr ls => inr (ls (Transformer.Labels t))
  end.
End registry.

(** [postProcessArtifacts]: [a] is the loop's copy of the element, so the
    assignment to [a.Type] changes the copy that is appended. *)
Definition postProcessArtifacts (artifacts : list Artifact.t) (t : Transformer.t)
  : list Artifact.t :=
  fold_left
    (fun newArtifacts a =>
       let a :=
         match TransformerSpec.ProducedArtifacts (Transformer.Spec t) !! Artifact.Type_ a with
         | Some p =>
             if negb (String.eqb (ProducedArtifact.ChangeTypeTo p) "")
             then Artifact.setType a (ProducedArtifact.ChangeTypeTo p)
             else a
         | None => a
         end in
       newArtifacts ++ [a])
    artifacts [].

(** [plantypes.PlanArtifact]. *)
Record PlanArtifact := mkPlanArtifact {
  TransformerName : string;
  PlanArtifact_Artifact : Artifact.t
}.

(** [getPlanArtifactsFromArtifacts].  [planServices[sn]] is the nil slice
    while [sn] is absent.  [services] is a Go map: each service is visited
    once and the visit writes the key of that service only. *)
Definition getPlanArtifactsFromArtifacts (services : gmap string (list Artifact.t))
           (t : Transformer.t) : gmap string (list PlanArtifact) :=
  map_fold
    (fun sn s planServices =>
       fold_left
         (fun planServices st =>
            <[sn := default [] (planServices !! sn)
                    ++ [mkPlanArtifact (Transformer.Name t) st]]> planServices)
         s planServices)
    ∅ services.

(** [getNamedAndUnNamedServicesLogMessage]: the format and the two
    numbers [fmt.Sprintf] puts into it. *)
Definition getNamedAndUnNamedServicesLogMessage (services : gmap string (list PlanArtifact))
  : string * list Z :=
  let nnservices := Z.of_nat (size services) in
  let nuntransformers := Z.of_nat (length (default [] (services !! ""))) in
  let nuntransformers :=
    match services !! "" with
    | Some _ => (nuntransformers - 1)%Z
    | None => nuntransformers
    end in
  ("Identified %d named services and %d to-be-named services",
   [nnservices; nuntransformers]).

End transformer.

(* ===================================================================== *)
(** ** go.starlark.net: values and argument unpacking *)
(* ===================================================================== *)

Module starlark.
(** [starlark.Value], as far as the builtins meet it. *)
#[local] Unset Elimination Schemes.
Inductive Value :=
  | None
  | Bool (b : bool)
  | Int (n : Z)
  | String (s : string)
  | List (elems : list Value)
  | Dict (items : list (Value * Value))
  | Function (name : string) (NumParams : nat).
End starlark.

Module unpack.
(** Go passes pointers to the variables to fill; here a variable is its
    current value, whose constructor tells its Go type, and unpacking
    returns the variables after the call. *)
Definition unpackOneArg (v var : starlark.Value) : error + starlark.Value :=
  match var, v with
  | starlark.String _, starlark.String _ => inr v
  | starlark.Int _, starlark.Int _ => inr v
  | starlark.Dict _, starlark.Dict _ => inr v
  | starlark.Bool _, starlark.Bool _ => inr v
  | _, _ => inl (LibError "starlark" "unexpected type of argument")
  end.

Fixpoint positional (args vars : list starlark.Value) : error + list starlark.Value :=
  match args, vars with
  | [], _ => inr vars
  | _ :: _, [] => inl (LibError "starlark" "too many arguments")
  | arg :: args', var :: vars' =>
      match unpackOneArg arg var with
      | inl err => inl err
      | inr v =>
          match positional args' vars' with
          | inl err => inl err
          | inr vs => inr (v :: vs)
          end
      end
  end.

(** [starlark.UnpackPositionalArgs(fnname, args, kwargs, min, vars...)]. *)
Definition UnpackPositionalArgs (fnname : string) (args : list starlark.Value)
           (kwargs : list (string * starlark.Value)) (min : nat)
           (vars : list starlark.Value) : error + list starlark.Value :=
  if negb (length kwargs =? 0) then
    inl (LibError "starlark" "unexpected keyword arguments")
  else if length args <? min then
    inl (LibError "starlark" "too few arguments")
  else if length vars <? length args then
    inl (LibError "starlark" "too many arguments")
  else positional args vars.

(** A parameter name ending in [?] is optional. *)
Fixpoint optional (name : string) : bool :=
  match name with
  | EmptyString => false
  | String.String c EmptyString => bool_decide (c = "?"%char)
  | String.String _ rest => optional rest
  end.

Fixpoint paramName (name : string) : string :=
  match name with
  | EmptyString => EmptyString
  | String.String c EmptyString =>
      if bool_decide (c = "?"%char) then EmptyString else name
  | String.String c rest => String.String c (paramName rest)
  end.

(** A parameter while unpacking: its name, its variable, and whether an
    argument has been bound to it. *)
Record param := mkParam {
  pname : string;
  pvar : starlark.Value;
  defined : bool
}.

Fixpoint bindPositional (args : list starlark.Value) (ps : list param)
  : error + list param :=
  match args, ps with
  | [], _ => inr ps
  | _ :: _, [] => inl (LibError "starlark" "too many arguments")
  | arg :: args', p :: ps' =>
      match unpackOneArg arg (pvar p) with
      | inl err => inl err
      | inr v =>
          match bindPositional args' ps' with
          | inl err => inl err
          | inr qs => inr (mkParam (pname p) v true :: qs)
          end
      end
  end.

Fixpoint bindKeyword (name : string) (arg : starlark.Value) (ps : list param)
  : error + list param :=
  match ps with
  | [] => inl (LibError "starlark" "unexpected keyword argument")
  | p :: ps' =>
      if String.eqb (paramName (pname p)) name then
        if defined p then inl (LibError "starlark" "got multiple values for keyword argument")
        else
          match unpackOneArg arg (pvar p) with
          | inl err => inl err
          | inr v => inr (mkParam (pname p) v true :: ps')
          end
      else
        match bindKeyword name arg ps' with
        | inl err => inl err
        | inr qs => inr (p :: qs)
        end
  end.

Fixpoint bindKeywords (kwargs : list (string * starlark.Value)) (ps : list param)
  : error + list param :=
  match kwargs with
  | [] => inr ps
  | (name, arg) :: rest =>
      match bindKeyword name arg ps with
      | inl err => inl err
      | inr qs => bindKeywords rest qs
      end
  end.

(** The closing check: from the first parameter without a positional
    argument on, up to the first optional one, every parameter is bound. *)
Fixpoint allRequired (ps : list param) : bool :=
  match ps with
  | [] => true
  | p :: ps' =>
      if optional (pname p) then true
      else defined p && allRequired ps'
  end.

(** [starlark.UnpackArgs(fnname, args, kwargs, pairs...)]. *)
Definition UnpackArgs (fnname : string) (args : list starlark.Value)
           (kwargs : list (string * starlark.Value))
           (pairs : list (string * starlark.Value)) : error + list starlark.Value :=
  if length pairs <? length args then
    inl (LibError "starlark" "too many arguments")
  else
    match bindPositional args (map (fun p => mkParam (fst p) (snd p) false) pairs) with
    | inl err => inl err
    | inr ps =>
        match bindKeywords kwargs ps with
        | inl err => inl err
        | inr qs =>
            if allRequired (drop (length args) qs) then inr (map pvar qs)
            else inl (LibError "starlark" "missing argument")
        end
    end.
End unpack.

(* ===================================================================== *)
(** ** package external: the Starlark transformer's builtins *)
(* ===================================================================== *)

Module qatypes.
(** [qatypes.Problem], the fields the query builtin touches.  The
    validator the builtin installs wraps a script function; it is kept
    as that function. *)
Record Problem := mkProblem {
  ID : string;
  Type_ : string;
  Desc : string;
  Validator : option starlark.Value
}.
End qatypes.

(** What a call observably does besides returning: the file system
    operations it performs and the questions it hands to the QA engine, in
    order. *)
Inductive event :=
  | Stat (path : string)
  | ReadFile (path : string)
  | ReadDir (path : string)
  | WriteFile (path data : string) (perm : Z)
  | Open (path : string)
  | GetYamlsWithTypeMeta (inputPath kindFilter : string)
  | GetFilesByExt (inputPath : string) (exts : list string)
  | FetchAnswer (prob : qatypes.Problem).

(** How a builtin ends: it returns Go's pair [(starlark.Value, error)],
    where the value may be the nil interface, or [logrus.Fatalf] ends the
    process. *)
Inductive outcome :=
  | Return (value : option starlark.Value) (err : option error)
  | Fatal (entry : log_entry).

(** The value of an XPath expression, as the type switch of
    [find_xml_path] sees it; a float comes with its rendering by
    [strconv.FormatFloat(d, 'E', -1, 64)]. *)
Inductive xpath_value :=
  | XBool (d : bool)
  | XFloat (rendered : string)
  | XString (d : string)
  | XNodes (values : list string)
  | XOther.

(** Everything the builtins take from outside the files at hand: the
    sandbox check [Environment.IsPathValid], the constants of package
    common and qatypes, path/filepath, the file system behind package os
    and behind the directory walkers of package common, the XML libraries
    and the QA engine.  [GoValue] stands for the values of type
    [interface{}] that cross the boundary.  An answer of the engine is a
    string list or something else; the latter is kept by what
    [starutil.Marshal] makes of it. *)
Class ScriptHost := {
  GoValue : Type;
  IsPathValid : string -> bool;
  BaseKey : string;
  Delim : string;
  DefaultFilePermission : Z;
  InputSolutionFormType : string;
  filepath_Join : string -> string -> string;
  filepath_Base : string -> string;
  filepath_Clean : string -> string;
  filepath_Rel : string -> string -> error + string;
  os_Stat : string -> error + bool;
  os_ReadFile : string -> error + string;
  os_ReadDir : string -> error + list string;
  os_WriteFile : string -> string -> Z -> option error;
  os_Open : string -> error + string;
  common_GetYamlsWithTypeMeta : string -> string -> error + list string;
  common_GetFilesByExt : string -> list string -> error + list string;
  xmlquery_Parse : string -> error + string;
  xpath_Compile : string -> error + string;
  xpath_Evaluate : string -> string -> xpath_value;
  starutil_Unmarshal : starlark.Value -> error + GoValue;
  problemFromInterface : GoValue -> error + qatypes.Problem;
  qaengine_FetchAnswer : qatypes.Problem -> error + (list string + (error + starlark.Value))
}.

Module external.

Definition qaFnName := "query".
Definition fsExistsFnName := "exists".
Definition fsReadFnName := "read".
Definition fsReadDirFnName := "read_dir".
Definition fsIsDirFnName := "is_dir".
Definition fsGetYamIsWithTypeMetaFnName := "get_yamls_with_type_meta".
Definition fsFindXmlPathFnName := "find_xml_path".
Definition fsGetFilesWithPatternFnName := "get_files_with_pattern".
Definition fsPathJoinFnName := "path_join".
Definition fsWriteFnName := "write".
Definition fsPathBaseFnName := "path_base".
Definition fsPathRelFnName := "path_rel".

(** [errors.Is(err, os.ErrNotExist)] and [os.IsNotExist(err)]. *)
Definition IsNotExist (err : error) : bool :=
  match err with
  | PathError _ _ ErrNotExist => true
  | _ => false
  end.

(** [starutil.Marshal] of a [[]interface{}] holding strings. *)
Definition MarshalStrings (result : list string) : starlark.Value :=
  starlark.List (map starlark.String result).

(** What does not happen: the variables handed to the unpacker are Go
    strings (or the dict, or the file mode), so the unpacked values have
    those types. *)
Definition badVars : list event * outcome :=
  ([], Return Datatypes.None (Some (LibError "starlark" "unexpected type of argument"))).

Definition Errorf0 (format : string) : option error := Some (Errorf format []).

Section builtins.
Context {sh : ScriptHost}.

(** The part of [*Starlark] the builtins read. *)
Variable StarGlobals : gmap string starlark.Value.

Definition getStarlarkFSGetYamlsWithTypeMeta
           (args : list starlark.Value) (kwargs : list (string * starlark.Value))
  : list event * outcome :=
  match unpack.UnpackArgs fsGetYamIsWithTypeMetaFnName args kwargs
          [("inputpath", starlark.String ""); ("kind", starlark.String "")] with
  | inl err =>
      ([], Return (Some starlark.None)
             (Some (Errorf "invalid args provided to '%s'. Error: %q"
                           [fsGetYamIsWithTypeMetaFnName; error_text err])))
  | inr [starlark.String inputPath; starlark.String kindFilter] =>
      if String.eqb kindFilter "" then
        ([], Return (Some starlark.None) (Errorf0 "kind is missing in find parameters"))
      else if negb (IsPathValid inputPath) then
        ([], Return (Some starlark.None) (Errorf0 "invalid path"))
      else
        match common_GetYamlsWithTypeMeta inputPath kindFilter with
        | inl err =>
            ([GetYamlsWithTypeMeta inputPath kindFilter],
             Return (Some starlark.None) (Some err))
        | inr fileList =>
            ([GetYamlsWithTypeMeta inputPath kindFilter],
             Return (Some (MarshalStrings fileList)) Datatypes.None)
        end
  | inr _ => badVars
  end.

Definition getStarlarkFindXmlPath
           (args : list starlark.Value) (kwargs : list (string * starlark.Value))
  : list event * outcome :=
  match unpack.UnpackArgs fsFindXmlPathFnName args kwargs
          [("inputXmlFilePath", starlark.String ""); ("xmlpathexpr", starlark.String "")] with
  | inl err =>
      ([], Return (Some starlark.None)
             (Some (Errorf "invalid args provided to '%s'. Error: %q"
                           [fsFindXmlPathFnName; error_text err])))
  | inr [starlark.String inputXmlFilePath; starlark.String xmlPathExpr] =>
      if String.eqb xmlPathExpr "" then
        ([], Return (Some starlark.None)
               (Errorf0 "XML path expression is missing in find parameters"))
      else if negb (IsPathValid inputXmlFilePath) then
        ([], Return (Some starlark.None) (Some (Errorf "invalid path: %s" [inputXmlFilePath])))
      else
        match os_Open inputXmlFilePath with
        | inl _ =>
            ([Open inputXmlFilePath],
             Return (Some starlark.None)
               (Some (Errorf "could not read file in path: %s" [inputXmlFilePath])))
        | inr fileHandle =>
            match xmlquery_Parse fileHandle with
            | inl _ =>
                ([Open inputXmlFilePath],
                 Return (Some starlark.None)
                   (Some (Errorf "could not parse xml file in path: %s" [inputXmlFilePath])))
            | inr doc =>
                match xpath_Compile xmlPathExpr with
                | inl _ =>
                    ([Open inputXmlFilePath],
                     Return (Some starlark.None)
                       (Some (Errorf "could not compile the xml path expression: %s"
                                     [xmlPathExpr])))
                | inr expr =>
                    let result :=
                      match xpath_Evaluate expr doc with
                      | XBool d => [if d then "true" else "false"]
                      | XFloat rendered => [rendered]
                      | XString d => [d]
                      | XNodes values => values
                      | XOther => []
                      end in
                    ([Open inputXmlFilePath],
                     Return (Some (MarshalStrings result)) Datatypes.None)
                end
            end
        end
  | inr _ => badVars
  end.

Definition getStarlarkFSWrite
           (args : list starlark.Value) (kwargs : list (string * starlark.Value))
  : list event * outcome :=
  match unpack.UnpackArgs fsWriteFnName args kwargs
          [("filepath", starlark.String ""); ("data", starlark.String "");
           ("perm?", starlark.Int DefaultFilePermission)] with
  | inl err =>
      ([], Return (Some starlark.None)
             (Some (Errorf "invalid args provided to '%s'. Error: %q"
                           [fsWriteFnName; error_text err])))
  | inr [starlark.String filePath; starlark.String data; starlark.Int permissions] =>
      if String.eqb filePath "" then
        ([], Return (Some starlark.None) (Errorf0 "FilePath is missing in write parameters"))
      else if negb (IsPathValid filePath) then
        ([], Return (Some starlark.None) (Errorf0 "invalid path"))
      else if String.length data =? 0 then
        ([], Return (Some starlark.None) (Errorf0 "data is missing in write parameters"))
      else
        let numBytesWritten := String.length data in
        match os_WriteFile filePath data permissions with
        | Some _ =>
            ([WriteFile filePath data permissions],
             Return (Some starlark.None)
               (Some (Errorf "could not write to file %s" [filePath])))
        | Datatypes.None =>
            ([WriteFile filePath data permissions],
             Return (Some (starlark.Int (Z.of_nat numBytesWritten))) Datatypes.None)
        end
  | inr _ => badVars
  end.

Definition getStarlarkFSExists
           (args : list starlark.Value) (kwargs : list (string * starlark.Value))
  : list event * outcome :=
  match unpack.UnpackPositionalArgs fsExistsFnName args kwargs 1 [starlark.String ""] with
  | inl err => ([], Return Datatypes.None (Some err))
  | inr [starlark.String path] =>
      if negb (IsPathValid path) then
        ([], Return (Some starlark.None) (Errorf0 "invalid path"))
      else
        match os_Stat path with
        | inl err =>
            if IsNotExist err then
              ([Stat path], Return (Some (starlark.Bool false)) Datatypes.None)
            else ([Stat path], Return (Some (starlark.Bool false)) (Some err))
        | inr _ => ([Stat path], Return (Some (starlark.Bool true)) Datatypes.None)
        end
  | inr _ => badVars
  end.

Definition getStarlarkFSIsDir
           (args : list starlark.Value) (kwargs : list (string * starlark.Value))
  : list event * outcome :=
  match unpack.UnpackPositionalArgs fsIsDirFnName args kwargs 1 [starlark.String ""] with
  | inl err => ([], Return Datatypes.None (Some err))
  | inr [starlark.String path] =>
      if negb (IsPathValid path) then
        ([], Return (Some starlark.None) (Errorf0 "invalid path"))
      else
        match os_Stat path with
        | inl _ =>
            ([Stat path],
             Return (Some starlark.None) (Errorf0 "unable to retrieve file information"))
        | inr isDir => ([Stat path], Return (Some (starlark.Bool isDir)) Datatypes.None)
        end
  | inr _ => badVars
  end.

Definition getStarlarkFSRead
           (args : list starlark.Value) (kwargs : list (string * starlark.Value))
  : list event * outcome :=
  match unpack.UnpackPositionalArgs fsReadFnName args kwargs 1 [starlark.String ""] with
  | inl err => ([], Return Datatypes.None (Some err))
  | inr [starlark.String path] =>
      if negb (IsPathValid path) then
        ([], Return (Some starlark.None) (Errorf0 "invalid path"))
      else
        match os_ReadFile path with
        | inl err =>
            if IsNotExist err then
              ([ReadFile path], Return (Some starlark.None) Datatypes.None)
            else ([ReadFile path], Return Datatypes.None (Some err))
        | inr fileBytes =>
            ([ReadFile path], Return (Some (starlark.String fileBytes)) Datatypes.None)
        end
  | inr _ => badVars
  end.

Definition getStarlarkFSReadDir
           (args : list starlark.Value) (kwargs : list (string * starlark.Value))
  : list event * outcome :=
  match unpack.UnpackPositionalArgs fsReadDirFnName args kwargs 1 [starlark.String ""] with
  | inl err => ([], Return Datatypes.None (Some err))
  | inr [starlark.String path] =>
      if negb (IsPathValid path) then
        ([], Return (Some starlark.None) (Errorf0 "invalid path"))
      else
        match os_ReadDir path with
        | inl err => ([ReadDir path], Return Datatypes.None (Some err))
        | inr fileInfos =>
            ([ReadDir path], Return (Some (MarshalStrings fileInfos)) Datatypes.None)
        end
  | inr _ => badVars
  end.

Definition getStarlarkFSGetFilesWithPattern
           (args : list starlark.Value) (kwargs : list (string * starlark.Value))
  : list event * outcome :=
  match unpack.UnpackArgs fsGetFilesWithPatternFnName args kwargs
          [("filepath", starlark.String ""); ("ext", starlark.String "")] with
  | inl err =>
      ([], Return (Some starlark.None)
             (Some (Errorf "invalid args provided to '%s'. Error: %q"
                           [fsGetFilesWithPatternFnName; error_text err])))
  | inr [starlark.String filePath; starlark.String extension] =>
      if String.eqb filePath "" then
        ([], Return (Some starlark.None) (Errorf0 "FilePath is missing in write parameters"))
      else if negb (IsPathValid filePath) then
        ([], Return (Some starlark.None) (Errorf0 "invalid path"))
      else
        let extList := [] ++ [extension] in
        match common_GetFilesByExt filePath extList with
        | inl _ =>
            ([GetFilesByExt filePath extList],
             Return (Some starlark.None)
               (Errorf0 "file list for given pattern could not be retrieved"))
        | inr fileList =>
            ([GetFilesByExt filePath extList],
             Return (Some (MarshalStrings fileList)) Datatypes.None)
        end
  | inr _ => badVars
  end.

Definition getStarlarkFSPathJoin
           (args : list starlark.Value) (kwargs : list (string * starlark.Value))
  : list event * outcome :=
  match unpack.UnpackPositionalArgs fsPathJoinFnName args kwargs 2
          [starlark.String ""; starlark.String ""] with
  | inl err => ([], Return Datatypes.None (Some err))
  | inr [starlark.String pathelem1; starlark.String pathelem2] =>
      let path := filepath_Join pathelem1 pathelem2 in
      if negb (IsPathValid path) then
        ([], Return (Some starlark.None) (Errorf0 "invalid path"))
      else ([], Return (Some (starlark.String path)) Datatypes.None)
  | inr _ => badVars
  end.

Definition getStarlarkFSPathBase
           (args : list starlark.Value) (kwargs : list (string * starlark.Value))
  : list event * outcome :=
  match unpack.UnpackPositionalArgs fsPathBaseFnName args kwargs 1 [starlark.String ""] with
  | inl err => ([], Return Datatypes.None (Some err))
  | inr [starlark.String path] =>
      if negb (IsPathValid path) then
        ([], Return (Some starlark.None) (Errorf0 "invalid path"))
      else
        ([], Return (Some (starlark.String (filepath_Base (filepath_Clean path))))
               Datatypes.None)
  | inr _ => badVars
  end.

Definition getStarlarkFSPathRel
           (args : list starlark.Value) (kwargs : list (string * starlark.Value))
  : list event * outcome :=
  match unpack.UnpackPositionalArgs fsPathRelFnName args kwargs 2
          [starlark.String ""; starlark.String ""] with
  | inl err => ([], Return Datatypes.None (Some err))
  | inr [starlark.String basePath; starlark.String targetPath] =>
      let basePath := filepath_Clean basePath in
      let targetPath := filepath_Clean targetPath in
      if negb (IsPathValid basePath) then
        ([], Return (Some starlark.None)
               (Some (Errorf "the base path '%s' is invalid" [basePath])))
      else if negb (IsPathValid targetPath) then
        ([], Return (Some starlark.None)
               (Some (Errorf "the target path '%s' is invalid" [targetPath])))
      else
        match filepath_Rel basePath targetPath with
        | inl err =>
            ([], Return (Some starlark.None)
                   (Some (Errorf "failed to make the path '%s' to the base directory '%s' . Error: %q"
                                 [targetPath; basePath; error_text err])))
        | inr path3 => ([], Return (Some (starlark.String path3)) Datatypes.None)
        end
  | inr _ => badVars
  end.

(** [getStarlarkQuery]. *)
Definition getStarlarkQuery
           (args : list starlark.Value) (kwargs : list (string * starlark.Value))
  : list event * outcome :=
  match unpack.UnpackPositionalArgs qaFnName args kwargs 1
          [starlark.Dict []; starlark.String ""] with
  | inl err =>
      ([], Return (Some starlark.None)
             (Some (Errorf "invalid args provided to '%s'. Expected a single dict argument. Error: %q"
                           [qaFnName; error_text err])))
  | inr [starlark.Dict items; starlark.String validation] =>
      match starutil_Unmarshal (starlark.Dict items) with
      | inl err =>
          ([], Return (Some starlark.None)
                 (Some (Errorf "failed to unmarshal the argument provided to '%s'. Expected a single dict argument. Error: %q"
                               [qaFnName; error_text err])))
      | inr argI =>
          match problemFromInterface argI with
          | inl err => ([], Return (Some starlark.None) (Some err))
          | inr prob =>
              (* key *)
              if String.eqb (qatypes.ID prob) "" then
                ([], Return (Some starlark.None)
                       (Some (Errorf "the key 'id' is missing from the question object %+v" [])))
              else
                let ID :=
                  if negb (String.prefix BaseKey (qatypes.ID prob))
                  then common.JoinQASubKeys Delim [BaseKey; qatypes.ID prob]
                  else qatypes.ID prob in
                (* type *)
                let Type_ :=
                  if String.eqb (qatypes.Type_ prob) "" then InputSolutionFormType
                  else qatypes.Type_ prob in
                let ask (Validator : option starlark.Value) : list event * outcome :=
                  let prob := qatypes.mkProblem ID Type_ (qatypes.Desc prob) Validator in
                  match qaengine_FetchAnswer prob with
                  | inl err =>
                      ([FetchAnswer prob],
                       Fatal (Log FatalLevel "failed to ask the question. Error: %q"
                                  [error_text err]))
                  | inr (inl ansList) =>
                      ([FetchAnswer prob],
                       Return (Some (MarshalStrings ansList)) Datatypes.None)
                  | inr (inr (inl err)) =>
                      ([FetchAnswer prob],
                       Return (Some starlark.None)
                         (Some (Errorf "failed to marshal the answer %+v of type %T into a starlark value. Error: %q"
                                       [error_text err])))
                  | inr (inr (inr answerValue)) =>
                      ([FetchAnswer prob], Return (Some answerValue) Datatypes.None)
                  end in
                if negb (String.eqb validation "") then
                  match StarGlobals !! validation with
                  | Datatypes.None =>
                      ([], Return (Some starlark.None)
                             (Some (Errorf "provided validation function not found : %s"
                                           [validation])))
                  | Some (starlark.Function name n) =>
                      ask (Some (starlark.Function name n))
                  | Some _ =>
                      ([], Return (Some starlark.None)
                             (Some (Errorf "%s is not a function" [validation])))
                  end
                else ask (qatypes.Validator prob)
          end
      end
  | inr _ => badVars
  end.
End builtins.

(** The members of the [fs] module, as [addFSModules] lists them. *)
Inductive fs_member :=
  | fs_exists | fs_read | fs_read_dir | fs_is_dir | fs_get_files_with_pattern
  | fs_path_join | fs_write | fs_get_yamls_with_type_meta | fs_path_base
  | fs_path_rel | fs_find_xml_path.

Definition fs {sh : ScriptHost} (member : fs_member)
  : list starlark.Value -> list (string * starlark.Value) -> list event * outcome :=
  match member with
  | fs_exists => getStarlarkFSExists
  | fs_read => getStarlarkFSRead
  | fs_read_dir => getStarlarkFSReadDir
  | fs_is_dir => getStarlarkFSIsDir
  | fs_get_files_with_pattern => getStarlarkFSGetFilesWithPattern
  | fs_path_join => getStarlarkFSPathJoin
  | fs_write => getStarlarkFSWrite
  | fs_get_yamls_with_type_meta => getStarlarkFSGetYamlsWithTypeMeta
  | fs_path_base => getStarlarkFSPathBase
  | fs_path_rel => getStarlarkFSPathRel
  | fs_find_xml_path => getStarlarkFindXmlPath
  end.

Definition directoryDetectFnName := "directory_detect".
Definition transformFnName := "transform".
Definition archTarGZipStrFnName := "arch_tar_gzip_str".
Definition archTarStrFnName := "arch_tar_str".

(** The function fields of [*Starlark]; [None] is the nil pointer. *)
Record functions := mkFunctions {
  detectFn : option starlark.Value;
  transformFn : option starlark.Value
}.

Section loading.
(** [t.StarGlobals], as [Init] has it after the script ran. *)
Variable StarGlobals : gmap string starlark.Value.

(** [loadDetectFn]: the fields after the call, the error and the lines
    logged.  The arguments of the messages, renderings of the value and
    of the numbers of parameters, are left out. *)
Definition loadDetectFn (t : functions) : functions * option error * list log_entry :=
  match StarGlobals !! directoryDetectFnName with
  | None => (t, None, [])
  | Some (starlark.Function name NumParams) =>
      if negb (NumParams =? 1) then
        let err :=
          Errorf "%s does not have the required number of paramters. It has %d, expected %d" [] in
        (t, Some err, [Log ErrorLevel "%s" [error_text err]])
      else (mkFunctions (Some (starlark.Function name NumParams)) (transformFn t), None, [])
  | Some _ =>
      let err := Errorf "%s is not a function" [] in
      (t, Some err, [Log ErrorLevel "%s" [error_text err]])
  end.

(** [loadTransformFn]. *)
Definition loadTransformFn (t : functions) : functions * option error * list log_entry :=
  match StarGlobals !! transformFnName with
  | None =>
      let err := Errorf "no %s function found" [transformFnName] in
      (t, Some err, [Log ErrorLevel "%s" [error_text err]])
  | Some (starlark.Function name NumParams) =>
      if negb (NumParams =? 2) then
        let err :=
          Errorf "%s does not have the required number of paramters. It has %d, expected %d" [] in
        (t, Some err, [Log ErrorLevel "%s" [error_text err]])
      else (mkFunctions (detectFn t) (Some (starlark.Function name NumParams)), None, [])
  | Some _ =>
      let err := Errorf "%s is not a function" [] in
      (t, Some err, [Log ErrorLevel "%s" [error_text err]])
  end.

(** [loadFunctions]. *)
Definition loadFunctions (t : functions) : functions * option error * list log_entry :=
  let '(t, err, lg) := loadDetectFn t in
  match err with
  | Some e =>
      (t, Some e, lg ++ [Log ErrorLevel "Unable to load detect function : %s" [error_text e]])
  | None =>
      let '(t, err, lg') := loadTransformFn t in
      match err with
      | Some e =>
          (t, Some e,
           lg ++ lg' ++ [Log ErrorLevel "Unable to load transform function : %s" [error_text e]])
      | None => (t, None, lg ++ lg')
      end
  end.
End loading.

Section detect.
Context {sh : ScriptHost}.
(** What [executeDetect] takes from outside the files at hand:
    [starutil.Marshal] of a string, [starlark.Call] on the thread of the
    transformer, and the decoder of the result into
    [map[string][]transformertypes.Artifact]. *)
Variable Services : Type.
Variable starutil_Marshal : string -> error + starlark.Value.
Variable starlark_Call : starlark.Value -> list starlark.Value -> error + starlark.Value.
Variable servicesFromInterface : GoValue -> error + Services.

(** [executeDetect]: the services ([None] is the nil map), the error and
    the lines logged. *)
Definition executeDetect (fn : option starlark.Value) (dir : string)
  : option Services * option error * list log_entry :=
  match fn with
  | None => (None, None, [])
  | Some fn =>
      match starutil_Marshal dir with
      | inl err =>
          (None, Some err,
           [Log ErrorLevel "Unable to convert %s to starlark value : %s" [dir; error_text err]])
      | inr starDir =>
          match starlark_Call fn [starDir] with
          | inl err =>
              (None, Some err,
               [Log ErrorLevel "Unable to execute starlark function : %s" [error_text err]])
          | inr val =>
              match starutil_Unmarshal val with
              | inl err =>
                  (None, Some err,
                   [Log ErrorLevel "Unable to unmarshal starlark function result : %s"
                        [error_text err]])
              | inr valI =>
                  match servicesFromInterface valI with
                  | inl err =>
                      (None, Some err,
                       [Log ErrorLevel "unable to load result for Transformer %+v into %T : %s"
                            [error_text err]])
                  | inr services => (Some services, None, [])
                  end
              end
          end
      end
  end.

(** [DirectoryDetect] runs detect in each sub directory. *)
Definition DirectoryDetect (t : functions) (dir : string)
  : option Services * option error * list log_entry :=
  executeDetect (detectFn t) dir.
End detect.

(** What an archive builtin does besides returning: it archives a
    directory, with or without compression. *)
Inductive archive_event :=
  | CreateTarArchive (srcPath : string) (gzip : bool).

Section archive.
Context {sh : ScriptHost}.
(** The archive string that [createTarArchive] ends with, for a path and
    a compression: the wrappers of package common log a failure and
    return the string of the buffer all the same. *)
Variable archivedData : string -> bool -> string.

(** [common.CreateTarArchiveGZipStringWrapper] and
    [common.CreateTarArchiveNoCompressionStringWrapper]. *)
Definition CreateTarArchiveGZipStringWrapper (srcPath : string)
  : list archive_event * string :=
  ([CreateTarArchive srcPath true], archivedData srcPath true).
Definition CreateTarArchiveNoCompressionStringWrapper (srcPath : string)
  : list archive_event * string :=
  ([CreateTarArchive srcPath false], archivedData srcPath false).

Definition getStarlarkArchTarGZipStr
           (args : list starlark.Value) (kwargs : list (string * starlark.Value))
  : list archive_event * outcome :=
  match unpack.UnpackPositionalArgs archTarGZipStrFnName args kwargs 1 [starlark.String ""] with
  | inl err => ([], Return Datatypes.None (Some err))
  | inr [starlark.String srcDir] =>
      if negb (IsPathValid srcDir) then
        ([], Return (Some starlark.None) (Errorf0 "invalid path"))
      else
        let '(evs, data) := CreateTarArchiveGZipStringWrapper srcDir in
        (evs, Return (Some (starlark.String data)) Datatypes.None)
  | inr _ => ([], snd badVars)
  end.

Definition getStarlarkArchTarStr
           (args : list starlark.Value) (kwargs : list (string * starlark.Value))
  : list archive_event * outcome :=
  match unpack.UnpackPositionalArgs archTarStrFnName args kwargs 1 [starlark.String ""] with
  | inl err => ([], Return Datatypes.None (Some err))
  | inr [starlark.String srcDir] =>
      if negb (IsPathValid srcDir) then
        ([], Return (Some starlark.None) (Errorf0 "invalid path"))
      else
        let '(evs, data) := CreateTarArchiveNoCompressionStringWrapper srcDir in
        (evs, Return (Some (starlark.String data)) Datatypes.None)
  | inr _ => ([], snd badVars)
  end.
End archive.

(** The members of the [archive] module, as [addArchiveModules] binds
    them. *)
Inductive archive_member := arch_tar_gzip_str | arch_tar_str.

Definition archive {sh : ScriptHost} (archivedData : string -> bool -> string)
           (member : archive_member)
  : list starlark.Value -> list (string * starlark.Value) -> list archive_event * outcome :=
  match member with
  | arch_tar_gzip_str => getStarlarkArchTarGZipStr archivedData
  | arch_tar_str => getStarlarkArchTarStr archivedData
  end.

End external.

(* ===================================================================== *)
(** ** Vocabulary of the statements *)
(* ===================================================================== *)

Section vocabulary.
Context {host : ConfigHost}.

(** The identity two artifacts must share to be merged. *)
Definition artifactKey (a : Artifact.t) : string * string :=
  (Artifact.Type_ a, Artifact.Name a).

(** The paths an artifact lists under a path kind, read through its
    [Paths] reference; a nil map and a missing key list nothing. *)
Definition pathList (h : transformer.Heap) (a : Artifact.t) (k : string) : list string :=
  match Artifact.Paths a with
  | Some l => default [] (transformer.readPaths h l !! k)
  | None => []
  end.

(** The config an artifact holds under a config kind. *)
Definition configAt (h : transformer.Heap) (a : Artifact.t) (k : string) : option CVal :=
  match Artifact.Configs a with
  | Some l => transformer.cfg_get (transformer.readConfigs h l) k
  | None => None
  end.

(** No registered schema ever refuses two configs it decoded. *)
Definition neverRefuses : Prop :=
  forall cn ct v1 v2 c1 c2,
    ConfigTypes cn = Some ct ->
    GetObjFromInterface ct v1 = Some c1 ->
    GetObjFromInterface ct v2 = Some c2 ->
    snd (Config_Merge c1 c2) = true.

(** Merging a config with itself gives it back: the deep merge of a
    value with itself is that value, and a registered schema accepts a
    config merged with itself and hands back the value it came from. *)
Definition selfMergeIsIdentity : Prop :=
  (forall v, deepcopy_Merge v (Some v) = Some v) /\
  (forall cn ct v c1 c2,
      ConfigTypes cn = Some ct ->
      GetObjFromInterface ct (Some v) = Some c1 ->
      GetObjFromInterface ct (Some v) = Some c2 ->
      Config_Merge c1 c2 = (v, true)).
End vocabulary.

Section merge_vocabulary.
Context {host : ConfigHost}.

(** The config kinds the config map of an artifact has an entry for; a
    nil map has none. *)
Definition configKinds (h : transformer.Heap) (a : Artifact.t) : list string :=
  match Artifact.Configs a with
  | Some l => map fst (transformer.readConfigs h l)
  | None => []
  end.

(** The config map of [a] has each of its kinds once, as every Go map
    has: the association list that stands for it repeats no key. *)
Definition wellKeyed (h : transformer.Heap) (a : Artifact.t) : Prop :=
  NoDup (configKinds h a).

(** Neither artifact holds a config under a kind the config map of the
    other has. *)
Definition shareNoKind (h : transformer.Heap) (a b : Artifact.t) : Prop :=
  (forall k, k ∈ configKinds h b -> configAt h a k = None) /\
  (forall k, k ∈ configKinds h a -> configAt h b k = None).

(** The turn of [a] in [mergeArtifacts] of [pre ++ a :: post]: the
    artifacts [pre] have been merged into a list, the list holds the type
    and name of [a], and the inner loop merges [a] into none of its
    artifacts. *)
Definition refusedAt (h : transformer.Heap) (xs pre : list Artifact.t) (a : Artifact.t)
           (post : list Artifact.t) : Prop :=
  xs = pre ++ a :: post /\
  artifactKey a ∈ map artifactKey (snd (transformer.mergeArtifacts h pre)) /\
  snd (transformer.mergeArtifacts_inner (fst (transformer.mergeArtifacts h pre)) a
         (snd (transformer.mergeArtifacts h pre))) = None.
End merge_vocabulary.

Section registry_vocabulary.
Context {reg : RegistryHost}.

(** The descriptors that load, in load order. *)
Definition loaded (transformerPaths : list (string * string)) : list Transformer.t :=
  omap (fun entry =>
          match fst (transformer.getTransformerConfig (snd entry)) with
          | inr tc => Some tc
          | inl _ => None
          end) transformerPaths.

Definition matchesUser (selector : Selector) (tc : Transformer.t) : bool :=
  selector (Transformer.Labels tc).

Definition classRegistered (tc : Transformer.t) : bool :=
  transformerTypes (TransformerSpec.Class (Transformer.Spec tc)).

(** The descriptors that pass the user's selector and the class check,
    in load order. *)
Definition survivors (transformerPaths : list (string * string)) (selector : Selector)
  : list Transformer.t :=
  filter (fun tc => matchesUser selector tc && classRegistered tc) (loaded transformerPaths).

(** The last descriptor of a list that bears a name. *)
Definition lastNamed (name : string) (tcs : list Transformer.t) : option Transformer.t :=
  last (filter (fun tc => Transformer.Name tc = name) tcs).

Definition overrideSelectorsOf (tcs : list Transformer.t) : list Selector :=
  omap (fun tc => TransformerSpec.OverrideSelector (Transformer.Spec tc)) tcs.

Definition shadowed (sels : list Selector) (tc : Transformer.t) : bool :=
  existsb (fun overrideSelector => overrideSelector (Transformer.Labels tc)) sels.
End registry_vocabulary.

Section sandbox_vocabulary.
Context {sh : ScriptHost}.

Definition oneString (r : error + list starlark.Value) : option (list string) :=
  match r with
  | inr [starlark.String path] => Some [path]
  | _ => Datatypes.None
  end.

Definition firstOfTwo (r : error + list starlark.Value) : option (list string) :=
  match r with
  | inr [starlark.String path; starlark.String _] => Some [path]
  | _ => Datatypes.None
  end.

(** The path arguments of a call of an [fs] member, as the script passed
    them; [None] when the arguments do not unpack. *)
Definition pathArguments (member : external.fs_member)
           (args : list starlark.Value) (kwargs : list (string * starlark.Value))
  : option (list string) :=
  match member with
  | external.fs_exists =>
      oneString (unpack.UnpackPositionalArgs external.fsExistsFnName args kwargs 1
                   [starlark.String ""])
  | external.fs_read =>
      oneString (unpack.UnpackPositionalArgs external.fsReadFnName args kwargs 1
                   [starlark.String ""])
  | external.fs_read_dir =>
      oneString (unpack.UnpackPositionalArgs external.fsReadDirFnName args kwargs 1
                   [starlark.String ""])
  | external.fs_is_dir =>
      oneString (unpack.UnpackPositionalArgs external.fsIsDirFnName args kwargs 1
                   [starlark.String ""])
  | external.fs_path_base =>
      oneString (unpack.UnpackPositionalArgs external.fsPathBaseFnName args kwargs 1
                   [starlark.String ""])
  | external.fs_get_files_with_pattern =>
      firstOfTwo (unpack.UnpackArgs external.fsGetFilesWithPatternFnName args kwargs
                    [("filepath", starlark.String ""); ("ext", starlark.String "")])
  | external.fs_get_yamls_with_type_meta =>
      firstOfTwo (unpack.UnpackArgs external.fsGetYamIsWithTypeMetaFnName args kwargs
                    [("inputpath", starlark.String ""); ("kind", starlark.String "")])
  | external.fs_find_xml_path =>
      firstOfTwo (unpack.UnpackArgs external.fsFindXmlPathFnName args kwargs
                    [("inputXmlFilePath", starlark.String "");
                     ("xmlpathexpr", starlark.String "")])
  | external.fs_write =>
      match unpack.UnpackArgs external.fsWriteFnName args kwargs
              [("filepath", starlark.String ""); ("data", starlark.String "");
               ("perm?", starlark.Int DefaultFilePermission)] with
      | inr [starlark.String filePath; starlark.String _; starlark.Int _] => Some [filePath]
      | _ => Datatypes.None
      end
  | external.fs_path_rel =>
      match unpack.UnpackPositionalArgs external.fsPathRelFnName args kwargs 2
              [starlark.String ""; starlark.String ""] with
      | inr [starlark.String basePath; starlark.String targetPath] =>
          Some [basePath; targetPath]
      | _ => Datatypes.None
      end
  | external.fs_path_join =>
      match unpack.UnpackPositionalArgs external.fsPathJoinFnName args kwargs 2
              [starlark.String ""; starlark.String ""] with
      | inr [starlark.String pathelem1; starlark.String pathelem2] =>
          Some [pathelem1; pathelem2]
      | _ => Datatypes.None
      end
  end.

(** The paths a call submits to [IsPathValid]: the path arguments
    themselves, except that [path_rel] cleans its two paths first and
    [path_join] checks the joined path. *)
Definition checkedPaths (member : external.fs_member)
           (args : list starlark.Value) (kwargs : list (string * starlark.Value))
  : option (list string) :=
  match member, pathArguments member args kwargs with
  | external.fs_path_rel, Some qs => Some (map filepath_Clean qs)
  | external.fs_path_join, Some [pathelem1; pathelem2] =>
      Some [filepath_Join pathelem1 pathelem2]
  | external.fs_path_join, Some _ => Datatypes.None
  | _, r => r
  end.

(** The argument a member insists on before it looks at the path is
    missing: an empty [filepath] ([write], [get_files_with_pattern]), an
    empty [kind] or an empty [xmlpathexpr]. *)
Definition requiredArgumentMissing (member : external.fs_member)
           (args : list starlark.Value) (kwargs : list (string * starlark.Value)) : bool :=
  match member with
  | external.fs_write | external.fs_get_files_with_pattern =>
      match pathArguments member args kwargs with
      | Some [filePath] => String.eqb filePath ""
      | _ => false
      end
  | external.fs_get_yamls_with_type_meta =>
      match unpack.UnpackArgs external.fsGetYamIsWithTypeMetaFnName args kwargs
              [("inputpath", starlark.String ""); ("kind", starlark.String "")] with
      | inr [_; starlark.String kindFilter] => String.eqb kindFilter ""
      | _ => false
      end
  | external.fs_find_xml_path =>
      match unpack.UnpackArgs external.fsFindXmlPathFnName args kwargs
              [("inputXmlFilePath", starlark.String "");
               ("xmlpathexpr", starlark.String "")] with
      | inr [_; starlark.String xmlPathExpr] => String.eqb xmlPathExpr ""
      | _ => false
      end
  | _ => false
  end.

(** The error a member returns for a path the sandbox rejects. *)
Definition sandboxError (member : external.fs_member) (qs : list string) : error -> Prop :=
  fun e =>
    match member with
    | external.fs_find_xml_path =>
        exists q, q ∈ qs /\ IsPathValid q = false /\ e = Errorf "invalid path: %s" [q]
    | external.fs_path_rel =>
        exists q, q ∈ qs /\ IsPathValid q = false /\
                  (e = Errorf "the base path '%s' is invalid" [q] \/
                   e = Errorf "the target path '%s' is invalid" [q])
    | _ => e = Errorf "invalid path" []
    end.

(** The error a member returns when the argument it insists on is
    missing. *)
Definition missingError (member : external.fs_member) : error :=
  match member with
  | external.fs_get_yamls_with_type_meta => Errorf "kind is missing in find parameters" []
  | external.fs_find_xml_path =>
      Errorf "XML path expression is missing in find parameters" []
  | _ => Errorf "FilePath is missing in write parameters" []
  end.

(** The problem a call of [query] asks about and the name of the
    validation function, as unpacked and decoded from the arguments;
    [None] when unpacking or decoding fails. *)
Definition queryProblem (args : list starlark.Value) (kwargs : list (string * starlark.Value))
  : option (qatypes.Problem * string) :=
  match unpack.UnpackPositionalArgs external.qaFnName args kwargs 1
          [starlark.Dict []; starlark.String ""] with
  | inr [starlark.Dict items; starlark.String validation] =>
      match starutil_Unmarshal (starlark.Dict items) with
      | inr argI =>
          match problemFromInterface argI with
          | inr prob => Some (prob, validation)
          | inl _ => Datatypes.None
          end
      | inl _ => Datatypes.None
      end
  | _ => Datatypes.None
  end.

(** The questions handed to the QA engine among the events of a call. *)
Definition fetched (evs : list event) : list qatypes.Problem :=
  omap (fun ev => match ev with FetchAnswer prob => Some prob | _ => Datatypes.None end) evs.

(** The ID a problem carries when it reaches the engine. *)
Definition normalisedID (id : string) : string :=
  if String.prefix BaseKey id then id else BaseKey +:+ Delim +:+ id.
End sandbox_vocabulary.

(* ===================================================================== *)
(** ** Concrete hosts, for the examples *)
(* ===================================================================== *)

(** Modelled from the spec: the config schemas and [deepcopy.Merge] are
    declared outside the files at hand.  Configs are scalars (strings).
    One config kind is registered, ["Service"]; its [Merge] refuses two
    configs that differ ("the type's own Merge method decides the outcome
    (and may refuse, aborting the merge)").  Every other kind goes through
    the generic deep merge, where the right scalar wins ("scalars: right
    wins"). *)
Definition scalarHost : ConfigHost := {|
  CVal := string;
  Schema := unit;
  ConfigTypes := fun cn => if String.eqb cn "Service" then Some tt else None;
  GetObjFromInterface := fun _ v => Some (default "" v);
  Config_Merge := fun c1 c2 => (c1, String.eqb c1 c2);
  deepcopy_Merge := fun x y => Some (default x y)
|}.

(** Modelled from the spec: a host with no registered config schema, every
    config kind going through the generic deep merge ("scalars: right
    wins"). *)
Definition untypedHost : ConfigHost := {|
  CVal := string;
  Schema := unit;
  ConfigTypes := fun _ => None;
  GetObjFromInterface := fun _ v => Some (default "" v);
  Config_Merge := fun c1 c2 => (c1, true);
  deepcopy_Merge := fun x y => Some (default x y)
|}.

(** Selecting by [matchLabels] alone: every listed label must be there
    with the listed value. *)
Definition matchLabelsSelector (s : metav1.LabelSelector) : Selector :=
  fun labels =>
    forallb (fun kv => bool_decide (labels !! fst kv = Some (snd kv)))
            (map_to_list (metav1.MatchLabels s)).

Definition blankSpec : TransformerSpec.t :=
  TransformerSpec.mk "" "" SelNil SelNil None None ∅.

Definition descriptor (name class : string) (labels : gmap string string)
           (override : selector_iface) (tc : Transformer.t) : Transformer.t :=
  Transformer.mk "Transformer" name labels
    (TransformerSpec.mk (TransformerSpec.FilePath (Transformer.Spec tc)) class override SelNil
       None None ∅).

Definition tierDefault : selector_iface :=
  SelDecodes {| metav1.MatchLabels := {[ "tier" := "default" ]};
                metav1.MatchExpressions := [] |}.

(** Modelled from the spec: a registry with one registered class,
    ["Known"], the kind ["Transformer"] ("kind: Transformer"), the
    self-label ["name"] ("a self-label name=<name>"), and five descriptor
    files: two that both name a transformer ["A"], one for ["B"] labelled
    [tier=default], one for ["O"] that overrides [tier=default], and one
    for ["G"] that overrides [tier=default] too but whose class is not
    registered. *)
Definition demoRegistry : RegistryHost := {|
  TransformerKind := "Transformer";
  LabelName := "name";
  NewTransformer := Transformer.mk "Transformer" "" ∅ blankSpec;
  transformerTypes := fun class => String.eqb class "Known";
  ReadMove2KubeYaml := fun path tc =>
    if String.eqb path "/t/a1.yaml" then inr (descriptor "A" "Known" ∅ SelNil tc)
    else if String.eqb path "/t/a2.yaml" then inr (descriptor "A" "Known" ∅ SelNil tc)
    else if String.eqb path "/t/b.yaml"
      then inr (descriptor "B" "Known" {[ "tier" := "default" ]} SelNil tc)
    else if String.eqb path "/t/o.yaml" then inr (descriptor "O" "Known" ∅ tierDefault tc)
    else if String.eqb path "/t/g.yaml" then inr (descriptor "G" "Ghost" ∅ tierDefault tc)
    else inl (PathError "open" path ErrNotExist);
  LabelSelectorAsSelector := fun s => inr (matchLabelsSelector s)
|}.

(** The selector that matches everything, [labels.Everything()]. *)
Definition Everything : Selector := fun _ => true.

(** Modelled from the spec: a script host whose sandbox roots are
    [/tmp/src] and [/tmp/out] ("a transformer whose roots are /tmp/src,
    /tmp/out"), with the root key ["move2kube"] and the delimiter ["."]
    ("rewritten to <root>.<id>"), and a file system that holds the one
    file [/tmp/src/app.yaml].  Paths are taken to be clean already. *)
Definition demoScriptHost : ScriptHost := {|
  GoValue := starlark.Value;
  IsPathValid := fun path => String.prefix "/tmp/src" path || String.prefix "/tmp/out" path;
  BaseKey := "move2kube";
  Delim := ".";
  DefaultFilePermission := 432;
  InputSolutionFormType := "Input";
  filepath_Join := fun a b => a +:+ "/" +:+ b;
  filepath_Base := fun p => p;
  filepath_Clean := fun p => p;
  filepath_Rel := fun _ target => inr target;
  os_Stat := fun path =>
    if String.eqb path "/tmp/src/app.yaml" then inr false
    else inl (PathError "stat" path ErrNotExist);
  os_ReadFile := fun path =>
    if String.eqb path "/tmp/src/app.yaml" then inr "kind: Deployment"
    else if String.eqb path "/tmp/src" then inl (PathError "read" path (ErrOther "is a directory"))
    else inl (PathError "open" path ErrNotExist);
  os_ReadDir := fun path =>
    if String.eqb path "/tmp/src" then inr ["app.yaml"]
    else inl (PathError "open" path ErrNotExist);
  os_WriteFile := fun _ _ _ => None;
  os_Open := fun path =>
    if String.eqb path "/tmp/src/app.yaml" then inr "kind: Deployment"
    else inl (PathError "open" path ErrNotExist);
  common_GetYamlsWithTypeMeta := fun _ _ => inr [];
  common_GetFilesByExt := fun _ _ => inr [];
  xmlquery_Parse := fun _ => inl (LibError "xmlquery" "not an XML document");
  xpath_Compile := fun expr => inr expr;
  xpath_Evaluate := fun _ _ => XOther;
  starutil_Unmarshal := fun v => inr v;
  problemFromInterface := fun v =>
    match v with
    | starlark.Dict [(starlark.String "id", starlark.String id)] =>
        inr (qatypes.mkProblem id "" "" None)
    | starlark.Dict _ => inr (qatypes.mkProblem "" "" "" None)
    | _ => inl (LibError "mapstructure" "expected a map")
    end;
  qaengine_FetchAnswer := fun prob => inr (inr (inr (starlark.String "yes")))
|}.

(** The descriptor the demo registry loads from a path. *)
Definition demoDescriptor (path : string) : Transformer.t :=
  match fst (transformer.getTransformerConfig (reg := demoRegistry) path) with
  | inr tc => tc
  | inl _ => NewTransformer (RegistryHost := demoRegistry)
  end.

(** Two descriptor files that both name a transformer ["A"], in load
    order. *)
Definition twoNamedA : list (string * string) :=
  [("a1", "/t/a1.yaml"); ("a2", "/t/a2.yaml")].

(** The descriptor of ["G"], whose class is not registered and which
    overrides [tier=default], and the descriptor of ["B"], labelled
    [tier=default]. *)
Definition ghostAndB : list (string * string) :=
  [("g", "/t/g.yaml"); ("b", "/t/b.yaml")].

(** The spec's scenario: ["O"] overrides [tier=default], ["B"] is labelled
    [tier=default]. *)
Definition overrideAndB : list (string * string) :=
  [("o", "/t/o.yaml"); ("b", "/t/b.yaml")].

(** *** Artifacts for the examples *)

(** Two artifacts of one type and name whose ["Service"] configs differ,
    each with a config map of its own. *)
Definition svcStore : @transformer.Heap scalarHost :=
  transformer.mkHeap ∅
    (<[1%positive := [("Service", Some "web")]]>
       (<[2%positive := [("Service", Some "db")]]> ∅)).
Definition svcWeb : Artifact.t := Artifact.mk "app" "Service" None (Some 1%positive).
Definition svcDb : Artifact.t := Artifact.mk "app" "Service" None (Some 2%positive).

(** Two artifacts of one type and name, each with a paths map and a config
    map of its own: the first lists one source path twice, and the two
    hold different values under the unregistered config kind ["Notes"]. *)
Definition pathStore : @transformer.Heap scalarHost :=
  transformer.mkHeap
    (<[1%positive := {[ "SourcePath" := ["src"; "src"] ]}]>
       (<[2%positive := {[ "SourcePath" := ["src"] ]}]> ∅))
    (<[3%positive := [("Notes", Some "first")]]>
       (<[4%positive := [("Notes", Some "second")]]> ∅)).
Definition twice : Artifact.t :=
  Artifact.mk "app" "Dockerfile" (Some 1%positive) (Some 3%positive).
Definition once : Artifact.t :=
  Artifact.mk "app" "Dockerfile" (Some 2%positive) (Some 4%positive).

(** Two artifacts of one type and name with different paths and no
    configs. *)
Definition plainStore : @transformer.Heap untypedHost :=
  transformer.mkHeap
    (<[1%positive := {[ "SourcePath" := ["a"] ]}]>
       (<[2%positive := {[ "SourcePath" := ["b"] ]}]> ∅))
    ∅.
Definition left : Artifact.t := Artifact.mk "app" "Dockerfile" (Some 1%positive) None.
Definition right : Artifact.t := Artifact.mk "app" "Dockerfile" (Some 2%positive) None.

(** An artifact of the same type and name with no paths map and no config
    map at all. *)
Definition bare : Artifact.t := Artifact.mk "app" "Dockerfile" None None.

(* ===================================================================== *)
(** ** More of common/utils.go *)
(* ===================================================================== *)

(** Package strings, as far as the helpers below use it.  A Go string is
    a sequence of bytes, and so is a [string] here. *)
Module gostrings.

(** [strings.HasPrefix(s, prefix)]. *)
Definition HasPrefix (s prefix : string) : bool := String.prefix prefix s.

(** [strings.HasSuffix(s, suffix)]:
    [len(s) >= len(suffix) && s[len(s)-len(suffix):] == suffix]. *)
Definition HasSuffix (s suffix : string) : bool :=
  (String.length suffix <=? String.length s)
  && String.eqb (String.substring (String.length s - String.length suffix)
                   (String.length suffix) s) suffix.

(** [strings.TrimPrefix(s, prefix)]. *)
Definition TrimPrefix (s prefix : string) : string :=
  if HasPrefix s prefix
  then String.substring (String.length prefix) (String.length s - String.length prefix) s
  else s.

(** [strings.TrimSuffix(s, suffix)]. *)
Definition TrimSuffix (s suffix : string) : string :=
  if HasSuffix s suffix
  then String.substring 0 (String.length s - String.length suffix) s
  else s.

(** [strings.Split(s, sep)] for a separator of one byte: the pieces
    between the separators, one more than there are separators. *)
Fixpoint Split (s : string) (sep : ascii) : list string :=
  match s with
  | EmptyString => [EmptyString]
  | String c rest =>
      if bool_decide (c = sep) then EmptyString :: Split rest sep
      else
        match Split rest sep with
        | piece :: pieces => String c piece :: pieces
        | [] => [String c EmptyString]
        end
  end.

(** [strings.ReplaceAll(s, old, new)] for [old] and [new] of one byte. *)
Fixpoint ReplaceAll (s : string) (old new : ascii) : string :=
  match s with
  | EmptyString => EmptyString
  | String c rest =>
      String (if bool_decide (c = old) then new else c) (ReplaceAll rest old new)
  end.

(** The bytes of a string. *)
Fixpoint bytes (s : string) : list ascii :=
  match s with
  | EmptyString => []
  | String c rest => c :: bytes rest
  end.

End gostrings.

(** Indexing and slicing of a Go string; [None] is the run-time panic
    for an index out of range. *)
Module slices.

(** [s[i]]. *)
Definition at_ (s : string) (i : Z) : option ascii :=
  if (0 <=? i)%Z then String.get (Z.to_nat i) s else None.

(** [s[i:]]. *)
Definition from (s : string) (i : Z) : option string :=
  if ((0 <=? i) && (i <=? Z.of_nat (String.length s)))%Z
  then Some (String.substring (Z.to_nat i) (String.length s - Z.to_nat i) s)
  else None.

(** [s[:j]]. *)
Definition upto (s : string) (j : Z) : option string :=
  if ((0 <=? j) && (j <=? Z.of_nat (String.length s)))%Z
  then Some (String.substring 0 (Z.to_nat j) s)
  else None.

End slices.

Module utils.

(** The double quote and the single quote. *)
Definition dquote : string := String "034"%char EmptyString.
Definition squote : string := String "039"%char EmptyString.

Section generic.
Context {T1 T2 : Type}.

(** [Map] applies the given function over all the elements and returns a
    new slice with the results. *)
Definition Map (vs : list T1) (f : T1 -> T2) : list T2 :=
  fold_left (fun ws v => ws ++ [f v]) vs [].

(** [Filter] returns the elements that satisfy the condition. *)
Definition Filter (vs : list T1) (condition : T1 -> bool) : list T1 :=
  fold_left (fun ws v => if condition v then ws ++ [v] else ws) vs [].

(** The loop of [FindIndex], from index [i] on. *)
Fixpoint FindIndex_from (i : Z) (vs : list T1) (condition : T1 -> bool) : Z :=
  match vs with
  | [] => (-1)%Z
  | v :: rest => if condition v then i else FindIndex_from (i + 1)%Z rest condition
  end.

(** [FindIndex] returns the index of the first element that satisfies
    the condition, [-1] if none does. *)
Definition FindIndex (vs : list T1) (condition : T1 -> bool) : Z :=
  FindIndex_from 0%Z vs condition.
End generic.

(** [GetImageNameAndTag] splits an image full name and returns the image
    name and tag.  [strings.Split] never returns an empty slice, so
    [parts[len(parts)-1]] and [imageAndTag[0]] are always there. *)
Definition GetImageNameAndTag (image : string) : string * string :=
  let parts := gostrings.Split image "/"%char in
  let imageAndTag := gostrings.Split (List.last parts EmptyString) ":"%char in
  let imageName := List.hd EmptyString imageAndTag in
  let tag :=
    if length imageAndTag =? 1 then "latest"
    else List.nth 1 imageAndTag EmptyString in
  (imageName, tag).

(** [GetUnixPath] returns the Unix path for any path. *)
Definition GetUnixPath (path : string) : string :=
  gostrings.ReplaceAll path "\"%char "/"%char.

(** [GetWindowsPath] returns the Windows path for any path. *)
Definition GetWindowsPath (path : string) : string :=
  gostrings.ReplaceAll path "/"%char "\"%char.

(** [removeDollarPrefixFromHiddenDir]; [name[1:]] drops the first byte. *)
Definition removeDollarPrefixFromHiddenDir (name : string) : string :=
  if gostrings.HasPrefix name "$." || gostrings.HasPrefix name "$_"
  then String.substring 1 (String.length name - 1) name
  else name.

(** [StripQuotes] strips a single layer of double or single quotes from
    the left and right ends. *)
Definition StripQuotes (s : string) : string :=
  if gostrings.HasPrefix s dquote && gostrings.HasSuffix s dquote then
    gostrings.TrimSuffix (gostrings.TrimPrefix s dquote) dquote
  else if gostrings.HasPrefix s squote && gostrings.HasSuffix s squote then
    gostrings.TrimSuffix (gostrings.TrimPrefix s squote) squote
  else s.

(** [ReplaceStartingTerminatingHyphens] replaces the first and last
    characters of a string if they are hyphens.  [None] is a panic:
    [str[0]] on the empty string, or [str[:len(str)-1]] once an empty
    replacement has emptied the string.  [last] is read before the first
    replacement is made. *)
Definition ReplaceStartingTerminatingHyphens (str startReplaceStr endReplaceStr : string)
  : option string :=
  match slices.at_ str 0 with
  | None => None
  | Some first =>
      match slices.at_ str (Z.of_nat (String.length str) - 1) with
      | None => None
      | Some last =>
          match
            (if bool_decide (first = "-"%char)
             then option_map (fun rest => startReplaceStr +:+ rest) (slices.from str 1)
             else Some str)
          with
          | None => None
          | Some str =>
              if bool_decide (last = "-"%char)
              then option_map (fun front => front +:+ endReplaceStr)
                     (slices.upto str (Z.of_nat (String.length str) - 1))
              else Some str
          end
      end
  end.

(** A value of type [interface{}], as [ConvertInterfaceToSliceOfStrings]
    tells values apart: a [[]string] ([None] is the nil slice), a
    [[]interface{}], a string, or anything else (the nil interface too). *)
#[local] Unset Elimination Schemes.
Inductive iface :=
  | IStrings (x : option (list string))
  | ISlice (vIs : list iface)
  | IString (v : string)
  | IOther.
#[local] Set Elimination Schemes.

(** The loop of [ConvertInterfaceToSliceOfStrings]: the strings gathered
    so far, and whether the loop ran to its end. *)
Fixpoint gatherStrings (vIs : list iface) (vs : list string) : list string * bool :=
  match vIs with
  | [] => (vs, true)
  | IString v :: rest => gatherStrings rest (vs ++ [v])
  | _ :: _ => (vs, false)
  end.

(** [ConvertInterfaceToSliceOfStrings] converts an [interface{}] to a
    [[]string]; the returned slice is nil ([None]) when the value is no
    slice at all. *)
Definition ConvertInterfaceToSliceOfStrings (xI : iface) : option (list string) * option error :=
  match xI with
  | IStrings x => (x, None)
  | ISlice vIs =>
      match gatherStrings vIs [] with
      | (vs, true) => (Some vs, None)
      | (vs, false) =>
          (Some vs,
           Some (Errorf "some of the values are not strings. Actual value is %+v of type %T" []))
      end
  | _ =>
      (None, Some (Errorf "failed to convert to []string. Actual value is %+v of type %T" []))
  end.

(** The first loop of [UniqueStrings]: the index given to each string
    seen, and the next index to give out. *)
Definition UniqueStrings_index (xs : list string) : gmap string nat * nat :=
  fold_left
    (fun '(exists_, nextIdx) x =>
       match exists_ !! x with
       | Some _ => (exists_, nextIdx)
       | None => (<[x := nextIdx]> exists_, S nextIdx)
       end)
    xs (∅, 0).

(** [UniqueStrings] returns a new slice with only the unique strings from
    the input slice: [unique := make([]string, len(exists))], then
    [unique[idx] = x] for every entry of the map, in the order [range]
    happens to visit them. *)
Definition UniqueStrings (xs : list string) : list string :=
  let exists_ := fst (UniqueStrings_index xs) in
  map_fold (fun x idx unique => <[idx := x]> unique)
           (replicate (size exists_) EmptyString) exists_.

Section reverse.
Context {T : Type}.

(** The loop of [ReverseInPlace], [i] going up and [j] coming down, for
    at most [fuel] rounds; [None] is an index out of range.  For an empty
    slice Go starts [j] at [-1], here it starts at [0]: the loop is not
    entered either way, and [j] is decreased only after [i < j] held. *)
Fixpoint ReverseInPlace_loop (fuel i j : nat) (xs : list T) : option (list T) :=
  if i <? j then
    match fuel with
    | 0 => None
    | S fuel =>
        match xs !! i, xs !! j with
        | Some xi, Some xj =>
            ReverseInPlace_loop fuel (S i) (j - 1) (<[j := xi]> (<[i := xj]> xs))
        | _, _ => None
        end
    end
  else Some xs.

(** [ReverseInPlace] reverses a slice in place: the slice after the call.
    Each round brings [i] and [j] closer, so [len(xs)] rounds are enough. *)
Definition ReverseInPlace (xs : list T) : option (list T) :=
  ReverseInPlace_loop (length xs) 0 (length xs - 1) xs.
End reverse.

Section paths.
(** [filepath.Abs], which reads the working directory: the path and the
    error it returns; [os.PathSeparator]. *)
Variable Abs : string -> string * option error.
Variable PathSeparator : ascii.

(** The loop [for i, parentPart := range parentParts] of [IsParent];
    [None] is an index out of range. *)
Fixpoint IsParent_parts (i : nat) (childParts parentParts : list string) : option bool :=
  match parentParts with
  | [] => Some true
  | parentPart :: rest =>
      match childParts !! i with
      | Some childPart =>
          if negb (String.eqb childPart parentPart) then Some false
          else IsParent_parts (S i) childParts rest
      | None => None
      end
  end.

(** [IsParent] can be used to check if a path is one of the parent
    directories of another path.  [inl] is the line [logrus.Fatalf] ends
    the process with; [child] and [parent] are reassigned before it is
    written, so it shows what [filepath.Abs] returned. *)
Definition IsParent (child parent : string) : log_entry + option bool :=
  match Abs child with
  | (child, Some err) =>
      inl (Log FatalLevel "Failed to make the path %s absolute. Error: %s"
               [child; error_text err])
  | (child, None) =>
      match Abs parent with
      | (parent, Some err) =>
          inl (Log FatalLevel "Failed to make the path %s absolute. Error: %s"
                   [parent; error_text err])
      | (parent, None) =>
          if String.eqb parent "/" then inr (Some true)
          else
            let childParts := gostrings.Split child PathSeparator in
            let parentParts := gostrings.Split parent PathSeparator in
            if length childParts <? length parentParts then inr (Some false)
            else inr (IsParent_parts 0 childParts parentParts)
      end
  end.
End paths.

Section common_directory.
(** [filepath.Dir] and [filepath.Separator]. *)
Variable Dir : string -> string.
Variable Separator : ascii.

(** The loop [for commonDir != slash] of [FindCommonDirectory], for at
    most [fuel] steps up; [None] when that is not enough. *)
Fixpoint FindCommonDirectory_loop (fuel : nat) (paths : list string) (commonDir : string)
  : option string :=
  let slash := String Separator EmptyString in
  if String.eqb commonDir slash then Some commonDir
  else if forallb (fun path => gostrings.HasPrefix (path +:+ slash) (commonDir +:+ slash)) paths
  then Some commonDir
  else
    match fuel with
    | 0 => None
    | S fuel => FindCommonDirectory_loop fuel paths (Dir commonDir)
    end.

(** [FindCommonDirectory] finds the common ancestor directory among a
    list of cleaned absolute paths. *)
Definition FindCommonDirectory (fuel : nat) (paths : list string) : option string :=
  match paths with
  | [] => Some EmptyString
  | first :: _ => FindCommonDirectory_loop fuel paths first
  end.
End common_directory.

(** The store of [map[string]string] objects; a location it does not
    hold reads as the empty map. *)
Definition StringMaps : Type := gmap addr (gmap string string).

(** [MergeStringMaps] merges two string maps: the store after the call
    and the returned reference ([None] is the nil map).  The loop writes
    [map1[k] = v] for every entry of [map2]; the keys are distinct, so
    the order of the visits is immaterial. *)
Definition MergeStringMaps (h : StringMaps) (map1 map2 : option addr)
  : StringMaps * option addr :=
  match map1, map2 with
  | None, _ => (h, map2)
  | Some _, None => (h, map1)
  | Some l1, Some l2 =>
      (<[l1 := map_fold (fun k v map1 => <[k := v]> map1)
                 (default ∅ (h !! l1)) (default ∅ (h !! l2))]> h,
       map1)
  end.

End utils.

(** What the first loop of [UniqueStrings] keeps true: the map sends each
    string of the list of first occurrences to its index there. *)
Definition indexes (m : gmap string nat) (n : nat) (u : list string) : Prop :=
  n = length u /\ size m = n /\ NoDup u /\
  forall x i, m !! x = Some i <-> u !! i = Some x.

(** The path an operation of package [os] is applied to. *)
Definition osPath (ev : event) : option string :=
  match ev with
  | Stat path | ReadFile path | ReadDir path | WriteFile path _ _ | Open path => Some path
  | GetYamlsWithTypeMeta _ _ | GetFilesByExt _ _ | FetchAnswer _ => None
  end.

(** The path a walk of package [common] is given as its root.  The walk
    stats the root, visits the tree below it and, for
    [GetYamlsWithTypeMeta], reads the yaml files it finds there. *)
Definition walkRoot (ev : event) : option string :=
  match ev with
  | GetYamlsWithTypeMeta inputPath _ | GetFilesByExt inputPath _ => Some inputPath
  | _ => None
  end.

(** Whether an operation is a call of [os.WriteFile]. *)
Definition writes (ev : event) : bool :=
  match ev with
  | WriteFile _ _ _ => true
  | _ => false
  end.

(** A parent function for the paths [/a/b] and [/a]: everything else is
    taken to lie directly under the root. *)
Definition demoDir (path : string) : string :=
  if String.eqb path "/a/b" then "/a" else "/".

(** A store with two config maps that share no kind. *)
Definition kindStore : @transformer.Heap scalarHost :=
  transformer.mkHeap ∅
    (<[1%positive := [("Ports", Some "8080")]]>
       (<[2%positive := [("Image", Some "web:v1")]]> ∅)).

(** Two artifacts of one type and name on [kindStore], each with a
    config map of its own. *)
Definition portsOnly : Artifact.t := Artifact.mk "app" "Deployment" None (Some 1%positive).
Definition imageOnly : Artifact.t := Artifact.mk "app" "Deployment" None (Some 2%positive).

(* ===================================================================== *)
(** ** package lib *)
(* ===================================================================== *)

Module plantypes.
(** [plantypes.Plan], the fields [CreatePlan] writes; the fields of
    [p.Spec] are fields of the record. *)
Record Plan := mkPlan {
  Name : string;
  SourceDir : string;
  CustomizationsDir : string;
  TransformerSelector : metav1.LabelSelector;
  DisabledTransformers : gmap string string;
  Transformers : gmap string string;
  InvokedByDefaultTransformers : list string;
  Services : gmap string (list transformer.PlanArtifact)
}.
End plantypes.

(** What [CreatePlan] does besides returning, in order: it sets
    [common.ProjectName], copies the customizations, initialises the
    transformers and has them look for services. *)
Inductive plan_event :=
  | SetProjectName (prjName : string)
  | CheckAndCopyCustomizations (customizationsPath : string)
  | TransformersInit (assetsPath inputPath outputPath prjName : string)
  | GetServices (prjName inputPath : string).

(** What [CreatePlan] reads of the config of an initialised transformer. *)
Record initialized := mkInitialized {
  config_Name : string;
  config_FilePath : string;
  InvokedByDefault_Enabled : bool
}.

(** What [CreatePlan] takes from outside the files at hand: the paths
    [common.TempPath] and [common.AssetsPath], the blank plan, the parser
    of selector strings, [transformer.Init] with the transformers it
    leaves initialised, and [transformer.GetServices], which returns
    services and an error. *)
Class PlanHost := {
  TempPath : string;
  AssetsPath : string;
  NewPlan : plantypes.Plan;
  ParseToLabelSelector : string -> error + metav1.LabelSelector;
  transformer_Init : string -> string -> Selector -> string -> string
                     -> error + (gmap string string * list initialized);
  transformer_GetServices : string -> string
                            -> gmap string (list transformer.PlanArtifact) * option error
}.

Module lib.
Section planner.
Context {reg : RegistryHost} {ph : PlanHost}.

(** The loop [for _, t := range ts] of [CreatePlan]. *)
Definition addTransformers (ts : list initialized) (p : plantypes.Plan) : plantypes.Plan :=
  fold_left
    (fun p config =>
       plantypes.mkPlan (plantypes.Name p) (plantypes.SourceDir p)
         (plantypes.CustomizationsDir p) (plantypes.TransformerSelector p)
         (plantypes.DisabledTransformers p)
         (<[config_Name config := config_FilePath config]> (plantypes.Transformers p))
         (if InvokedByDefault_Enabled config
          then plantypes.InvokedByDefaultTransformers p ++ [config_Name config]
          else plantypes.InvokedByDefaultTransformers p)
         (plantypes.Services p))
    ts p.

(** [CreatePlan] creates the plan from all planners: what it does, the
    plan and the error it returns, and the lines it logs.  The number in
    the last line is left out. *)
Definition CreatePlan (inputPath outputPath customizationsPath transformerSelector prjName : string)
  : list plan_event * plantypes.Plan * option error * list log_entry :=
  let lg := [Log DebugLevel "Temp Dir : %s" [TempPath]] in
  let p := NewPlan in
  let p :=
    plantypes.mkPlan prjName inputPath customizationsPath
      (plantypes.TransformerSelector p) (plantypes.DisabledTransformers p)
      (plantypes.Transformers p) (plantypes.InvokedByDefaultTransformers p)
      (plantypes.Services p) in
  let evs :=
    SetProjectName prjName
    :: (if negb (String.eqb customizationsPath "")
        then [CheckAndCopyCustomizations customizationsPath] else []) in
  match ParseToLabelSelector transformerSelector with
  | inl err =>
      (evs, p,
       Some (Errorf "failed to parse the transformer selector string. Error: %q"
                    [error_text err]), lg)
  | inr transformerSelectorObj =>
      let p :=
        plantypes.mkPlan (plantypes.Name p) (plantypes.SourceDir p)
          (plantypes.CustomizationsDir p) transformerSelectorObj
          (plantypes.DisabledTransformers p) (plantypes.Transformers p)
          (plantypes.InvokedByDefaultTransformers p) (plantypes.Services p) in
      match LabelSelectorAsSelector transformerSelectorObj with
      | inl err =>
          (evs, p,
           Some (Errorf "failed to convert label selector to selector. Error: %q"
                        [error_text err]), lg)
      | inr lblSelector =>
          let evs := evs ++ [TransformersInit AssetsPath inputPath outputPath
                               (plantypes.Name p)] in
          match transformer_Init AssetsPath inputPath lblSelector outputPath
                  (plantypes.Name p) with
          | inl err =>
              (evs, p,
               Some (Errorf "failed to initialize the transformers. Error: %q"
                            [error_text err]), lg)
          | inr (deselectedTransformers, ts) =>
              let p :=
                plantypes.mkPlan (plantypes.Name p) (plantypes.SourceDir p)
                  (plantypes.CustomizationsDir p) (plantypes.TransformerSelector p)
                  deselectedTransformers (plantypes.Transformers p)
                  (plantypes.InvokedByDefaultTransformers p) (plantypes.Services p) in
              let p := addTransformers ts p in
              let lg := lg ++ [Log InfoLevel "Configuration loading done" [];
                               Log InfoLevel "Start planning" []] in
              let '(evs, p, lg) :=
                if negb (String.eqb inputPath "") then
                  let '(services, err) :=
                    transformer_GetServices (plantypes.Name p) inputPath in
                  (evs ++ [GetServices (plantypes.Name p) inputPath],
                   plantypes.mkPlan (plantypes.Name p) (plantypes.SourceDir p)
                     (plantypes.CustomizationsDir p) (plantypes.TransformerSelector p)
                     (plantypes.DisabledTransformers p) (plantypes.Transformers p)
                     (plantypes.InvokedByDefaultTransformers p) services,
                   match err with
                   | Some err =>
                       lg ++ [Log ErrorLevel "Unable to create plan : %s" [error_text err]]
                   | None => lg
                   end)
                else (evs, p, lg) in
              (evs, p, None,
               lg ++ [Log InfoLevel "Planning done" [];
                      Log InfoLevel "No of services identified : %d" []])
          end
      end
  end.
End planner.
End lib.

(** A planning host on which everything succeeds but the search for
    services, with one transformer invoked by default and one not. *)
Definition demoPlanHost : PlanHost := {|
  TempPath := "/tmp/m2k";
  AssetsPath := "/tmp/m2k/assets";
  NewPlan :=
    plantypes.mkPlan "" "" ""
      {| metav1.MatchLabels := ∅; metav1.MatchExpressions := [] |} ∅ ∅ [] ∅;
  ParseToLabelSelector := fun s =>
    if String.eqb s "(" then inl (LibError "labels" "unable to parse requirement")
    else inr {| metav1.MatchLabels := ∅; metav1.MatchExpressions := [] |};
  transformer_Init := fun _ _ _ _ _ =>
    inr (∅, [mkInitialized "Maven" "maven/transformer.yaml" true;
             mkInitialized "Jar" "jar/transformer.yaml" false]);
  transformer_GetServices := fun _ _ => (∅, Some (LibError "transformer" "no services"))
|}.

(* ===================================================================== *)
(** ** Proof steps that recur *)
(* ===================================================================== *)

(** Split on every variable a [match] of the goal inspects. *)
Ltac split_vars :=
  repeat match goal with
         | |- context [match ?v with _ => _ end] => is_var v; destruct v
         end.

(** Unfold a call of an [fs] member and split on what unpacking gives. *)
Ltac open_call :=
  unfold requiredArgumentMissing, checkedPaths, pathArguments, oneString, firstOfTwo,
    external.fs, external.getStarlarkFSExists, external.getStarlarkFSRead,
    external.getStarlarkFSReadDir, external.getStarlarkFSIsDir,
    external.getStarlarkFSGetFilesWithPattern, external.getStarlarkFSPathJoin,
    external.getStarlarkFSWrite, external.getStarlarkFSGetYamlsWithTypeMeta,
    external.getStarlarkFSPathBase, external.getStarlarkFSPathRel,
    external.getStarlarkFindXmlPath, external.badVars, external.Errorf0;
  match goal with
  | |- context [unpack.UnpackPositionalArgs ?f ?a ?k ?n ?v] =>
      destruct (unpack.UnpackPositionalArgs f a k n v) as [?err|vars]
  | |- context [unpack.UnpackArgs ?f ?a ?k ?p] =>
      destruct (unpack.UnpackArgs f a k p) as [?err|vars]
  end;
  [|split_vars].

(** Split on every test a goal still holds, remembering the outcome. *)
Ltac split_tests :=
  repeat match goal with
         | |- context [if ?b then _ else _] => destruct b eqn:?
         | |- context [match ?x with _ => _ end] => destruct x eqn:?
         end.

(** Close the facts about a call that did nothing and returned an
    error. *)
Ltac quiet_call :=
  cbn; repeat split; try reflexivity; try lia; try congruence;
  try (intros; match goal with H : _ ∈ [] |- _ => inversion H end);
  try (now eexists).

(* ===================================================================== *)
(** ** Slices *)
(* ===================================================================== *)

Section slice_facts.
Context {C : Type} `{EqDecision C}.
Implicit Types (xs ys : list C) (x : C).

Lemma IsPresent_true xs x : common.IsPresent xs x = true <-> x ∈ xs.
Proof.
  induction xs as [|y xs IH]; simpl.
  - split; [discriminate | intros H0; inversion H0].
  - destruct (decide (y = x)) as [->|Hne].
    + split; [intros _; left | reflexivity].
    + rewrite IH. split; [intros H0; now right |].
      intros H0. apply elem_of_cons in H0 as [->|H0]; [congruence | exact H0].
Qed.

Lemma IsPresent_false xs x : common.IsPresent xs x = false <-> x ∉ xs.
Proof.
  rewrite <- IsPresent_true. destruct (common.IsPresent xs x); split; congruence.
Qed.

Lemma AppendIfNotPresent_nil xs : common.AppendIfNotPresent xs [] = xs.
Proof. reflexivity. Qed.

Lemma AppendIfNotPresent_cons xs y ys :
  common.AppendIfNotPresent xs (y :: ys)
  = common.AppendIfNotPresent (if common.IsPresent xs y then xs else xs ++ [y]) ys.
Proof. reflexivity. Qed.

(** A merged slice holds what either slice holds. *)
Lemma elem_of_MergeSlices xs ys x :
  x ∈ common.MergeSlices xs ys <-> x ∈ xs \/ x ∈ ys.
Proof.
  unfold common.MergeSlices. revert xs.
  induction ys as [|y ys IH]; intros xs.
  - rewrite AppendIfNotPresent_nil. split; [now left | intros [H0|H0]; [exact H0 | inversion H0]].
  - rewrite AppendIfNotPresent_cons, IH.
    destruct (common.IsPresent xs y) eqn:Hp.
    + apply IsPresent_true in Hp. rewrite elem_of_cons.
      split; [tauto |]. intros [H0|[->|H0]]; tauto.
    + rewrite elem_of_app, list_elem_of_singleton, (elem_of_cons ys). tauto.
Qed.

(** Appending what is there already changes nothing. *)
Lemma AppendIfNotPresent_absorb xs ys :
  (forall y, y ∈ ys -> y ∈ xs) -> common.AppendIfNotPresent xs ys = xs.
Proof.
  induction ys as [|y ys IH]; intros Hsub; [reflexivity|].
  rewrite AppendIfNotPresent_cons.
  assert (Hy : common.IsPresent xs y = true) by (apply IsPresent_true, Hsub; left).
  rewrite Hy. apply IH. intros z Hz. apply Hsub. now right.
Qed.

Lemma MergeSlices_self xs : common.MergeSlices xs xs = xs.
Proof. apply AppendIfNotPresent_absorb. auto. Qed.

(** The first slice stays in front. *)
Lemma MergeSlices_prefix xs ys : exists zs, common.MergeSlices xs ys = xs ++ zs.
Proof.
  unfold common.MergeSlices. revert xs.
  induction ys as [|y ys IH]; intros xs.
  - exists []. now rewrite AppendIfNotPresent_nil, app_nil_r.
  - rewrite AppendIfNotPresent_cons.
    destruct (common.IsPresent xs y); [apply IH|].
    destruct (IH (xs ++ [y])) as [zs Hzs]. exists (y :: zs).
    now rewrite Hzs, <- app_assoc.
Qed.

(** Merging adds no repetition to a slice that has none. *)
Lemma NoDup_MergeSlices xs ys : NoDup xs -> NoDup (common.MergeSlices xs ys).
Proof.
  unfold common.MergeSlices. revert xs.
  induction ys as [|y ys IH]; intros xs Hnd; [exact Hnd|].
  rewrite AppendIfNotPresent_cons.
  destruct (common.IsPresent xs y) eqn:Hp; [now apply IH|].
  apply IsPresent_false in Hp. apply IH.
  apply NoDup_app. split; [exact Hnd|]. split.
  - intros z Hz Hz'. apply list_elem_of_singleton in Hz'. now subst.
  - apply NoDup_singleton.
Qed.

(** Without repetitions in the inputs, the two orders of merging give
    the same slice up to order. *)
Lemma MergeSlices_comm_perm xs ys :
  NoDup xs -> NoDup ys -> common.MergeSlices xs ys ≡ₚ common.MergeSlices ys xs.
Proof.
  intros Hx Hy. apply NoDup_Permutation.
  - now apply NoDup_MergeSlices.
  - now apply NoDup_MergeSlices.
  - intros z. rewrite !elem_of_MergeSlices. tauto.
Qed.
End slice_facts.

(* ===================================================================== *)
(** ** Produced-artifact rewriting *)
(* ===================================================================== *)

Section produces.
Implicit Types (t : Transformer.t) (a : Artifact.t).

(** What one round of the loop appends. *)
Lemma postProcessArtifacts_app artifacts t :
  transformer.postProcessArtifacts artifacts t
  = map (fun a =>
           match TransformerSpec.ProducedArtifacts (Transformer.Spec t) !! Artifact.Type_ a with
           | Some p =>
               if negb (String.eqb (ProducedArtifact.ChangeTypeTo p) "")
               then Artifact.setType a (ProducedArtifact.ChangeTypeTo p)
               else a
           | None => a
           end) artifacts.
Proof.
  unfold transformer.postProcessArtifacts.
  set (f := fun a : Artifact.t => _).
  enough (Hgen : forall acc,
             fold_left (fun newArtifacts a => newArtifacts ++ [f a]) artifacts acc
             = acc ++ map f artifacts) by apply (Hgen []).
  induction artifacts as [|a rest IH]; intros acc; simpl.
  - now rewrite app_nil_r.
  - rewrite IH, <- app_assoc. reflexivity.
Qed.

(** C8. [postProcessArtifacts] returns as many artifacts as it was given,
    in the same order; the artifact at an index gets the type
    [ChangeTypeTo] of the entry of [ProducedArtifacts] for its type when
    that entry exists and its [ChangeTypeTo] is not empty, and is the
    input artifact otherwise; name, paths and configs never change. *)
Theorem postProcessArtifacts_retypes artifacts t :
  length (transformer.postProcessArtifacts artifacts t) = length artifacts /\
  forall i a,
    artifacts !! i = Some a ->
    exists a',
      transformer.postProcessArtifacts artifacts t !! i = Some a' /\
      Artifact.Name a' = Artifact.Name a /\
      Artifact.Paths a' = Artifact.Paths a /\
      Artifact.Configs a' = Artifact.Configs a /\
      (forall p,
          TransformerSpec.ProducedArtifacts (Transformer.Spec t) !! Artifact.Type_ a = Some p ->
          ProducedArtifact.ChangeTypeTo p <> "" ->
          Artifact.Type_ a' = ProducedArtifact.ChangeTypeTo p) /\
      (TransformerSpec.ProducedArtifacts (Transformer.Spec t) !! Artifact.Type_ a = None ->
       a' = a) /\
      (forall p,
          TransformerSpec.ProducedArtifacts (Transformer.Spec t) !! Artifact.Type_ a = Some p ->
          ProducedArtifact.ChangeTypeTo p = "" ->
          a' = a).
Proof.
  rewrite postProcessArtifacts_app. split; [apply length_map|].
  intros i a Hi.
  change (map ?f artifacts) with (f <$> artifacts).
  rewrite list_lookup_fmap, Hi. simpl.
  eexists. split; [reflexivity|].
  destruct (TransformerSpec.ProducedArtifacts (Transformer.Spec t) !! Artifact.Type_ a)
    as [p|] eqn:Hp.
  - destruct (String.eqb (ProducedArtifact.ChangeTypeTo p) "") eqn:He; simpl.
    + apply String.eqb_eq in He.
      repeat split; try reflexivity; intros q Hq; inversion Hq; subst; congruence.
    + apply String.eqb_neq in He.
      repeat split; try reflexivity.
      * intros q Hq _. now inversion Hq.
      * discriminate.
      * intros q Hq Hq'. inversion Hq; subst. congruence.
  - repeat split; try reflexivity; intros q Hq; discriminate.
Qed.

(** The spec's scenario: a transformer that declares
    [produces: {X: {changeTypeTo: Y}}] turns an emitted artifact of type
    [X] into one of type [Y], and leaves an artifact of another type
    alone. *)
Example postProcessArtifacts_scenario :
  let t := Transformer.mk "Transformer" "T" ∅
             (TransformerSpec.mk "" "Known" SelNil SelNil None None
                {[ "X" := {| ProducedArtifact.ChangeTypeTo := "Y" |} ]}) in
  transformer.postProcessArtifacts
    [Artifact.mk "svc" "X" (Some 1%positive) None; Artifact.mk "svc" "Z" None None] t
  = [Artifact.mk "svc" "Y" (Some 1%positive) None; Artifact.mk "svc" "Z" None None].
Proof. vm_compute. reflexivity. Qed.
End produces.

(* ===================================================================== *)
(** ** Merging artifacts *)
(* ===================================================================== *)

Section merge_facts.
Context {host : ConfigHost}.
Implicit Types (h : transformer.Heap) (a b : Artifact.t) (l : addr).
Implicit Types (m todo : transformer.ConfigMap).

(** *** Config maps *)

Lemma cfg_get_set_eq m k v : transformer.cfg_get (transformer.cfg_set m k v) k = v.
Proof.
  induction m as [|[k' v'] m IH]; simpl.
  - now destruct (decide (k = k)).
  - destruct (decide (k' = k)) as [->|Hne]; simpl.
    + now destruct (decide (k = k)).
    + now destruct (decide (k' = k)).
Qed.

Lemma cfg_get_set_ne m k k' v :
  k <> k' -> transformer.cfg_get (transformer.cfg_set m k v) k' = transformer.cfg_get m k'.
Proof.
  intros Hne. induction m as [|[k0 v0] m IH]; simpl.
  - now destruct (decide (k = k')).
  - destruct (decide (k0 = k)) as [->|Hne0]; simpl.
    + now destruct (decide (k = k')).
    + destruct (decide (k0 = k')); [reflexivity | exact IH].
Qed.

(** Writing back what a key holds changes no lookup. *)
Lemma cfg_get_set_same m k k' :
  transformer.cfg_get (transformer.cfg_set m k (transformer.cfg_get m k)) k'
  = transformer.cfg_get m k'.
Proof.
  destruct (decide (k = k')) as [->|Hne].
  - apply cfg_get_set_eq.
  - now apply cfg_get_set_ne.
Qed.

(** In a map without repeated keys an entry is what its key looks up. *)
Lemma cfg_get_entry m k v :
  NoDup (map fst m) -> (k, v) ∈ m -> transformer.cfg_get m k = v.
Proof.
  induction m as [|[k' v'] m IH]; intros Hnd Hin; [inversion Hin|].
  simpl in *. apply NoDup_cons in Hnd as [Hk' Hnd].
  apply elem_of_cons in Hin as [Heq|Hin].
  - inversion Heq; subst. now destruct (decide (k' = k')).
  - destruct (decide (k' = k)) as [->|Hne]; [|now apply IH].
    exfalso. apply Hk'.
    change (map fst m) with (fst <$> m). apply list_elem_of_fmap. now exists (k, v).
Qed.

(** *** The loop of [mergeConfigs] *)

(** The loop reports failure only when a registered schema refused the
    two configs it decoded for a kind. *)
Lemma mergeConfigs_range_refused (configs2 : transformer.ConfigMap) todo
      (configs1 : transformer.ConfigMap) :
  snd (transformer.mergeConfigs_range configs2 todo configs1) = false ->
  exists cn ct v1 c1 c2,
    ConfigTypes cn = Some ct /\
    GetObjFromInterface ct (Some v1) = Some c1 /\
    GetObjFromInterface ct (transformer.cfg_get configs2 cn) = Some c2 /\
    snd (Config_Merge c1 c2) = false.
Proof.
  revert configs1. induction todo as [|[cn2 cg2] rest IH]; intros configs1; simpl.
  - discriminate.
  - destruct (transformer.cfg_get configs1 cn2) as [v1|]; [|apply IH].
    destruct (ConfigTypes cn2) as [ct|] eqn:Hct; [|apply IH].
    destruct (GetObjFromInterface ct (Some v1)) as [c1|] eqn:H1; [|discriminate].
    destruct (GetObjFromInterface ct (transformer.cfg_get configs2 cn2)) as [c2|] eqn:H2;
      [|discriminate].
    destruct (Config_Merge c1 c2) as [c1' merged] eqn:Hm.
    destruct merged; [apply IH|].
    intros _. exists cn2, ct, v1, c1, c2. rewrite Hm. auto.
Qed.

Lemma mergeConfigs_range_accepts (configs2 : transformer.ConfigMap) todo
      (configs1 : transformer.ConfigMap) :
  neverRefuses -> snd (transformer.mergeConfigs_range configs2 todo configs1) = true.
Proof.
  intros Hnever.
  destruct (snd (transformer.mergeConfigs_range configs2 todo configs1)) eqn:Hr; [reflexivity|].
  apply mergeConfigs_range_refused in Hr as (cn & ct & v1 & c1 & c2 & Hct & H1 & H2 & Hm).
  rewrite (Hnever cn ct _ _ c1 c2 Hct H1 H2) in Hm. discriminate.
Qed.

(** Merging a map into itself, under [selfMergeIsIdentity], leaves every
    lookup as it was. *)
Lemma mergeConfigs_range_self m todo (configs1 : transformer.ConfigMap) :
  selfMergeIsIdentity ->
  NoDup (map fst m) ->
  (forall e, e ∈ todo -> e ∈ m) ->
  (forall k, transformer.cfg_get configs1 k = transformer.cfg_get m k) ->
  forall k,
    transformer.cfg_get (fst (transformer.mergeConfigs_range m todo configs1)) k
    = transformer.cfg_get m k.
Proof.
  intros [Hdeep Htyped] Hnd. revert configs1.
  induction todo as [|[cn2 cg2] rest IH]; intros configs1 Hsub Hsame k; simpl.
  - apply Hsame.
  - assert (Hcg : transformer.cfg_get m cn2 = cg2)
      by (apply cfg_get_entry; [exact Hnd | apply Hsub; left]).
    assert (Hrest : forall e, e ∈ rest -> e ∈ m) by (intros e He; apply Hsub; now right).
    assert (Hkeep : forall v k',
               transformer.cfg_get configs1 cn2 = v ->
               transformer.cfg_get (transformer.cfg_set configs1 cn2 v) k'
               = transformer.cfg_get m k').
    { intros v k' <-. rewrite cfg_get_set_same. apply Hsame. }
    destruct (transformer.cfg_get configs1 cn2) as [v1|] eqn:Hv1.
    + assert (Hm2 : transformer.cfg_get m cn2 = Some v1) by (rewrite <- Hsame; exact Hv1).
      destruct (ConfigTypes cn2) as [ct|] eqn:Hct.
      * rewrite Hm2.
        destruct (GetObjFromInterface ct (Some v1)) as [c1|] eqn:H1; [|apply Hsame].
        rewrite (Htyped cn2 ct v1 c1 c1 Hct H1 H1).
        apply IH; [exact Hrest|]. intros k'. now apply Hkeep.
      * rewrite Hm2, Hdeep. apply IH; [exact Hrest|]. intros k'. now apply Hkeep.
    + assert (Hnil : cg2 = None) by (rewrite <- Hcg, <- Hsame; exact Hv1).
      subst cg2. apply IH; [exact Hrest|]. intros k'. now apply Hkeep.
Qed.

(** *** The loop of [mergePathSliceMaps] *)

(** Key by key: a key of the second map gets the merged slice, every
    other key keeps what it had. *)
Lemma mergePathSliceMaps_range_lookup (map2 map1 : gmap string (list string)) k :
  transformer.mergePathSliceMaps_range map2 map1 !! k
  = match map2 !! k with
    | Some v => Some (common.MergeSlices (default [] (map1 !! k)) v)
    | None => map1 !! k
    end.
Proof.
  unfold transformer.mergePathSliceMaps_range. revert k.
  apply (map_fold_weak_ind
           (fun r (m : gmap string (list string)) =>
              forall k, r !! k = match m !! k with
                                 | Some v => Some (common.MergeSlices (default [] (map1 !! k)) v)
                                 | None => map1 !! k
                                 end)).
  - intros k. now rewrite lookup_empty.
  - intros i x m r Hi IH k.
    destruct (decide (i = k)) as [->|Hne].
    + rewrite !lookup_insert_eq. specialize (IH k). rewrite Hi in IH. now rewrite IH.
    + rewrite !lookup_insert_ne by exact Hne. apply IH.
Qed.
End merge_facts.

Section merge_steps.
Context {host : ConfigHost}.
Implicit Types (h : transformer.Heap) (a b : Artifact.t) (l : addr).

(** *** What [mergeConfigs] and [mergePathSliceMaps] touch *)

Lemma mergeConfigs_pathMaps h (configs1 configs2 : option addr) :
  transformer.pathMaps (fst (fst (transformer.mergeConfigs h configs1 configs2)))
  = transformer.pathMaps h.
Proof.
  unfold transformer.mergeConfigs.
  destruct configs1 as [l1|], configs2 as [l2|]; try reflexivity.
  now destruct (transformer.mergeConfigs_range _ _ _).
Qed.

Lemma mergeConfigs_frame h (configs1 configs2 : option addr) l :
  configs1 <> Some l ->
  transformer.configMaps (fst (fst (transformer.mergeConfigs h configs1 configs2))) !! l
  = transformer.configMaps h !! l.
Proof.
  intros Hne. unfold transformer.mergeConfigs.
  destruct configs1 as [l1|], configs2 as [l2|]; try reflexivity.
  destruct (transformer.mergeConfigs_range _ _ _). simpl.
  apply lookup_insert_ne. congruence.
Qed.

Lemma mergeConfigs_nil h (configs1 configs2 : option addr) :
  configs1 = None \/ configs2 = None ->
  transformer.mergeConfigs h configs1 configs2
  = (h, match configs1 with None => configs2 | Some _ => configs1 end, true).
Proof.
  unfold transformer.mergeConfigs.
  intros [->| ->]; [reflexivity|]. now destruct configs1.
Qed.

Lemma mergeConfigs_refused h (configs1 configs2 : option addr) :
  snd (transformer.mergeConfigs h configs1 configs2) = false ->
  exists cn ct v1 v2 c1 c2,
    ConfigTypes cn = Some ct /\
    GetObjFromInterface ct (Some v1) = Some c1 /\
    GetObjFromInterface ct v2 = Some c2 /\
    snd (Config_Merge c1 c2) = false.
Proof.
  unfold transformer.mergeConfigs.
  destruct configs1 as [l1|], configs2 as [l2|]; try discriminate.
  destruct (transformer.mergeConfigs_range _ _ _) as [m1 merged] eqn:Hr. simpl.
  intros ->.
  assert (Hs : snd (transformer.mergeConfigs_range (transformer.readConfigs h l2)
                      (transformer.readConfigs h l2) (transformer.readConfigs h l1)) = false)
    by now rewrite Hr.
  apply mergeConfigs_range_refused in Hs as (cn & ct & v1 & c1 & c2 & Hct & H1 & H2 & Hm).
  now exists cn, ct, v1, (transformer.cfg_get (transformer.readConfigs h l2) cn), c1, c2.
Qed.

Lemma mergeConfigs_ref h (configs1 configs2 : option addr) :
  snd (fst (transformer.mergeConfigs h configs1 configs2))
  = match configs1 with None => configs2 | Some _ => configs1 end.
Proof.
  unfold transformer.mergeConfigs.
  destruct configs1 as [l1|], configs2 as [l2|]; try reflexivity.
  now destruct (transformer.mergeConfigs_range _ _ _).
Qed.

Lemma artifactKey_eq a b :
  artifactKey a = artifactKey b
  <-> Artifact.Type_ a = Artifact.Type_ b /\ Artifact.Name a = Artifact.Name b.
Proof. unfold artifactKey. split; [intros H0; now inversion H0 | intros [-> ->]; reflexivity]. Qed.

End merge_steps.

Section merge_frame.
Context {host : ConfigHost}.
Implicit Types (h : transformer.Heap) (a b : Artifact.t) (l : addr).

Lemma mergePathSliceMaps_configMaps h (map1 map2 : option addr) :
  transformer.configMaps (fst (transformer.mergePathSliceMaps h map1 map2))
  = transformer.configMaps h.
Proof. unfold transformer.mergePathSliceMaps. now destruct map1, map2. Qed.

Lemma mergePathSliceMaps_frame h (map1 map2 : option addr) l :
  map1 <> Some l ->
  transformer.pathMaps (fst (transformer.mergePathSliceMaps h map1 map2)) !! l
  = transformer.pathMaps h !! l.
Proof.
  intros Hne. unfold transformer.mergePathSliceMaps.
  destruct map1 as [l1|], map2 as [l2|]; try reflexivity.
  simpl. apply lookup_insert_ne. congruence.
Qed.

Lemma mergePathSliceMaps_nil h (map1 map2 : option addr) :
  map1 = None \/ map2 = None ->
  transformer.mergePathSliceMaps h map1 map2
  = (h, match map1 with None => map2 | Some _ => map1 end).
Proof.
  unfold transformer.mergePathSliceMaps.
  intros [->| ->]; [reflexivity|]. now destruct map1.
Qed.

(** The store after [mergeArtifact], in terms of the two steps. *)
Lemma mergeArtifact_heap h a b :
  fst (fst (transformer.mergeArtifact h a b))
  = if decide (Artifact.Type_ a = Artifact.Type_ b /\ Artifact.Name a = Artifact.Name b) then
      let r := transformer.mergeConfigs h (Artifact.Configs a) (Artifact.Configs b) in
      if snd r
      then fst (transformer.mergePathSliceMaps (fst (fst r)) (Artifact.Paths a) (Artifact.Paths b))
      else fst (fst r)
    else h.
Proof.
  unfold transformer.mergeArtifact.
  destruct (decide _); [|reflexivity].
  destruct (transformer.mergeConfigs _ _ _) as [[h1 mc] merged]. simpl.
  destruct merged; simpl; [|reflexivity].
  now destruct (transformer.mergePathSliceMaps _ _ _).
Qed.

(** What [mergeArtifact] leaves alone in the store, and what it writes to
    the paths map of its first argument. *)
Lemma mergeArtifact_store h a b :
  let h' := fst (fst (transformer.mergeArtifact h a b)) in
  (forall l, Artifact.Paths a <> Some l ->
             transformer.pathMaps h' !! l = transformer.pathMaps h !! l) /\
  (forall l, Artifact.Configs a <> Some l ->
             transformer.configMaps h' !! l = transformer.configMaps h !! l) /\
  (Artifact.Paths a = None \/ Artifact.Paths b = None ->
   transformer.pathMaps h' = transformer.pathMaps h) /\
  (Artifact.Configs a = None \/ Artifact.Configs b = None ->
   transformer.configMaps h' = transformer.configMaps h) /\
  (forall la lb k,
      Artifact.Paths a = Some la -> Artifact.Paths b = Some lb ->
      snd (transformer.mergeArtifact h a b) = true ->
      transformer.readPaths h' la !! k
      = match transformer.readPaths h lb !! k with
        | Some v => Some (common.MergeSlices (default [] (transformer.readPaths h la !! k)) v)
        | None => transformer.readPaths h la !! k
        end).
Proof.
  cbv zeta. rewrite mergeArtifact_heap.
  pose proof (mergeConfigs_pathMaps h (Artifact.Configs a) (Artifact.Configs b)) as Hcp.
  destruct (decide _) as [Hk|Hk].
  2:{ repeat split; try reflexivity.
      intros la lb k _ _ Hm. unfold transformer.mergeArtifact in Hm.
      destruct (decide _); [contradiction | discriminate]. }
  cbv zeta.
  destruct (snd (transformer.mergeConfigs h (Artifact.Configs a) (Artifact.Configs b))) eqn:Hm.
  - repeat split.
    + intros l Hl. rewrite mergePathSliceMaps_frame by exact Hl. now rewrite Hcp.
    + intros l Hl. rewrite mergePathSliceMaps_configMaps. now apply mergeConfigs_frame.
    + intros Hnil. rewrite mergePathSliceMaps_nil by exact Hnil. exact Hcp.
    + intros Hnil. rewrite mergePathSliceMaps_configMaps, mergeConfigs_nil by exact Hnil.
      reflexivity.
    + intros la lb k Ha Hb _. rewrite Ha, Hb. unfold transformer.mergePathSliceMaps.
      unfold transformer.readPaths at 1. simpl. rewrite lookup_insert_eq. simpl.
      rewrite mergePathSliceMaps_range_lookup.
      unfold transformer.readPaths. now rewrite Hcp.
  - repeat split.
    + intros l _. now rewrite Hcp.
    + intros l Hl. now apply mergeConfigs_frame.
    + intros _. exact Hcp.
    + intros Hnil. now rewrite mergeConfigs_nil by exact Hnil.
    + intros la lb k _ _ Hmerged. unfold transformer.mergeArtifact in Hmerged.
      destruct (decide _); [|discriminate].
      destruct (transformer.mergeConfigs _ _ _) as [[h1 mc] merged].
      simpl in Hm. subst merged. discriminate.
Qed.
End merge_frame.

Section merge_list.
Context {host : ConfigHost}.
Implicit Types (h : transformer.Heap) (a b : Artifact.t).

(** A successful merge keeps the identity of its first argument, which is
    also that of the second. *)
Lemma mergeArtifact_success_key h a b :
  snd (transformer.mergeArtifact h a b) = true ->
  artifactKey a = artifactKey b /\
  artifactKey (snd (fst (transformer.mergeArtifact h a b))) = artifactKey a.
Proof.
  unfold transformer.mergeArtifact.
  destruct (decide _) as [Hk|Hk]; [|discriminate].
  destruct (transformer.mergeConfigs _ _ _) as [[h1 mc] merged].
  destruct merged; simpl; [|discriminate].
  destruct (transformer.mergePathSliceMaps _ _ _). simpl.
  intros _. split; [now apply artifactKey_eq | reflexivity].
Qed.

(** When no schema refuses, equal type and name are enough to merge. *)
Lemma mergeArtifact_accepts h a b :
  neverRefuses -> artifactKey a = artifactKey b ->
  snd (transformer.mergeArtifact h a b) = true.
Proof.
  intros Hnever Hkey. apply artifactKey_eq in Hkey.
  unfold transformer.mergeArtifact.
  destruct (decide _) as [Hk|Hk]; [|contradiction].
  destruct (transformer.mergeConfigs h (Artifact.Configs a) (Artifact.Configs b))
    as [[h1 mc] merged] eqn:Hc.
  assert (Hm : merged = true).
  { destruct merged; [reflexivity|].
    destruct (mergeConfigs_refused h (Artifact.Configs a) (Artifact.Configs b))
      as (cn & ct & v1 & v2 & c1 & c2 & Hct & H1 & H2 & Hr); [now rewrite Hc|].
    rewrite (Hnever cn ct _ _ c1 c2 Hct H1 H2) in Hr. discriminate. }
  subst merged. simpl. now destruct (transformer.mergePathSliceMaps _ _ _).
Qed.

Lemma mergeArtifact_differs h a b :
  artifactKey a <> artifactKey b -> snd (transformer.mergeArtifact h a b) = false.
Proof.
  intros Hkey. unfold transformer.mergeArtifact.
  destruct (decide _) as [Hk|Hk]; [|reflexivity].
  exfalso. apply Hkey. now apply artifactKey_eq.
Qed.

(** The inner loop, when no schema refuses: an artifact whose identity is
    in the list is merged into it and the identities stay; otherwise
    nothing is added. *)
Lemma mergeArtifacts_inner_keys h oldArtifact newArtifacts :
  neverRefuses ->
  match snd (transformer.mergeArtifacts_inner h oldArtifact newArtifacts) with
  | Some newArtifacts' =>
      artifactKey oldArtifact ∈ map artifactKey newArtifacts /\
      map artifactKey newArtifacts' = map artifactKey newArtifacts
  | None => artifactKey oldArtifact ∉ map artifactKey newArtifacts
  end.
Proof.
  intros Hnever. revert h.
  induction newArtifacts as [|newArtifact rest IH]; intros h; simpl.
  - apply not_elem_of_nil.
  - destruct (transformer.mergeArtifact h oldArtifact newArtifact)
      as [[h1 mergedArtifact] merged] eqn:Hmerge.
    destruct merged; simpl.
    + destruct (mergeArtifact_success_key h oldArtifact newArtifact) as [Hk Hk'];
        [now rewrite Hmerge|].
      rewrite Hmerge in Hk'. simpl in Hk'.
      split; [rewrite Hk; left | now rewrite Hk', Hk].
    + assert (Hne : artifactKey oldArtifact <> artifactKey newArtifact).
      { intros Hkey.
        pose proof (mergeArtifact_accepts h oldArtifact newArtifact Hnever Hkey) as Hacc.
        rewrite Hmerge in Hacc. discriminate. }
      specialize (IH h1).
      destruct (transformer.mergeArtifacts_inner h1 oldArtifact rest) as [h2 r]. simpl in *.
      destruct r as [rest'|]; simpl.
      * destruct IH as [Hin Hkeys]. split; [now right | now rewrite Hkeys].
      * intros Hin. apply elem_of_cons in Hin as [Hin|Hin]; [contradiction | now apply IH].
Qed.

Lemma mergeArtifacts_outer_NoDup h oldArtifacts newArtifacts :
  neverRefuses ->
  NoDup (map artifactKey newArtifacts) ->
  NoDup (map artifactKey (snd (transformer.mergeArtifacts_outer h oldArtifacts newArtifacts))).
Proof.
  intros Hnever. revert h newArtifacts.
  induction oldArtifacts as [|oldArtifact rest IH]; intros h newArtifacts Hnd; simpl.
  - exact Hnd.
  - pose proof (mergeArtifacts_inner_keys h oldArtifact newArtifacts Hnever) as Hinner.
    destruct (transformer.mergeArtifacts_inner h oldArtifact newArtifacts) as [h1 r].
    simpl in Hinner. destruct r as [newArtifacts'|].
    + apply IH. destruct Hinner as [_ Hkeys]. now rewrite Hkeys.
    + apply IH. rewrite map_app. simpl. apply NoDup_app.
      split; [exact Hnd|]. split; [|apply NoDup_singleton].
      intros k Hk Hk'. apply list_elem_of_singleton in Hk'. subst k. contradiction.
Qed.

End merge_list.

Section merge_algebra.
Context {host : ConfigHost}.
Implicit Types (h : transformer.Heap) (a b : Artifact.t) (l : addr).

(** A successful merge, taken apart. *)
Lemma mergeArtifact_success h a b hab cab :
  transformer.mergeArtifact h a b = (hab, cab, true) ->
  exists h1 mergedConfig paths,
    transformer.mergeConfigs h (Artifact.Configs a) (Artifact.Configs b)
    = (h1, mergedConfig, true) /\
    transformer.mergePathSliceMaps h1 (Artifact.Paths a) (Artifact.Paths b) = (hab, paths) /\
    cab = Artifact.mk (Artifact.Name a) (Artifact.Type_ a) paths mergedConfig.
Proof.
  unfold transformer.mergeArtifact.
  destruct (decide _) as [Hk|Hk]; [|discriminate].
  destruct (transformer.mergeConfigs _ _ _) as [[h1 mc] merged].
  destruct merged; simpl; [|discriminate].
  destruct (transformer.mergePathSliceMaps _ _ _) as [h2 paths] eqn:Hp.
  intros Heq. inversion Heq; subst. now exists h1, mc, paths.
Qed.

Lemma pathList_pathMaps h h' a k :
  transformer.pathMaps h' = transformer.pathMaps h -> pathList h' a k = pathList h a k.
Proof. intros Heq. unfold pathList, transformer.readPaths. now rewrite Heq. Qed.

(** The paths of a merged artifact, kind by kind: the slice of [a],
    followed by what [b] adds to it when both have a paths map. *)
Lemma mergeArtifact_pathList h a b hab cab k :
  transformer.mergeArtifact h a b = (hab, cab, true) ->
  pathList hab cab k
  = match Artifact.Paths a, Artifact.Paths b with
    | None, _ => pathList h b k
    | Some _, None => pathList h a k
    | Some _, Some lb =>
        match transformer.readPaths h lb !! k with
        | Some v => common.MergeSlices (pathList h a k) v
        | None => pathList h a k
        end
    end.
Proof.
  intros Hm. apply mergeArtifact_success in Hm as (h1 & mc & paths & Hc & Hp & ->).
  assert (Hpm : transformer.pathMaps h1 = transformer.pathMaps h).
  { pose proof (mergeConfigs_pathMaps h (Artifact.Configs a) (Artifact.Configs b)) as H0.
    now rewrite Hc in H0. }
  unfold transformer.mergePathSliceMaps in Hp.
  destruct (Artifact.Paths a) as [la|] eqn:Ha, (Artifact.Paths b) as [lb|] eqn:Hb;
    inversion Hp; subst; clear Hp.
  - unfold pathList at 1. simpl. unfold transformer.readPaths at 1. simpl.
    rewrite lookup_insert_eq. simpl. rewrite mergePathSliceMaps_range_lookup.
    unfold pathList. rewrite Ha. unfold transformer.readPaths. rewrite Hpm.
    now destruct (default ∅ (transformer.pathMaps h !! lb) !! k).
  - unfold pathList. simpl. rewrite Ha. unfold transformer.readPaths. now rewrite Hpm.
  - unfold pathList. simpl. rewrite Hb. unfold transformer.readPaths. now rewrite Hpm.
  - unfold pathList. simpl. now rewrite Hb.
Qed.

(** As sets, the merged paths are the union of the two inputs' paths. *)
Lemma mergeArtifact_pathList_elem h a b hab cab k x :
  transformer.mergeArtifact h a b = (hab, cab, true) ->
  x ∈ pathList hab cab k <-> x ∈ pathList h a k \/ x ∈ pathList h b k.
Proof.
  intros Hm. rewrite (mergeArtifact_pathList h a b hab cab k Hm).
  unfold pathList.
  destruct (Artifact.Paths a) as [la|], (Artifact.Paths b) as [lb|];
    rewrite ?elem_of_nil; try tauto.
  destruct (transformer.readPaths h lb !! k) as [v|]; simpl.
  - apply elem_of_MergeSlices.
  - rewrite elem_of_nil. tauto.
Qed.

Lemma mergeArtifact_pathList_NoDup h a b hab cab k :
  transformer.mergeArtifact h a b = (hab, cab, true) ->
  NoDup (pathList h a k) -> NoDup (pathList h b k) -> NoDup (pathList hab cab k).
Proof.
  intros Hm Ha Hb. rewrite (mergeArtifact_pathList h a b hab cab k Hm).
  destruct (Artifact.Paths a) as [la|], (Artifact.Paths b) as [lb|]; try assumption.
  destruct (transformer.readPaths h lb !! k) as [v|]; [|exact Ha].
  now apply NoDup_MergeSlices.
Qed.

(** With a nil config map on one side, the merged artifact holds the
    configs of the other side, untouched. *)
Lemma mergeArtifact_configAt_nil h a b hab cab k :
  transformer.mergeArtifact h a b = (hab, cab, true) ->
  Artifact.Configs a = None \/ Artifact.Configs b = None ->
  configAt hab cab k
  = match Artifact.Configs a with None => configAt h b k | Some _ => configAt h a k end.
Proof.
  intros Hm Hnil. apply mergeArtifact_success in Hm as (h1 & mc & paths & Hc & Hp & ->).
  rewrite mergeConfigs_nil in Hc by exact Hnil. inversion Hc; subst; clear Hc.
  pose proof (mergePathSliceMaps_configMaps h1 (Artifact.Paths a) (Artifact.Paths b)) as Hcm.
  rewrite Hp in Hcm. simpl in Hcm.
  unfold configAt, transformer.readConfigs. simpl. rewrite Hcm.
  destruct Hnil as [Ha|Hb].
  - now rewrite Ha.
  - rewrite Hb. now destruct (Artifact.Configs a).
Qed.

End merge_algebra.

(** A result whose flag is set, written as the triple it is. *)
Lemma merged_triple {A B} (r : A * B * bool) :
  snd r = true -> r = (fst (fst r), snd (fst r), true).
Proof. destruct r as [[x y] m]. simpl. now intros ->. Qed.

Section merge_keys.
Context {host : ConfigHost}.
Implicit Types (h : transformer.Heap) (a b oldArtifact : Artifact.t).
Implicit Types (oldArtifacts newArtifacts alreadySeenArtifacts : list Artifact.t).

Lemma mergeArtifact_differs_eq h a b :
  artifactKey a <> artifactKey b ->
  transformer.mergeArtifact h a b = (h, Artifact.zero, false).
Proof.
  intros Hne. unfold transformer.mergeArtifact.
  destruct (decide _) as [Heq|_]; [|reflexivity].
  exfalso. apply Hne. now apply artifactKey_eq.
Qed.

(** The inner loop of [mergeArtifacts] keeps the keys of the list where
    they are. *)
Lemma mergeArtifacts_inner_same_keys h oldArtifact newArtifacts merged :
  snd (transformer.mergeArtifacts_inner h oldArtifact newArtifacts) = Some merged ->
  map artifactKey merged = map artifactKey newArtifacts /\
  artifactKey oldArtifact ∈ map artifactKey newArtifacts.
Proof.
  revert h merged. induction newArtifacts as [|b rest IH]; intros h merged; [discriminate|].
  cbn [transformer.mergeArtifacts_inner].
  pose proof (mergeArtifact_success_key h oldArtifact b) as Hkey.
  destruct (transformer.mergeArtifact h oldArtifact b) as [[h1 c] ok].
  destruct ok; simpl in Hkey.
  - destruct (Hkey eq_refl) as [Hab Hc]. intros [= <-]. simpl.
    split; [now rewrite Hc, Hab | rewrite Hab; left].
  - specialize (IH h1).
    destruct (transformer.mergeArtifacts_inner h1 oldArtifact rest) as [h2 [r|]]; [|discriminate].
    intros [= <-]. destruct (IH r eq_refl) as [Hr Hin]. simpl.
    split; [now rewrite Hr | now right].
Qed.

Lemma mergeArtifacts_inner_fresh h oldArtifact newArtifacts :
  (artifactKey oldArtifact ∉ map artifactKey newArtifacts) ->
  transformer.mergeArtifacts_inner h oldArtifact newArtifacts = (h, None).
Proof.
  induction newArtifacts as [|b rest IH]; intros Hnot; [reflexivity|].
  cbn [transformer.mergeArtifacts_inner].
  rewrite mergeArtifact_differs_eq.
  - rewrite IH; [reflexivity|]. intros Hin. apply Hnot. now right.
  - intros Heq. apply Hnot. rewrite Heq. left.
Qed.

Lemma mergeArtifacts_outer_keys h oldArtifacts newArtifacts :
  let r := snd (transformer.mergeArtifacts_outer h oldArtifacts newArtifacts) in
  (forall k, k ∈ map artifactKey r
             <-> k ∈ map artifactKey newArtifacts \/ k ∈ map artifactKey oldArtifacts) /\
  length r <= length newArtifacts + length oldArtifacts.
Proof.
  cbv zeta. revert h newArtifacts.
  induction oldArtifacts as [|a rest IH]; intros h newArtifacts.
  - simpl. split; [|lia]. intros k. split; [now left|]. intros [Hk|Hk]; [exact Hk | inversion Hk].
  - cbn [transformer.mergeArtifacts_outer].
    pose proof (mergeArtifacts_inner_same_keys h a newArtifacts) as Hinner.
    destruct (transformer.mergeArtifacts_inner h a newArtifacts) as [h1 [merged|]].
    + destruct (Hinner merged eq_refl) as [Hkeys Hin].
      destruct (IH h1 merged) as [Hset Hlen]. split.
      * intros k. rewrite Hset, Hkeys. simpl. rewrite elem_of_cons.
        split; [tauto|]. intros [Hk|[->|Hk]]; tauto.
      * apply (f_equal length) in Hkeys. rewrite !length_map in Hkeys. simpl. lia.
    + destruct (IH h1 (newArtifacts ++ [a])) as [Hset Hlen]. split.
      * intros k. rewrite Hset, map_app, elem_of_app. simpl.
        rewrite list_elem_of_singleton, elem_of_cons. tauto.
      * rewrite length_app in Hlen. simpl in *. lia.
Qed.

Lemma mergeArtifacts_outer_distinct h oldArtifacts newArtifacts :
  NoDup (map artifactKey (newArtifacts ++ oldArtifacts)) ->
  transformer.mergeArtifacts_outer h oldArtifacts newArtifacts
  = (h, newArtifacts ++ oldArtifacts).
Proof.
  revert newArtifacts. induction oldArtifacts as [|a rest IH]; intros newArtifacts Hnd.
  - simpl. now rewrite app_nil_r.
  - cbn [transformer.mergeArtifacts_outer].
    rewrite map_app in Hnd. apply NoDup_app in Hnd as Hparts.
    destruct Hparts as (_ & Hdis & _).
    rewrite mergeArtifacts_inner_fresh.
    + rewrite IH; rewrite <- app_assoc; simpl; [reflexivity|].
      now rewrite map_app.
    + intros Hin. apply (Hdis _ Hin). simpl. left.
Qed.

Lemma mergeArtifacts_outer_first_occurrences h oldArtifacts newArtifacts :
  neverRefuses ->
  map artifactKey (snd (transformer.mergeArtifacts_outer h oldArtifacts newArtifacts))
  = common.AppendIfNotPresent (map artifactKey newArtifacts) (map artifactKey oldArtifacts).
Proof.
  intros Hnever. revert h newArtifacts.
  induction oldArtifacts as [|a rest IH]; intros h newArtifacts; [reflexivity|].
  cbn [transformer.mergeArtifacts_outer map]. rewrite AppendIfNotPresent_cons.
  pose proof (mergeArtifacts_inner_keys h a newArtifacts Hnever) as Hinner.
  destruct (transformer.mergeArtifacts_inner h a newArtifacts) as [h1 [merged|]];
    simpl in Hinner.
  - destruct Hinner as [Hin Hkeys].
    rewrite (proj2 (IsPresent_true _ _) Hin). now rewrite IH, Hkeys.
  - rewrite (proj2 (IsPresent_false _ _) Hinner).
    rewrite IH, map_app. reflexivity.
Qed.

(** X15. [mergeArtifacts] neither loses nor invents a type and name: the
    result holds the keys of the input, and never more artifacts than
    the input.  A list whose artifacts differ pairwise in type or name
    comes back as it is and no map is written.  When no registered
    config type refuses a merge, the keys of the result are the keys of
    the input in the order of their first occurrences. *)
Theorem mergeArtifacts_keys h oldArtifacts :
  let r := snd (transformer.mergeArtifacts h oldArtifacts) in
  (forall k, k ∈ map artifactKey r <-> k ∈ map artifactKey oldArtifacts) /\
  length r <= length oldArtifacts /\
  (NoDup (map artifactKey oldArtifacts) ->
   transformer.mergeArtifacts h oldArtifacts = (h, oldArtifacts)) /\
  (neverRefuses ->
   map artifactKey r = common.MergeSlices [] (map artifactKey oldArtifacts)).
Proof.
  cbv zeta. unfold transformer.mergeArtifacts.
  destruct (mergeArtifacts_outer_keys h oldArtifacts []) as [Hset Hlen].
  split; [|split; [exact Hlen|split]].
  - intros k. rewrite Hset. simpl. split; [|now right].
    intros [Hk|Hk]; [inversion Hk | exact Hk].
  - intros Hnd. now apply (mergeArtifacts_outer_distinct h oldArtifacts []).
  - intros Hnever. now apply (mergeArtifacts_outer_first_occurrences h oldArtifacts []).
Qed.

Lemma updatedArtifacts_inner_key h a alreadySeenArtifacts :
  artifactKey (snd (transformer.updatedArtifacts_inner h a alreadySeenArtifacts))
  = artifactKey a.
Proof.
  revert h. induction alreadySeenArtifacts as [|b rest IH]; intros h; [reflexivity|].
  cbn [transformer.updatedArtifacts_inner].
  pose proof (mergeArtifact_success_key h a b) as Hkey.
  destruct (transformer.mergeArtifact h a b) as [[h1 c] ok].
  destruct ok; simpl in Hkey; [|apply IH].
  simpl. now apply Hkey.
Qed.

Lemma updatedArtifacts_outer_keys h alreadySeenArtifacts newArtifacts :
  map artifactKey (snd (transformer.updatedArtifacts_outer h alreadySeenArtifacts newArtifacts))
  = map artifactKey newArtifacts.
Proof.
  revert h. induction newArtifacts as [|a rest IH]; intros h; [reflexivity|].
  cbn [transformer.updatedArtifacts_outer].
  pose proof (updatedArtifacts_inner_key h a alreadySeenArtifacts) as Hkey.
  destruct (transformer.updatedArtifacts_inner h a alreadySeenArtifacts) as [h1 a'].
  specialize (IH h1).
  destruct (transformer.updatedArtifacts_outer h1 alreadySeenArtifacts rest) as [h2 rest'].
  simpl in *. now rewrite Hkey, IH.
Qed.

Lemma updatedArtifacts_outer_nil h newArtifacts :
  transformer.updatedArtifacts_outer h [] newArtifacts = (h, newArtifacts).
Proof.
  induction newArtifacts as [|a rest IH]; [reflexivity|].
  cbn [transformer.updatedArtifacts_outer transformer.updatedArtifacts_inner].
  now rewrite IH.
Qed.

(** X16. The artifacts that [updatedArtifacts] returns bear the types
    and names of the new artifacts and no other: an artifact seen
    already contributes to the result only through a new artifact of
    its type and name.  The result is never longer than the list of new
    artifacts; with nothing seen already it is what [mergeArtifacts]
    makes of the new artifacts; and when no registered config type
    refuses a merge it holds one artifact for each type and name. *)
Theorem updatedArtifacts_keys h alreadySeenArtifacts newArtifacts :
  let r := snd (transformer.updatedArtifacts h alreadySeenArtifacts newArtifacts) in
  (forall k, k ∈ map artifactKey r <-> k ∈ map artifactKey newArtifacts) /\
  length r <= length newArtifacts /\
  transformer.updatedArtifacts h [] newArtifacts = transformer.mergeArtifacts h newArtifacts /\
  (neverRefuses ->
   map artifactKey r = common.MergeSlices [] (map artifactKey newArtifacts) /\
   NoDup (map artifactKey r)).
Proof.
  cbv zeta. unfold transformer.updatedArtifacts.
  split; [|split; [|split]].
  - pose proof (updatedArtifacts_outer_keys h alreadySeenArtifacts newArtifacts) as Hkeys.
    destruct (transformer.updatedArtifacts_outer h alreadySeenArtifacts newArtifacts)
      as [h1 updated]. simpl in Hkeys. unfold transformer.mergeArtifacts.
    destruct (mergeArtifacts_outer_keys h1 updated []) as [Hset _].
    intros k. rewrite Hset, Hkeys. simpl. split; [|now right].
    intros [Hk|Hk]; [inversion Hk | exact Hk].
  - pose proof (updatedArtifacts_outer_keys h alreadySeenArtifacts newArtifacts) as Hkeys.
    destruct (transformer.updatedArtifacts_outer h alreadySeenArtifacts newArtifacts)
      as [h1 updated]. simpl in Hkeys. unfold transformer.mergeArtifacts.
    destruct (mergeArtifacts_outer_keys h1 updated []) as [_ Hlen].
    apply (f_equal length) in Hkeys. rewrite !length_map in Hkeys. simpl in Hlen. lia.
  - now rewrite updatedArtifacts_outer_nil.
  - intros Hnever.
    pose proof (updatedArtifacts_outer_keys h alreadySeenArtifacts newArtifacts) as Hkeys.
    destruct (transformer.updatedArtifacts_outer h alreadySeenArtifacts newArtifacts)
      as [h1 updated]. simpl in Hkeys. unfold transformer.mergeArtifacts.
    rewrite (mergeArtifacts_outer_first_occurrences h1 updated [] Hnever), Hkeys.
    split; [reflexivity|]. apply NoDup_MergeSlices, NoDup_nil_2.
Qed.
End merge_keys.

Section config_kinds.
Context {host : ConfigHost}.
Implicit Types (m todo : transformer.ConfigMap) (k : string).

Lemma cfg_set_keys m k v k' :
  k' ∈ map fst (transformer.cfg_set m k v) <-> k' = k \/ k' ∈ map fst m.
Proof.
  induction m as [|[k0 v0] m IH]; simpl.
  - rewrite list_elem_of_singleton. split; [now left|]. intros [Hk|Hk]; [exact Hk | inversion Hk].
  - destruct (decide (k0 = k)) as [->|Hne]; simpl; rewrite !elem_of_cons.
    + tauto.
    + rewrite IH. tauto.
Qed.

Lemma mergeConfigs_range_kinds (configs2 : transformer.ConfigMap) todo
      (configs1 : transformer.ConfigMap) :
  let r := fst (transformer.mergeConfigs_range configs2 todo configs1) in
  (forall k, k ∉ map fst todo -> transformer.cfg_get r k = transformer.cfg_get configs1 k) /\
  (forall k, k ∈ map fst configs1 -> k ∈ map fst r) /\
  (forall k, k ∈ map fst r -> k ∈ map fst configs1 \/ k ∈ map fst todo).
Proof.
  cbv zeta. revert configs1. induction todo as [|[cn2 cg2] rest IH]; intros configs1.
  - simpl. repeat split; auto.
  - cbn [transformer.mergeConfigs_range].
    assert (Hstep : forall v,
               let r := fst (transformer.mergeConfigs_range configs2 rest
                               (transformer.cfg_set configs1 cn2 v)) in
               (forall k, k ∉ map fst ((cn2, cg2) :: rest) ->
                          transformer.cfg_get r k = transformer.cfg_get configs1 k) /\
               (forall k, k ∈ map fst configs1 -> k ∈ map fst r) /\
               (forall k, k ∈ map fst r ->
                          k ∈ map fst configs1 \/ k ∈ map fst ((cn2, cg2) :: rest))).
    { intros v. cbv zeta.
      destruct (IH (transformer.cfg_set configs1 cn2 v)) as (Hget & Hkeep & Hnew).
      split; [|split].
      - intros k Hk. simpl in Hk. rewrite Hget.
        + apply cfg_get_set_ne. intros ->. apply Hk. left.
        + intros Hin. apply Hk. now right.
      - intros k Hk. apply Hkeep. apply cfg_set_keys. now right.
      - intros k Hk. apply Hnew in Hk as [Hk|Hk].
        + apply cfg_set_keys in Hk as [->|Hk]; [right; left | now left].
        + right. simpl. now right. }
    assert (Hstop : (forall k, k ∉ map fst ((cn2, cg2) :: rest) ->
                               transformer.cfg_get configs1 k = transformer.cfg_get configs1 k) /\
                    (forall k, k ∈ map fst configs1 -> k ∈ map fst configs1) /\
                    (forall k, k ∈ map fst configs1 ->
                               k ∈ map fst configs1 \/ k ∈ map fst ((cn2, cg2) :: rest)))
      by (repeat split; auto).
    destruct (transformer.cfg_get configs1 cn2) as [v1|]; [|apply Hstep].
    destruct (ConfigTypes cn2) as [ct|]; [|apply Hstep].
    destruct (GetObjFromInterface ct (Some v1)) as [c1|]; [|exact Hstop].
    destruct (GetObjFromInterface ct (transformer.cfg_get configs2 cn2)) as [c2|];
      [|exact Hstop].
    destruct (Config_Merge c1 c2) as [c1' merged].
    destruct merged; [apply Hstep | exact Hstop].
Qed.

Lemma mergeConfigs_range_disjoint (configs2 : transformer.ConfigMap) todo
      (configs1 : transformer.ConfigMap) :
  NoDup (map fst todo) ->
  (forall k, k ∈ map fst todo -> transformer.cfg_get configs1 k = None) ->
  snd (transformer.mergeConfigs_range configs2 todo configs1) = true /\
  forall k, k ∈ map fst todo ->
            transformer.cfg_get (fst (transformer.mergeConfigs_range configs2 todo configs1)) k
            = transformer.cfg_get todo k.
Proof.
  revert configs1. induction todo as [|[cn2 cg2] rest IH]; intros configs1 Hnd Hnone.
  - split; [reflexivity|]. intros k Hk. inversion Hk.
  - cbn [transformer.mergeConfigs_range]. rewrite (Hnone cn2) by (simpl; left).
    simpl in Hnd. apply NoDup_cons in Hnd as [Hfresh Hnd].
    destruct (IH (transformer.cfg_set configs1 cn2 cg2) Hnd) as [Hok Hget].
    { intros k Hk. rewrite cfg_get_set_ne; [apply Hnone; simpl; now right|].
      intros ->. contradiction. }
    split; [exact Hok|]. intros k Hk. simpl in Hk. simpl.
    destruct (decide (cn2 = k)) as [->|Hne].
    + destruct (mergeConfigs_range_kinds configs2 rest (transformer.cfg_set configs1 k cg2))
        as (Hframe & _). rewrite Hframe by exact Hfresh. apply cfg_get_set_eq.
    + apply Hget. apply elem_of_cons in Hk as [->|Hk]; [contradiction | exact Hk].
Qed.

(** X17. [mergeConfigs] on two maps writes the first map only under
    kinds the second map has: a kind the second map lacks keeps its
    config, no kind of the first map goes away and no kind comes in
    that neither map had, whether the merge is accepted or refused.
    When the first map has no config under any kind of the second, the
    merge is accepted and every kind of the
    second map holds afterwards the config the second map has for it. *)
Theorem mergeConfigs_kinds h (l1 l2 : addr) :
  let r := transformer.mergeConfigs h (Some l1) (Some l2) in
  let before := transformer.readConfigs h l1 in
  let second := transformer.readConfigs h l2 in
  let after := transformer.readConfigs (fst (fst r)) l1 in
  (forall k, k ∉ map fst second -> transformer.cfg_get after k = transformer.cfg_get before k) /\
  (forall k, k ∈ map fst before -> k ∈ map fst after) /\
  (forall k, k ∈ map fst after -> k ∈ map fst before \/ k ∈ map fst second) /\
  (NoDup (map fst second) ->
   (forall k, k ∈ map fst second -> transformer.cfg_get before k = None) ->
   snd r = true /\
   forall k, k ∈ map fst second -> transformer.cfg_get after k = transformer.cfg_get second k).
Proof.
  cbv zeta. unfold transformer.mergeConfigs.
  pose proof (mergeConfigs_range_kinds (transformer.readConfigs h l2)
                (transformer.readConfigs h l2) (transformer.readConfigs h l1)) as Hkinds.
  pose proof (mergeConfigs_range_disjoint (transformer.readConfigs h l2)
                (transformer.readConfigs h l2) (transformer.readConfigs h l1)) as Hdis.
  destruct (transformer.mergeConfigs_range _ _ _) as [m1 merged]. simpl in Hkinds, Hdis.
  cbn [fst snd].
  assert (Hread : transformer.readConfigs
                    (transformer.writeConfigs h l1 m1) l1 = m1).
  { unfold transformer.readConfigs, transformer.writeConfigs. simpl.
    now rewrite lookup_insert_eq. }
  rewrite Hread. destruct Hkinds as (Hframe & Hkeep & Hnew).
  repeat split; try assumption; intros; now apply Hdis.
Qed.
End config_kinds.

(** *** When [mergeArtifact] merges *)

Section refusal_facts.
Context {host : ConfigHost}.
Implicit Types (h : transformer.Heap) (a b : Artifact.t) (l : addr).

(** A refusal of the loop of [mergeConfigs] comes from a kind of the
    second map, under which the first map holds a config when the loop
    gets there: both decode, and the schema refuses to merge them.  When
    the second map has each kind once, the first map held that config
    from the start. *)
Lemma mergeConfigs_range_refused_at (configs2 : transformer.ConfigMap) todo
      (configs1 : transformer.ConfigMap) :
  snd (transformer.mergeConfigs_range configs2 todo configs1) = false ->
  exists cn ct v1 c1 c2,
    cn ∈ map fst todo /\
    ConfigTypes cn = Some ct /\
    GetObjFromInterface ct (Some v1) = Some c1 /\
    GetObjFromInterface ct (transformer.cfg_get configs2 cn) = Some c2 /\
    snd (Config_Merge c1 c2) = false /\
    (NoDup (map fst todo) -> transformer.cfg_get configs1 cn = Some v1).
Proof.
  revert configs1. induction todo as [|[cn2 cg2] rest IH]; intros configs1; [discriminate|].
  cbn [transformer.mergeConfigs_range].
  assert (Hnext : forall v,
             snd (transformer.mergeConfigs_range configs2 rest
                    (transformer.cfg_set configs1 cn2 v)) = false ->
             exists cn ct v1 c1 c2,
               cn ∈ map fst ((cn2, cg2) :: rest) /\
               ConfigTypes cn = Some ct /\
               GetObjFromInterface ct (Some v1) = Some c1 /\
               GetObjFromInterface ct (transformer.cfg_get configs2 cn) = Some c2 /\
               snd (Config_Merge c1 c2) = false /\
               (NoDup (map fst ((cn2, cg2) :: rest)) ->
                transformer.cfg_get configs1 cn = Some v1)).
  { intros v Hr.
    destruct (IH _ Hr) as (cn & ct & v1 & c1 & c2 & Hin & Hct & H1 & H2 & Hm & Hheld).
    exists cn, ct, v1, c1, c2. split; [simpl; now right|].
    repeat (split; [assumption|]).
    intros Hnd. simpl in Hnd. apply NoDup_cons in Hnd as [Hfresh Hnd].
    rewrite <- (Hheld Hnd). symmetry. apply cfg_get_set_ne.
    intros ->. contradiction. }
  destruct (transformer.cfg_get configs1 cn2) as [v1|] eqn:Hv1; [|apply Hnext].
  destruct (ConfigTypes cn2) as [ct|] eqn:Hct; [|apply Hnext].
  destruct (GetObjFromInterface ct (Some v1)) as [c1|] eqn:H1; [|discriminate].
  destruct (GetObjFromInterface ct (transformer.cfg_get configs2 cn2)) as [c2|] eqn:H2;
    [|discriminate].
  destruct (Config_Merge c1 c2) as [c1' merged] eqn:Hm.
  destruct merged; [apply Hnext|].
  intros _. exists cn2, ct, v1, c1, c2. split; [simpl; left|].
  repeat (split; [assumption|]). split; [now rewrite Hm|]. intros _. exact Hv1.
Qed.

(** Why two artifacts of one type and name do not merge: both have a
    config map, and under a kind of the map of [b] a registered schema
    decodes a config of [a] and the config of [b] and refuses to merge
    them. *)
Lemma mergeArtifact_refused_by_schema h a b :
  artifactKey a = artifactKey b ->
  snd (transformer.mergeArtifact h a b) = false ->
  exists la lb cn ct v1 c1 c2,
    Artifact.Configs a = Some la /\ Artifact.Configs b = Some lb /\
    cn ∈ configKinds h b /\
    ConfigTypes cn = Some ct /\
    GetObjFromInterface ct (Some v1) = Some c1 /\
    GetObjFromInterface ct (configAt h b cn) = Some c2 /\
    snd (Config_Merge c1 c2) = false /\
    (wellKeyed h b -> configAt h a cn = Some v1).
Proof.
  intros Hkey. apply artifactKey_eq in Hkey.
  unfold transformer.mergeArtifact.
  destruct (decide _) as [_|Hk]; [|contradiction].
  unfold transformer.mergeConfigs, wellKeyed, configKinds, configAt.
  destruct (Artifact.Configs a) as [la|], (Artifact.Configs b) as [lb|];
    try (destruct (transformer.mergePathSliceMaps _ _ _); discriminate).
  pose proof (mergeConfigs_range_refused_at (transformer.readConfigs h lb)
                (transformer.readConfigs h lb) (transformer.readConfigs h la)) as Hat.
  destruct (transformer.mergeConfigs_range _ _ _) as [m1 merged].
  destruct merged; cbn [negb]; [destruct (transformer.mergePathSliceMaps _ _ _); discriminate|].
  intros _. destruct (Hat eq_refl) as (cn & ct & v1 & c1 & c2 & Hin & Hct & H1 & H2 & Hm & Hheld).
  now exists la, lb, cn, ct, v1, c1, c2.
Qed.

(** C3 (amended). [mergeArtifact a b] reports a merge exactly when type
    and name agree and [mergeConfigs] accepts the two config maps; the
    merged artifact then carries the type and the name of [a]; a failed
    merge returns the zero artifact; and with equal type and name the
    merge fails only because both artifacts have a config map and, under
    a kind of the map of [b], a registered schema decoded a config of
    [a] and the config of [b] and its [Merge] refused them: the config
    [a] held under that kind from the start, when the map of [b] has
    each kind once. *)
Theorem mergeArtifact_merged_iff h a b :
  let r := transformer.mergeArtifact h a b in
  (snd r = true <->
     artifactKey a = artifactKey b /\
     snd (transformer.mergeConfigs h (Artifact.Configs a) (Artifact.Configs b)) = true) /\
  (snd r = true ->
     Artifact.Name (snd (fst r)) = Artifact.Name a /\
     Artifact.Type_ (snd (fst r)) = Artifact.Type_ a) /\
  (snd r = false -> snd (fst r) = Artifact.zero) /\
  (artifactKey a = artifactKey b -> snd r = false ->
     exists la lb cn ct v1 c1 c2,
       Artifact.Configs a = Some la /\ Artifact.Configs b = Some lb /\
       cn ∈ configKinds h b /\
       ConfigTypes cn = Some ct /\
       GetObjFromInterface ct (Some v1) = Some c1 /\
       GetObjFromInterface ct (configAt h b cn) = Some c2 /\
       snd (Config_Merge c1 c2) = false /\
       (wellKeyed h b -> configAt h a cn = Some v1)).
Proof.
  cbv zeta. split; [|split; [|split]].
  - unfold transformer.mergeArtifact.
    destruct (decide (Artifact.Type_ a = Artifact.Type_ b /\ Artifact.Name a = Artifact.Name b))
      as [Hk|Hk].
    + destruct (transformer.mergeConfigs h (Artifact.Configs a) (Artifact.Configs b))
        as [[h1 mergedConfig] merged].
      destruct merged; simpl.
      * destruct (transformer.mergePathSliceMaps h1 (Artifact.Paths a) (Artifact.Paths b)).
        simpl. split; [intros _; split; [now apply artifactKey_eq | reflexivity] | reflexivity].
      * split; [discriminate | intros [_ ?]; discriminate].
    + simpl. split; [discriminate|]. intros [Hkey _]. apply artifactKey_eq in Hkey. contradiction.
  - intros Hm. pose proof (mergeArtifact_success_key h a b Hm) as [_ Hk].
    apply artifactKey_eq in Hk. tauto.
  - unfold transformer.mergeArtifact. destruct (decide _); [|reflexivity].
    destruct (transformer.mergeConfigs _ _ _) as [[h1 mc] merged].
    destruct merged; simpl; [|reflexivity].
    destruct (transformer.mergePathSliceMaps _ _ _). discriminate.
  - apply mergeArtifact_refused_by_schema.
Qed.
End refusal_facts.

(** C3, as stated, fails: two artifacts of the same type and name whose
    ["Service"] configs the schema refuses to merge are not merged. *)
Lemma mergeArtifact_same_key_refused :
  artifactKey svcWeb = artifactKey svcDb /\
  snd (transformer.mergeArtifact svcStore svcWeb svcDb) = false.
Proof. split; vm_compute; reflexivity. Qed.

(** The amended statement at work: two artifacts of one type and name
    without configs merge, and the result bears their name; and the two
    that do not merge hold configs under the kind ["Service"], which the
    schema refused. *)
Lemma mergeArtifact_merged_iff_witness :
  snd (transformer.mergeArtifact plainStore left right) = true /\
  Artifact.Name (snd (fst (transformer.mergeArtifact plainStore left right))) = "app" /\
  exists v1, configAt svcStore svcWeb "Service" = Some v1.
Proof.
  destruct (mergeArtifact_merged_iff plainStore left right) as (Hiff & Hname & _).
  assert (Hm : snd (transformer.mergeArtifact plainStore left right) = true).
  { apply Hiff. split; vm_compute; reflexivity. }
  split; [exact Hm|]. split; [exact (proj1 (Hname Hm))|].
  destruct (mergeArtifact_merged_iff svcStore svcWeb svcDb) as (_ & _ & _ & Hwhy).
  destruct (Hwhy eq_refl eq_refl)
    as (la & lb & cn & ct & v1 & c1 & c2 & Ha & Hb & Hin & _ & _ & _ & _ & Hheld).
  exists v1. inversion Hb; subst lb.
  apply list_elem_of_singleton in Hin. subst cn.
  apply Hheld. apply NoDup_singleton.
Defined.

(** *** What [mergeArtifact] writes *)

Section config_write_facts.
Context {host : ConfigHost}.
Implicit Types (h : transformer.Heap) (a b : Artifact.t) (l : addr).

(** The config map of [a] after [mergeArtifact h a b], for two artifacts
    of one type and name that both have a config map: what the loop of
    [mergeConfigs] leaves, whether it accepts or refuses. *)
Lemma mergeArtifact_configs_written h a b la lb :
  Artifact.Configs a = Some la -> Artifact.Configs b = Some lb ->
  artifactKey a = artifactKey b ->
  transformer.readConfigs (fst (fst (transformer.mergeArtifact h a b))) la
  = fst (transformer.mergeConfigs_range (transformer.readConfigs h lb)
           (transformer.readConfigs h lb) (transformer.readConfigs h la)) /\
  snd (transformer.mergeArtifact h a b)
  = snd (transformer.mergeConfigs_range (transformer.readConfigs h lb)
           (transformer.readConfigs h lb) (transformer.readConfigs h la)).
Proof.
  intros Ha Hb Hkey. apply artifactKey_eq in Hkey.
  unfold transformer.mergeArtifact.
  destruct (decide _) as [_|Hk]; [|contradiction].
  rewrite Ha, Hb. unfold transformer.mergeConfigs.
  destruct (transformer.mergeConfigs_range _ _ _) as [m1 merged].
  destruct merged; cbn [negb fst snd].
  - pose proof (mergePathSliceMaps_configMaps (transformer.writeConfigs h la m1)
                  (Artifact.Paths a) (Artifact.Paths b)) as Hcm.
    destruct (transformer.mergePathSliceMaps _ _ _) as [h2 paths]. cbn [fst snd] in *.
    split; [|reflexivity]. unfold transformer.readConfigs. rewrite Hcm.
    unfold transformer.writeConfigs. cbn. now rewrite lookup_insert_eq.
  - split; [|reflexivity]. unfold transformer.readConfigs, transformer.writeConfigs. cbn.
    now rewrite lookup_insert_eq.
Qed.

(** Merging a config map into one that holds nothing under its kinds:
    the kinds of the second map get its configs, the other kinds keep
    theirs. *)
Lemma mergeConfigs_range_union (m2 m1 : transformer.ConfigMap) :
  NoDup (map fst m2) ->
  (forall k, k ∈ map fst m2 -> transformer.cfg_get m1 k = None) ->
  snd (transformer.mergeConfigs_range m2 m2 m1) = true /\
  forall k,
    transformer.cfg_get (fst (transformer.mergeConfigs_range m2 m2 m1)) k
    = if decide (k ∈ map fst m2) then transformer.cfg_get m2 k else transformer.cfg_get m1 k.
Proof.
  intros Hnd Hnone.
  destruct (mergeConfigs_range_disjoint m2 m2 m1 Hnd Hnone) as [Hok Hcopied].
  destruct (mergeConfigs_range_kinds m2 m2 m1) as (Hframe & _).
  split; [exact Hok|]. intros k.
  destruct (decide (k ∈ map fst m2)); [now apply Hcopied | now apply Hframe].
Qed.

(** The configs of a merged artifact, when the two config maps share no
    kind. *)
Lemma mergeArtifact_configAt_disjoint h a b hab cab la lb k :
  transformer.mergeArtifact h a b = (hab, cab, true) ->
  Artifact.Configs a = Some la -> Artifact.Configs b = Some lb ->
  wellKeyed h b ->
  (forall k, k ∈ configKinds h b -> configAt h a k = None) ->
  configAt hab cab k
  = if decide (k ∈ configKinds h b) then configAt h b k else configAt h a k.
Proof.
  intros Hm Ha Hb Hwf Hnone.
  pose proof (mergeArtifact_success_key h a b) as Hkey. rewrite Hm in Hkey.
  destruct (Hkey eq_refl) as [Hk _].
  destruct (mergeArtifact_configs_written h a b la lb Ha Hb Hk) as [Hw _].
  rewrite Hm in Hw. cbn [fst] in Hw.
  apply mergeArtifact_success in Hm as (h1 & mc & paths & Hc & _ & ->).
  pose proof (mergeConfigs_ref h (Artifact.Configs a) (Artifact.Configs b)) as Href.
  rewrite Hc, Ha in Href. cbn in Href. subst mc.
  unfold configAt at 1. cbn [Artifact.Configs]. rewrite Hw.
  unfold wellKeyed, configKinds, configAt in *. rewrite Ha, Hb in *.
  now apply mergeConfigs_range_union.
Qed.
End config_write_facts.

Section merge_writes.
Context {host : ConfigHost}.
Implicit Types (h : transformer.Heap) (a b : Artifact.t) (l : addr).

(** The maps a merged artifact refers to: those of the first argument,
    and those of the second where the first has none. *)
Lemma mergeArtifact_refs h a b :
  snd (transformer.mergeArtifact h a b) = true ->
  Artifact.Paths (snd (fst (transformer.mergeArtifact h a b)))
  = match Artifact.Paths a with None => Artifact.Paths b | Some la => Some la end /\
  Artifact.Configs (snd (fst (transformer.mergeArtifact h a b)))
  = match Artifact.Configs a with None => Artifact.Configs b | Some la => Some la end.
Proof.
  intros Hm. apply merged_triple in Hm.
  apply mergeArtifact_success in Hm as (h1 & mc & paths & Hc & Hp & Hcab).
  rewrite Hcab. cbn [Artifact.Paths Artifact.Configs]. split.
  - unfold transformer.mergePathSliceMaps in Hp.
    destruct (Artifact.Paths a), (Artifact.Paths b); now inversion Hp.
  - pose proof (mergeConfigs_ref h (Artifact.Configs a) (Artifact.Configs b)) as Href.
    rewrite Hc in Href. cbn in Href. now destruct (Artifact.Configs a).
Qed.

(** What [mergeArtifact] writes to the config map of its first argument. *)
Lemma mergeArtifact_configs_kinds h a b la lb :
  Artifact.Configs a = Some la -> Artifact.Configs b = Some lb ->
  artifactKey a = artifactKey b ->
  let h' := fst (fst (transformer.mergeArtifact h a b)) in
  (forall k, (k ∉ configKinds h b) ->
             transformer.cfg_get (transformer.readConfigs h' la) k = configAt h a k) /\
  (wellKeyed h b ->
   (forall k, k ∈ configKinds h b -> configAt h a k = None) ->
   snd (transformer.mergeArtifact h a b) = true /\
   forall k, k ∈ configKinds h b ->
             transformer.cfg_get (transformer.readConfigs h' la) k = configAt h b k).
Proof.
  intros Ha Hb Hkey. cbv zeta.
  destruct (mergeArtifact_configs_written h a b la lb Ha Hb Hkey) as [Hw Hv].
  rewrite Hw, Hv. unfold wellKeyed, configKinds, configAt. rewrite Ha, Hb. split.
  - intros k Hk.
    now apply (mergeConfigs_range_kinds (transformer.readConfigs h lb)
                 (transformer.readConfigs h lb) (transformer.readConfigs h la)).
  - intros Hnd Hnone.
    now apply (mergeConfigs_range_disjoint (transformer.readConfigs h lb)
                 (transformer.readConfigs h lb) (transformer.readConfigs h la)).
Qed.

(** A refused merge has written to no paths map. *)
Lemma mergeArtifact_refused_paths h a b :
  snd (transformer.mergeArtifact h a b) = false ->
  transformer.pathMaps (fst (fst (transformer.mergeArtifact h a b))) = transformer.pathMaps h.
Proof.
  rewrite mergeArtifact_heap.
  pose proof (mergeConfigs_pathMaps h (Artifact.Configs a) (Artifact.Configs b)) as Hcp.
  unfold transformer.mergeArtifact.
  destruct (decide _) as [Hk|Hk]; [|reflexivity]. cbv zeta.
  destruct (transformer.mergeConfigs _ _ _) as [[h1 mc] merged].
  destruct merged; cbn [fst snd] in *; [|intros _; exact Hcp].
  destruct (transformer.mergePathSliceMaps _ _ _). discriminate.
Qed.

(** C7 (amended). [mergeArtifact a b] does not clone: it writes in place,
    and only to the maps [a] refers to.  Every paths map other than
    [a.Paths] and every config map other than [a.Configs] is left as it
    was; nothing is written to a paths (config) map when either side has
    none; and when both sides have a paths map and the merge succeeds, the
    map of [a] holds afterwards, key by key, the merged slices.  The
    merged artifact refers to the maps of [a], and to those of [b] where
    [a] has none.  When both sides have a config map, and the two
    artifacts have one type and name, the map of [a] holds afterwards what
    the loop of [mergeConfigs] over the map of [b] left in it, whether the
    merge succeeded or a schema refused: it keeps its config under every
    kind the map of [b] lacks; and when it held no config under any kind
    of the map of [b], the merge succeeds and the map of [a] holds
    afterwards the configs of [b] under those kinds.  A merge that is
    refused writes to no paths map, and with artifacts that differ in
    type or name nothing is written at all. *)
Theorem mergeArtifact_writes_only_a h a b :
  let h' := fst (fst (transformer.mergeArtifact h a b)) in
  (forall l, Artifact.Paths a <> Some l ->
             transformer.pathMaps h' !! l = transformer.pathMaps h !! l) /\
  (forall l, Artifact.Configs a <> Some l ->
             transformer.configMaps h' !! l = transformer.configMaps h !! l) /\
  (Artifact.Paths a = None \/ Artifact.Paths b = None ->
   transformer.pathMaps h' = transformer.pathMaps h) /\
  (Artifact.Configs a = None \/ Artifact.Configs b = None ->
   transformer.configMaps h' = transformer.configMaps h) /\
  (forall la lb k,
      Artifact.Paths a = Some la -> Artifact.Paths b = Some lb ->
      snd (transformer.mergeArtifact h a b) = true ->
      transformer.readPaths h' la !! k
      = match transformer.readPaths h lb !! k with
        | Some v => Some (common.MergeSlices (default [] (transformer.readPaths h la !! k)) v)
        | None => transformer.readPaths h la !! k
        end) /\
  (snd (transformer.mergeArtifact h a b) = true ->
   Artifact.Paths (snd (fst (transformer.mergeArtifact h a b)))
   = match Artifact.Paths a with None => Artifact.Paths b | Some la => Some la end /\
   Artifact.Configs (snd (fst (transformer.mergeArtifact h a b)))
   = match Artifact.Configs a with None => Artifact.Configs b | Some la => Some la end) /\
  (forall la lb,
      Artifact.Configs a = Some la -> Artifact.Configs b = Some lb ->
      artifactKey a = artifactKey b ->
      transformer.readConfigs h' la
      = fst (transformer.mergeConfigs_range (transformer.readConfigs h lb)
               (transformer.readConfigs h lb) (transformer.readConfigs h la)) /\
      (forall k, (k ∉ configKinds h b) ->
                 transformer.cfg_get (transformer.readConfigs h' la) k = configAt h a k) /\
      (wellKeyed h b ->
       (forall k, k ∈ configKinds h b -> configAt h a k = None) ->
       snd (transformer.mergeArtifact h a b) = true /\
       forall k, k ∈ configKinds h b ->
                 transformer.cfg_get (transformer.readConfigs h' la) k = configAt h b k)) /\
  (snd (transformer.mergeArtifact h a b) = false ->
   transformer.pathMaps h' = transformer.pathMaps h) /\
  (artifactKey a <> artifactKey b -> h' = h).
Proof.
  cbv zeta.
  destruct (mergeArtifact_store h a b) as (H1 & H2 & H3 & H4 & H5).
  repeat apply conj; try assumption.
  - apply mergeArtifact_refs.
  - intros la lb Ha Hb Hkey. split.
    + exact (proj1 (mergeArtifact_configs_written h a b la lb Ha Hb Hkey)).
    + exact (mergeArtifact_configs_kinds h a b la lb Ha Hb Hkey).
  - apply mergeArtifact_refused_paths.
  - intros Hne. now rewrite mergeArtifact_differs_eq.
Qed.
End merge_writes.

(** C7, as stated, fails: after merging [right] into [left] the paths map
    of [left], an input of the call, lists a path it did not list before;
    [updatedArtifacts], given the new artifacts [left] and [bare] and the
    already seen [right], changes the paths map of [right] too; and after
    merging [imageOnly] into [portsOnly] the config map of [portsOnly], an
    input of the call, holds a config it did not hold before. *)
Lemma mergeArtifact_mutates_first_input :
  let h' := fst (fst (transformer.mergeArtifact plainStore left right)) in
  let h'' := fst (transformer.updatedArtifacts plainStore [right] [left; bare]) in
  let k' := fst (fst (transformer.mergeArtifact kindStore portsOnly imageOnly)) in
  pathList plainStore left "SourcePath" = ["a"] /\
  pathList h' left "SourcePath" = ["a"; "b"] /\
  transformer.pathMaps h' !! 1%positive <> transformer.pathMaps plainStore !! 1%positive /\
  pathList plainStore right "SourcePath" = ["b"] /\
  pathList h'' right "SourcePath" = ["b"; "a"] /\
  configAt kindStore portsOnly "Image" = None /\
  configAt k' portsOnly "Image" = Some "web:v1" /\
  transformer.configMaps k' !! 1%positive <> transformer.configMaps kindStore !! 1%positive.
Proof.
  cbv zeta. repeat split; try (vm_compute; reflexivity).
  - intros Heq.
    apply (f_equal (fun m => default ∅ m !! "SourcePath")) in Heq.
    vm_compute in Heq. discriminate Heq.
  - intros Heq. vm_compute in Heq. discriminate Heq.
Qed.

(** The amended statement at work on the same calls: the paths map of
    [right], the second input, is untouched, and the map of [left] holds
    the merged slice; the config map of [imageOnly] is untouched, the
    merge of [imageOnly] into [portsOnly] succeeds, the merged artifact
    refers to the config map of [portsOnly], and that map holds the image
    of [imageOnly] next to the ports it held. *)
Lemma mergeArtifact_writes_only_a_witness :
  let h' := fst (fst (transformer.mergeArtifact plainStore left right)) in
  let k' := fst (fst (transformer.mergeArtifact kindStore portsOnly imageOnly)) in
  transformer.pathMaps h' !! 2%positive = transformer.pathMaps plainStore !! 2%positive /\
  transformer.readPaths h' 1%positive !! "SourcePath" = Some ["a"; "b"] /\
  transformer.configMaps k' !! 2%positive = transformer.configMaps kindStore !! 2%positive /\
  snd (transformer.mergeArtifact kindStore portsOnly imageOnly) = true /\
  Artifact.Configs (snd (fst (transformer.mergeArtifact kindStore portsOnly imageOnly)))
  = Some 1%positive /\
  transformer.cfg_get (transformer.readConfigs k' 1%positive) "Image" = Some "web:v1" /\
  transformer.cfg_get (transformer.readConfigs k' 1%positive) "Ports" = Some "8080".
Proof.
  cbv zeta.
  destruct (mergeArtifact_writes_only_a plainStore left right) as (Hp & _ & _ & _ & Hw & _).
  destruct (mergeArtifact_writes_only_a kindStore portsOnly imageOnly)
    as (_ & Hc & _ & _ & _ & Hrefs & Hcfg & _).
  destruct (Hcfg 1%positive 2%positive eq_refl eq_refl eq_refl) as (_ & Hkeep & Hwrite).
  assert (Hwf : wellKeyed kindStore imageOnly).
  { vm_compute. apply NoDup_cons. split; [apply not_elem_of_nil | apply NoDup_nil_2]. }
  assert (Hnone : forall k, k ∈ configKinds kindStore imageOnly ->
                            configAt kindStore portsOnly k = None).
  { intros k Hk. change (configKinds kindStore imageOnly) with ["Image"] in Hk.
    apply list_elem_of_singleton in Hk. subst k. reflexivity. }
  destruct (Hwrite Hwf Hnone) as (Hok & Hcopied).
  split; [apply Hp; discriminate|].
  split; [rewrite (Hw 1%positive 2%positive "SourcePath"); vm_compute; reflexivity|].
  split; [apply Hc; discriminate|].
  split; [exact Hok|].
  split; [exact (proj2 (Hrefs Hok))|].
  split.
  - rewrite (Hcopied "Image"); [reflexivity|].
    change (configKinds kindStore imageOnly) with ["Image"]. apply list_elem_of_here.
  - rewrite (Hkeep "Ports"); [reflexivity|].
    change (configKinds kindStore imageOnly) with ["Image"].
    intros Hin. apply list_elem_of_singleton in Hin. discriminate Hin.
Defined.

(** *** One artifact per type and name *)

Section merge_refusals.
Context {host : ConfigHost}.
Implicit Types (h : transformer.Heap) (a b e : Artifact.t).
Implicit Types (xs pre post acc : list Artifact.t).

(** The outer loop over a list in two parts. *)
Lemma mergeArtifacts_outer_app h pre post acc :
  transformer.mergeArtifacts_outer h (pre ++ post) acc
  = transformer.mergeArtifacts_outer
      (fst (transformer.mergeArtifacts_outer h pre acc)) post
      (snd (transformer.mergeArtifacts_outer h pre acc)).
Proof.
  revert h acc. induction pre as [|a pre IH]; intros h acc; [reflexivity|].
  cbn [app transformer.mergeArtifacts_outer].
  destruct (transformer.mergeArtifacts_inner h a acc) as [h1 [acc'|]]; apply IH.
Qed.

(** The outer loop keeps the types and names it has, where they are, and
    adds at the end. *)
Lemma mergeArtifacts_outer_grows h xs acc :
  exists added,
    map artifactKey (snd (transformer.mergeArtifacts_outer h xs acc))
    = map artifactKey acc ++ added.
Proof.
  revert h acc. induction xs as [|a xs IH]; intros h acc.
  - exists []. simpl. now rewrite app_nil_r.
  - cbn [transformer.mergeArtifacts_outer].
    pose proof (mergeArtifacts_inner_same_keys h a acc) as Hinner.
    destruct (transformer.mergeArtifacts_inner h a acc) as [h1 [acc'|]].
    + destruct (Hinner acc' eq_refl) as [Hkeys _].
      destruct (IH h1 acc') as [added Hadded]. exists added. now rewrite Hadded, Hkeys.
    + destruct (IH h1 (acc ++ [a])) as [added Hadded]. exists (artifactKey a :: added).
      rewrite Hadded, map_app, <- app_assoc. reflexivity.
Qed.

(** When the inner loop merges [a] into no entry, [mergeArtifact] has
    returned false for [a] and every entry, in the store of that turn. *)
Lemma mergeArtifacts_inner_refused h a acc e :
  snd (transformer.mergeArtifacts_inner h a acc) = None -> e ∈ acc ->
  exists h', snd (transformer.mergeArtifact h' a e) = false.
Proof.
  revert h. induction acc as [|b acc IH]; intros h Hnone Hin; [inversion Hin|].
  cbn [transformer.mergeArtifacts_inner] in Hnone.
  destruct (transformer.mergeArtifact h a b) as [[h1 c] ok] eqn:Hm.
  destruct ok; [discriminate|].
  apply elem_of_cons in Hin as [->|Hin].
  - exists h. now rewrite Hm.
  - apply (IH h1); [|exact Hin].
    destruct (transformer.mergeArtifacts_inner h1 a acc) as [h2 [r|]]; [discriminate|reflexivity].
Qed.

(** A refused artifact is appended, and its type and name then occur
    twice in the result. *)
Lemma refusedAt_twice h xs pre a post :
  refusedAt h xs pre a post ->
  exists before after,
    map artifactKey (snd (transformer.mergeArtifacts h xs))
    = before ++ artifactKey a :: after /\
    artifactKey a ∈ before.
Proof.
  intros (-> & Hin & Hnone). unfold transformer.mergeArtifacts in *.
  rewrite mergeArtifacts_outer_app.
  destruct (transformer.mergeArtifacts_outer h pre []) as [h1 acc]. cbn [fst snd] in *.
  cbn [transformer.mergeArtifacts_outer].
  destruct (transformer.mergeArtifacts_inner h1 a acc) as [h2 [acc'|]]; [discriminate|].
  destruct (mergeArtifacts_outer_grows h2 post (acc ++ [a])) as [added Hadded].
  exists (map artifactKey acc), added. split; [|exact Hin].
  rewrite Hadded, map_app, <- app_assoc. reflexivity.
Qed.

(** A refusal is that of a registered schema. *)
Lemma refusedAt_by_schema h xs pre a post :
  refusedAt h xs pre a post ->
  exists e h',
    e ∈ snd (transformer.mergeArtifacts h pre) /\
    artifactKey e = artifactKey a /\
    snd (transformer.mergeArtifact h' a e) = false /\
    exists la lb cn ct v1 c1 c2,
      Artifact.Configs a = Some la /\ Artifact.Configs e = Some lb /\
      cn ∈ configKinds h' e /\
      ConfigTypes cn = Some ct /\
      GetObjFromInterface ct (Some v1) = Some c1 /\
      GetObjFromInterface ct (configAt h' e cn) = Some c2 /\
      snd (Config_Merge c1 c2) = false /\
      (wellKeyed h' e -> configAt h' a cn = Some v1).
Proof.
  intros (_ & Hin & Hnone).
  apply list_elem_of_fmap in Hin as (e & Hkey & He).
  destruct (mergeArtifacts_inner_refused _ a _ e Hnone He) as [h' Hfalse].
  exists e, h'. split; [exact He|]. split; [now symmetry|]. split; [exact Hfalse|].
  now apply mergeArtifact_refused_by_schema.
Qed.

(** Without a refusal, one artifact per type and name. *)
Lemma mergeArtifacts_NoDup_unless_refused h xs :
  (forall pre a post, ~ refusedAt h xs pre a post) ->
  NoDup (map artifactKey (snd (transformer.mergeArtifacts h xs))).
Proof.
  induction xs as [|a xs IH] using rev_ind; intros Hnever; [apply NoDup_nil_2|].
  assert (Hnd : NoDup (map artifactKey (snd (transformer.mergeArtifacts h xs)))).
  { apply IH. intros pre x post (-> & Hin & Hnone).
    apply (Hnever pre x (post ++ [a])). split; [|split; assumption].
    now rewrite <- app_assoc. }
  specialize (Hnever xs a []).
  unfold refusedAt, transformer.mergeArtifacts in *.
  rewrite mergeArtifacts_outer_app.
  destruct (transformer.mergeArtifacts_outer h xs []) as [h1 acc]. cbn [fst snd] in *.
  cbn [transformer.mergeArtifacts_outer].
  pose proof (mergeArtifacts_inner_same_keys h1 a acc) as Hinner.
  destruct (transformer.mergeArtifacts_inner h1 a acc) as [h2 [acc'|]]; cbn [fst snd] in *.
  - destruct (Hinner acc' eq_refl) as [Hkeys _]. now rewrite Hkeys.
  - rewrite map_app. apply NoDup_app. split; [exact Hnd|]. split; [|apply NoDup_singleton].
    intros k Hk Hk'. apply list_elem_of_singleton in Hk'. subst k.
    apply Hnever. split; [reflexivity|]. split; [exact Hk | reflexivity].
Qed.

End merge_refusals.



(** *** The order of a merge *)

Section merge_symmetry.
Context {host : ConfigHost}.
Implicit Types (h : transformer.Heap) (a b : Artifact.t) (l : addr).

Lemma cfg_get_absent (m : transformer.ConfigMap) k :
  (k ∉ map fst m) -> transformer.cfg_get m k = None.
Proof.
  induction m as [|[k0 v0] m IH]; simpl; [reflexivity|].
  intros Hk. destruct (decide (k0 = k)) as [->|Hne].
  - exfalso. apply Hk. left.
  - apply IH. intros Hin. apply Hk. now right.
Qed.

Lemma configAt_absent h a k : (k ∉ configKinds h a) -> configAt h a k = None.
Proof.
  unfold configKinds, configAt. destruct (Artifact.Configs a); [|reflexivity].
  apply cfg_get_absent.
Qed.

(** Two artifacts whose config maps share no kind merge to the same
    configs in both orders. *)
Lemma mergeArtifact_configAt_comm h a b hab cab hba cba :
  transformer.mergeArtifact h a b = (hab, cab, true) ->
  transformer.mergeArtifact h b a = (hba, cba, true) ->
  wellKeyed h a -> wellKeyed h b -> shareNoKind h a b ->
  forall k, configAt hab cab k = configAt hba cba k.
Proof.
  intros Hab Hba Hwa Hwb [Hsa Hsb] k.
  destruct (Artifact.Configs a) as [la|] eqn:Ha; cycle 1.
  { rewrite (mergeArtifact_configAt_nil h a b hab cab k Hab) by now left.
    rewrite (mergeArtifact_configAt_nil h b a hba cba k Hba) by now right.
    unfold configAt. rewrite Ha. now destruct (Artifact.Configs b). }
  destruct (Artifact.Configs b) as [lb|] eqn:Hb; cycle 1.
  { rewrite (mergeArtifact_configAt_nil h a b hab cab k Hab) by now right.
    rewrite (mergeArtifact_configAt_nil h b a hba cba k Hba) by now left.
    unfold configAt. now rewrite Ha, Hb. }
  rewrite (mergeArtifact_configAt_disjoint h a b hab cab la lb k Hab Ha Hb Hwb Hsa).
  rewrite (mergeArtifact_configAt_disjoint h b a hba cba lb la k Hba Hb Ha Hwa Hsb).
  destruct (decide (k ∈ configKinds h b)) as [Hkb|Hkb],
           (decide (k ∈ configKinds h a)) as [Hka|Hka]; try reflexivity.
  - now rewrite (Hsa k Hkb), (Hsb k Hka).
  - now rewrite (configAt_absent h a k Hka), (configAt_absent h b k Hkb).
Qed.

(** C6 (amended).  For [a] and [b] that merge in both orders: the two
    results carry the same name and type and, under every path kind, the
    same set of paths; the two path lists are equal up to order when no
    input path list repeats a path; the configs agree when one of the two
    has no config map, and also when both have one and neither holds a
    config under a kind of the other's map ([shareNoKind]; [wellKeyed]
    says that a map has each of its keys once, as every Go map has).  And
    when [a] merges with itself the result is [a], its path lists are
    unchanged, and so are its configs provided that merging a config with
    itself gives it back ([selfMergeIsIdentity]) and the config map has
    no repeated key. *)
Theorem mergeArtifact_symmetric_idempotent h a b :
  (forall hab cab hba cba,
      transformer.mergeArtifact h a b = (hab, cab, true) ->
      transformer.mergeArtifact h b a = (hba, cba, true) ->
      Artifact.Name cab = Artifact.Name cba /\
      Artifact.Type_ cab = Artifact.Type_ cba /\
      (forall k x, x ∈ pathList hab cab k <-> x ∈ pathList hba cba k) /\
      ((forall k, NoDup (pathList h a k) /\ NoDup (pathList h b k)) ->
       forall k, pathList hab cab k ≡ₚ pathList hba cba k) /\
      (Artifact.Configs a = None \/ Artifact.Configs b = None ->
       forall k, configAt hab cab k = configAt hba cba k) /\
      (wellKeyed h a -> wellKeyed h b -> shareNoKind h a b ->
       forall k, configAt hab cab k = configAt hba cba k)) /\
  (forall haa caa,
      transformer.mergeArtifact h a a = (haa, caa, true) ->
      caa = a /\
      (forall k, pathList haa caa k = pathList h a k) /\
      (selfMergeIsIdentity ->
       (forall l, Artifact.Configs a = Some l ->
                  NoDup (map fst (transformer.readConfigs h l))) ->
       forall k, configAt haa caa k = configAt h a k)).
Proof.
  split.
  - intros hab cab hba cba Hab Hba.
    assert (Hset : forall k x, x ∈ pathList hab cab k <-> x ∈ pathList hba cba k).
    { intros k x.
      rewrite (mergeArtifact_pathList_elem h a b hab cab k x Hab).
      rewrite (mergeArtifact_pathList_elem h b a hba cba k x Hba). tauto. }
    pose proof (mergeArtifact_success_key h a b) as Hk1. rewrite Hab in Hk1.
    destruct (Hk1 eq_refl) as [Hkey Hkab]. simpl in Hkab.
    pose proof (mergeArtifact_success_key h b a) as Hk2. rewrite Hba in Hk2.
    destruct (Hk2 eq_refl) as [_ Hkba]. simpl in Hkba.
    assert (Hkk : artifactKey cab = artifactKey cba) by now rewrite Hkab, Hkba.
    apply artifactKey_eq in Hkk as [Hty Hnm].
    split; [exact Hnm|]. split; [exact Hty|]. split; [exact Hset|]. split; [|split].
    + intros Hnd k. destruct (Hnd k) as [Ha Hb].
      apply NoDup_Permutation; [| |apply Hset].
      * now apply (mergeArtifact_pathList_NoDup h a b).
      * now apply (mergeArtifact_pathList_NoDup h b a).
    + intros Hnil k.
      rewrite (mergeArtifact_configAt_nil h a b hab cab k Hab Hnil).
      rewrite (mergeArtifact_configAt_nil h b a hba cba k Hba) by tauto.
      unfold configAt.
      destruct (Artifact.Configs a), (Artifact.Configs b); try reflexivity.
      destruct Hnil; discriminate.
    + now apply (mergeArtifact_configAt_comm h a b).
  - intros haa caa Haa.
    pose proof (mergeArtifact_pathList h a a haa caa) as Hpl.
    apply mergeArtifact_success in Haa as Hparts.
    destruct Hparts as (h1 & mc & paths & Hc & Hp & ->).
    pose proof (mergeConfigs_ref h (Artifact.Configs a) (Artifact.Configs a)) as Hmc.
    rewrite Hc in Hmc. simpl in Hmc.
    assert (Hmc' : mc = Artifact.Configs a) by (rewrite Hmc; now destruct (Artifact.Configs a)).
    assert (Hpaths : paths = Artifact.Paths a).
    { unfold transformer.mergePathSliceMaps in Hp.
      destruct (Artifact.Paths a); inversion Hp; reflexivity. }
    clear Hmc. subst mc paths. split; [now destruct a|]. split.
    + intros k. rewrite (Hpl k Haa). unfold pathList.
      destruct (Artifact.Paths a) as [la|]; [|reflexivity].
      destruct (transformer.readPaths h la !! k) as [v|]; simpl; [|reflexivity].
      apply MergeSlices_self.
    + intros Hself Hwf k.
      pose proof (mergePathSliceMaps_configMaps h1 (Artifact.Paths a) (Artifact.Paths a)) as Hcm.
      rewrite Hp in Hcm. simpl in Hcm.
      unfold configAt, transformer.readConfigs. simpl. rewrite Hcm.
      destruct (Artifact.Configs a) as [lc|] eqn:Hca; [|reflexivity].
      unfold transformer.mergeConfigs in Hc.
      destruct (transformer.mergeConfigs_range _ _ _) as [m1 merged] eqn:Hr.
      inversion Hc; subst; clear Hc. simpl. rewrite lookup_insert_eq. simpl.
      pose proof (mergeConfigs_range_self (transformer.readConfigs h lc)
                    (transformer.readConfigs h lc) (transformer.readConfigs h lc)
                    Hself (Hwf lc eq_refl) (fun e He => He) (fun k' => eq_refl) k) as Hs.
      rewrite Hr in Hs. exact Hs.
Qed.
End merge_symmetry.

(** C6, as stated, fails: [twice] lists one source path twice and [once]
    lists it once; both orders of merging succeed, yet one result lists
    the path twice and the other once, and under the unregistered config
    kind ["Notes"], where the right value wins, the two results hold
    different configs. *)
Lemma mergeArtifact_order_matters :
  let rab := transformer.mergeArtifact pathStore twice once in
  let rba := transformer.mergeArtifact pathStore once twice in
  artifactKey twice = artifactKey once /\
  snd rab = true /\ snd rba = true /\
  pathList (fst (fst rab)) (snd (fst rab)) "SourcePath" = ["src"; "src"] /\
  pathList (fst (fst rba)) (snd (fst rba)) "SourcePath" = ["src"] /\
  ~ (pathList (fst (fst rab)) (snd (fst rab)) "SourcePath"
     ≡ₚ pathList (fst (fst rba)) (snd (fst rba)) "SourcePath") /\
  configAt (fst (fst rab)) (snd (fst rab)) "Notes"
  <> configAt (fst (fst rba)) (snd (fst rba)) "Notes".
Proof.
  cbv zeta. repeat split; try (vm_compute; reflexivity).
  - intros Hperm. apply Permutation_length in Hperm. vm_compute in Hperm. discriminate Hperm.
  - vm_compute. discriminate.
Qed.

(** The amended statement at work: [left] and [right] list one path each;
    merged in either order they list the same two paths, up to order.
    [portsOnly] holds ports and [imageOnly] an image; merged in either
    order the result holds both. *)
Lemma mergeArtifact_symmetric_idempotent_witness :
  let rab := transformer.mergeArtifact plainStore left right in
  let rba := transformer.mergeArtifact plainStore right left in
  let sab := transformer.mergeArtifact kindStore portsOnly imageOnly in
  let sba := transformer.mergeArtifact kindStore imageOnly portsOnly in
  pathList (fst (fst rab)) (snd (fst rab)) "SourcePath"
  ≡ₚ pathList (fst (fst rba)) (snd (fst rba)) "SourcePath" /\
  (forall k, configAt (fst (fst sab)) (snd (fst sab)) k
             = configAt (fst (fst sba)) (snd (fst sba)) k) /\
  configAt (fst (fst sba)) (snd (fst sba)) "Ports" = Some "8080" /\
  configAt (fst (fst sba)) (snd (fst sba)) "Image" = Some "web:v1".
Proof.
  cbv zeta.
  destruct (mergeArtifact_symmetric_idempotent plainStore left right) as [Hcomm _].
  destruct (Hcomm _ _ _ _
              (merged_triple (transformer.mergeArtifact plainStore left right) eq_refl)
              (merged_triple (transformer.mergeArtifact plainStore right left) eq_refl))
    as (_ & _ & _ & Hperm & _).
  destruct (mergeArtifact_symmetric_idempotent kindStore portsOnly imageOnly) as [Hcfg _].
  destruct (Hcfg _ _ _ _
              (merged_triple (transformer.mergeArtifact kindStore portsOnly imageOnly) eq_refl)
              (merged_triple (transformer.mergeArtifact kindStore imageOnly portsOnly) eq_refl))
    as (_ & _ & _ & _ & _ & Hsame).
  split; [|split; [|split; reflexivity]].
  - apply Hperm. intros k.
    unfold pathList, transformer.readPaths, plainStore, left, right. simpl.
    rewrite lookup_insert_eq, lookup_insert_ne, lookup_insert_eq by discriminate. simpl.
    rewrite !lookup_singleton.
    destruct (decide ("SourcePath" = k)); simpl;
      split; (apply NoDup_singleton || apply NoDup_nil_2).
  - apply Hsame.
    + vm_compute. apply NoDup_singleton.
    + vm_compute. apply NoDup_singleton.
    + split; intros k Hk.
      * change (configKinds kindStore imageOnly) with ["Image"] in Hk.
        apply list_elem_of_singleton in Hk. subst k. reflexivity.
      * change (configKinds kindStore portsOnly) with ["Ports"] in Hk.
        apply list_elem_of_singleton in Hk. subst k. reflexivity.
Defined.

(* ===================================================================== *)
(** ** Selecting transformers *)
(* ===================================================================== *)

Section registry_facts.
Context {reg : RegistryHost}.
Implicit Types (st : transformer.loading) (tc ot : Transformer.t) (name : string).
Implicit Types (paths pre post : list (string * string)).

(** One round of loading, on the map of kept descriptors and on the
    collected override selectors. *)
Lemma loadOne_loaded selector logError st tn tfilepath tc :
  fst (transformer.getTransformerConfig tfilepath) = inr tc ->
  transformer.filteredTransformerConfigs
    (transformer.loadOne selector logError st (tn, tfilepath))
  = (if matchesUser selector tc && classRegistered tc
     then <[Transformer.Name tc := tc]> (transformer.filteredTransformerConfigs st)
     else transformer.filteredTransformerConfigs st) /\
  transformer.overrideSelectors (transformer.loadOne selector logError st (tn, tfilepath))
  = transformer.overrideSelectors st
    ++ (if matchesUser selector tc then overrideSelectorsOf [tc] else []).
Proof.
  intros Hload. unfold transformer.loadOne, matchesUser, classRegistered, overrideSelectorsOf.
  destruct (transformer.getTransformerConfig tfilepath) as [r lg]. simpl in Hload. subst r.
  destruct (selector (Transformer.Labels tc)); simpl.
  - destruct (transformerTypes _); simpl;
      (split; [reflexivity|]);
      destruct (TransformerSpec.OverrideSelector (Transformer.Spec tc));
      simpl; now rewrite ?app_nil_r.
  - now rewrite app_nil_r.
Qed.

Lemma loadOne_failed selector logError st tn tfilepath err :
  fst (transformer.getTransformerConfig tfilepath) = inl err ->
  transformer.filteredTransformerConfigs
    (transformer.loadOne selector logError st (tn, tfilepath))
  = transformer.filteredTransformerConfigs st /\
  transformer.overrideSelectors (transformer.loadOne selector logError st (tn, tfilepath))
  = transformer.overrideSelectors st.
Proof.
  intros Hload. unfold transformer.loadOne.
  destruct (transformer.getTransformerConfig tfilepath) as [r lg]. simpl in Hload. subst r.
  now split.
Qed.

(** Nothing that was logged is lost, and a descriptor that loads under a
    name already kept is reported. *)
Lemma loadOne_logged selector logError st entry e :
  e ∈ transformer.logged st -> e ∈ transformer.logged (transformer.loadOne selector logError st entry).
Proof.
  intros He. destruct entry as [tn tfilepath]. unfold transformer.loadOne.
  destruct (transformer.getTransformerConfig tfilepath) as [[err|tc] lg]; simpl.
  - apply elem_of_app. now left.
  - destruct (selector _); simpl; [destruct (transformerTypes _); simpl|];
      apply elem_of_app; now left.
Qed.

Lemma loadOne_conflict selector logError st tn tfilepath tc ot :
  fst (transformer.getTransformerConfig tfilepath) = inr tc ->
  transformer.filteredTransformerConfigs st !! Transformer.Name tc = Some ot ->
  transformer.conflict tc ot
  ∈ transformer.logged (transformer.loadOne selector logError st (tn, tfilepath)).
Proof.
  intros Hload Hot. unfold transformer.loadOne.
  destruct (transformer.getTransformerConfig tfilepath) as [r lg]. simpl in Hload. subst r.
  rewrite Hot.
  destruct (selector _); simpl; [destruct (transformerTypes _); simpl|];
    rewrite !elem_of_app,
      (list_elem_of_singleton (transformer.conflict tc ot) (transformer.conflict tc ot));
    intuition.
Qed.

Lemma fold_loadOne_logged selector logError paths st e :
  e ∈ transformer.logged st ->
  e ∈ transformer.logged (fold_left (transformer.loadOne selector logError) paths st).
Proof.
  revert st. induction paths as [|entry rest IH]; intros st He; simpl; [exact He|].
  apply IH. now apply loadOne_logged.
Qed.

Lemma lastNamed_cons name tc (tcs : list Transformer.t) :
  lastNamed name (tc :: tcs)
  = match lastNamed name tcs with
    | Some tc' => Some tc'
    | None => if decide (Transformer.Name tc = name) then Some tc else None
    end.
Proof.
  unfold lastNamed. rewrite filter_cons.
  destruct (decide (Transformer.Name tc = name)).
  - rewrite last_cons. reflexivity.
  - now destruct (last _).
Qed.

Lemma loaded_cons tn tfilepath rest :
  loaded ((tn, tfilepath) :: rest)
  = match fst (transformer.getTransformerConfig tfilepath) with
    | inr tc => tc :: loaded rest
    | inl _ => loaded rest
    end.
Proof.
  unfold loaded. simpl.
  now destruct (fst (transformer.getTransformerConfig tfilepath)).
Qed.

(** Loading from any state: under each name the last survivor of that
    name is kept, or what the state kept when there is none; the override
    selectors of every loaded descriptor that matches the user's selector
    are collected, in load order. *)
Lemma fold_loadOne_spec selector logError paths st :
  (forall name,
      transformer.filteredTransformerConfigs
        (fold_left (transformer.loadOne selector logError) paths st) !! name
      = match lastNamed name (survivors paths selector) with
        | Some tc => Some tc
        | None => transformer.filteredTransformerConfigs st !! name
        end) /\
  transformer.overrideSelectors (fold_left (transformer.loadOne selector logError) paths st)
  = transformer.overrideSelectors st
    ++ overrideSelectorsOf (filter (fun tc => matchesUser selector tc) (loaded paths)).
Proof.
  revert st. induction paths as [|[tn tfilepath] rest IH]; intros st.
  - split; [reflexivity|]. simpl. unfold overrideSelectorsOf. simpl. now rewrite app_nil_r.
  - change (fold_left (transformer.loadOne selector logError) ((tn, tfilepath) :: rest) st)
      with (fold_left (transformer.loadOne selector logError) rest
              (transformer.loadOne selector logError st (tn, tfilepath))).
    destruct (IH (transformer.loadOne selector logError st (tn, tfilepath))) as [IHf IHo].
    unfold survivors in *. rewrite loaded_cons.
    destruct (fst (transformer.getTransformerConfig tfilepath)) as [err|tc] eqn:Hload.
    + destruct (loadOne_failed selector logError st tn tfilepath err Hload) as [Hf Ho].
      split; [intros name; now rewrite IHf, Hf | now rewrite IHo, Ho].
    + destruct (loadOne_loaded selector logError st tn tfilepath tc Hload) as [Hf Ho].
      split.
      * intros name. rewrite IHf, Hf. rewrite filter_cons.
        destruct (matchesUser selector tc && classRegistered tc) eqn:Hpass.
        -- rewrite decide_True by exact I.
           rewrite lastNamed_cons.
           destruct (lastNamed name _); [reflexivity|].
           destruct (decide (Transformer.Name tc = name)) as [<-|Hne].
           ++ apply lookup_insert_eq.
           ++ now apply lookup_insert_ne.
        -- rewrite decide_False by exact id. reflexivity.
      * rewrite IHo, Ho, <- app_assoc. f_equal. rewrite filter_cons.
        destruct (matchesUser selector tc) eqn:Hm.
        -- rewrite decide_True by exact I. unfold overrideSelectorsOf. simpl.
           now destruct (TransformerSpec.OverrideSelector (Transformer.Spec tc)).
        -- rewrite decide_False by exact id. reflexivity.
Qed.

(** The second loop keeps exactly the kept descriptors that no collected
    override selector matches, and loses no log line. *)
Lemma shadow_lookup sels (filtered : gmap string Transformer.t) lg name :
  fst (map_fold (transformer.shadowOne sels) (∅, lg) filtered) !! name
  = match filtered !! name with
    | Some tc => if shadowed sels tc then None else Some tc
    | None => None
    end.
Proof.
  revert name.
  apply (map_fold_weak_ind
           (fun r (m : gmap string Transformer.t) =>
              forall name, fst r !! name
                           = match m !! name with
                             | Some tc => if shadowed sels tc then None else Some tc
                             | None => None
                             end)).
  - intros name. now rewrite !lookup_empty.
  - intros i x m [cfgs lg'] Hi IH name. unfold transformer.shadowOne.
    fold (shadowed sels x). simpl in IH.
    destruct (decide (i = name)) as [->|Hne].
    + rewrite lookup_insert_eq.
      destruct (shadowed sels x); simpl.
      * rewrite IH, Hi. reflexivity.
      * apply lookup_insert_eq.
    + rewrite (lookup_insert_ne m) by exact Hne.
      destruct (shadowed sels x); simpl; [apply IH|].
      rewrite lookup_insert_ne by exact Hne. apply IH.
Qed.

Lemma shadow_logged sels (filtered : gmap string Transformer.t) lg e :
  e ∈ lg -> e ∈ snd (map_fold (transformer.shadowOne sels) (∅, lg) filtered).
Proof.
  intros He.
  apply (map_fold_weak_ind
           (fun r (m : gmap string Transformer.t) => e ∈ snd r)); [exact He|].
  intros i x m [cfgs lg'] Hi IH. unfold transformer.shadowOne. simpl in *.
  destruct (negb _); simpl; apply elem_of_app; now left.
Qed.
End registry_facts.

Section registry_claims.
Context {reg : RegistryHost}.
Implicit Types (tc ot : Transformer.t) (name : string).
Implicit Types (pre post : list (string * string)).

Lemma loadAll_spec transformerPaths selector logError :
  (forall name,
      transformer.filteredTransformerConfigs
        (transformer.loadAll transformerPaths selector logError) !! name
      = lastNamed name (survivors transformerPaths selector)) /\
  transformer.overrideSelectors (transformer.loadAll transformerPaths selector logError)
  = overrideSelectorsOf
      (filter (fun tc => matchesUser selector tc) (loaded transformerPaths)).
Proof.
  unfold transformer.loadAll.
  destruct (fold_loadOne_spec selector logError transformerPaths
              (transformer.mkLoading ∅ [] [])) as [Hf Ho].
  split; [|exact Ho].
  intros name. rewrite Hf. simpl. rewrite lookup_empty. now destruct (lastNamed _ _).
Qed.

Lemma getFilteredTransformers_lookup transformerPaths selector logError name :
  fst (transformer.getFilteredTransformers transformerPaths selector logError) !! name
  = match lastNamed name (survivors transformerPaths selector) with
    | Some tc =>
        if shadowed (transformer.overrideSelectors
                       (transformer.loadAll transformerPaths selector logError)) tc
        then None else Some tc
    | None => None
    end.
Proof.
  unfold transformer.getFilteredTransformers. cbv zeta.
  rewrite shadow_lookup.
  now rewrite (proj1 (loadAll_spec transformerPaths selector logError) name).
Qed.

(** C4 (amended). When a descriptor loads whose name is already kept, the
    conflict is logged as an error, and the later descriptor replaces the
    earlier one if it passes the user's selector and the class check (the
    earlier one stays otherwise); in the returned set a name is bound to
    the last descriptor of that name, in load order, that passed both
    checks. *)
Theorem getFilteredTransformers_last_wins pre tn tfilepath post selector logError tc ot :
  fst (transformer.getTransformerConfig tfilepath) = inr tc ->
  transformer.filteredTransformerConfigs (transformer.loadAll pre selector logError)
    !! Transformer.Name tc = Some ot ->
  let r := transformer.getFilteredTransformers (pre ++ (tn, tfilepath) :: post)
             selector logError in
  transformer.conflict tc ot ∈ snd r /\
  transformer.filteredTransformerConfigs
    (transformer.loadAll (pre ++ [(tn, tfilepath)]) selector logError) !! Transformer.Name tc
  = Some (if matchesUser selector tc && classRegistered tc then tc else ot) /\
  (forall name tc',
      fst r !! name = Some tc' ->
      lastNamed name (survivors (pre ++ (tn, tfilepath) :: post) selector) = Some tc').
Proof.
  intros Hload Hot. cbv zeta. repeat split.
  - unfold transformer.getFilteredTransformers. cbv zeta.
    apply shadow_logged. unfold transformer.loadAll.
    rewrite fold_left_app. cbn [fold_left]. apply fold_loadOne_logged.
    now apply loadOne_conflict.
  - unfold transformer.loadAll. rewrite fold_left_app. cbn [fold_left].
    rewrite (proj1 (loadOne_loaded selector logError _ tn tfilepath tc Hload)).
    destruct (matchesUser selector tc && classRegistered tc).
    + apply lookup_insert_eq.
    + exact Hot.
  - intros name tc'. rewrite getFilteredTransformers_lookup.
    destruct (lastNamed name _) as [tc0|]; [|discriminate].
    destruct (shadowed _ tc0); [discriminate|]. now intros [= ->].
Qed.

(** X28. [getFilteredTransformers], as it is written: the override
    selectors are collected from every descriptor that loads and matches
    the user's selector, before the class check and whether or not a
    later descriptor takes its name; the returned set binds a name to the
    last survivor of that name unless one of the collected selectors
    matches its labels. *)
Theorem getFilteredTransformers_override transformerPaths selector logError :
  let st := transformer.loadAll transformerPaths selector logError in
  transformer.overrideSelectors st
  = overrideSelectorsOf
      (filter (fun tc => matchesUser selector tc) (loaded transformerPaths)) /\
  forall name,
    fst (transformer.getFilteredTransformers transformerPaths selector logError) !! name
    = match lastNamed name (survivors transformerPaths selector) with
      | Some tc => if shadowed (transformer.overrideSelectors st) tc then None else Some tc
      | None => None
      end.
Proof.
  cbv zeta. split.
  - apply loadAll_spec.
  - intros name. apply getFilteredTransformers_lookup.
Qed.
End registry_claims.

(** C4, as stated, fails: of two descriptors named ["A"], loaded one
    after the other, the returned set holds the later one. *)
Lemma getFilteredTransformers_later_replaces :
  let r := transformer.getFilteredTransformers (reg := demoRegistry) twoNamedA Everything true in
  fst r !! "A" = Some (demoDescriptor "/t/a2.yaml") /\
  TransformerSpec.FilePath (Transformer.Spec (demoDescriptor "/t/a1.yaml")) = "/t/a1.yaml" /\
  TransformerSpec.FilePath (Transformer.Spec (demoDescriptor "/t/a2.yaml")) = "/t/a2.yaml" /\
  fst r !! "A" <> Some (demoDescriptor "/t/a1.yaml").
Proof.
  cbv zeta. repeat split; try (vm_compute; reflexivity).
  intros Heq.
  apply (f_equal (fun o => TransformerSpec.FilePath
                             (Transformer.Spec (default (demoDescriptor "") o)))) in Heq.
  vm_compute in Heq. discriminate Heq.
Qed.

(** The amended statement at work on the same two files: the conflict is
    logged, and the map of kept descriptors holds the later one. *)
Lemma getFilteredTransformers_last_wins_witness :
  transformer.conflict (demoDescriptor "/t/a2.yaml") (demoDescriptor "/t/a1.yaml")
  ∈ snd (transformer.getFilteredTransformers (reg := demoRegistry) twoNamedA Everything true) /\
  transformer.filteredTransformerConfigs
    (transformer.loadAll (reg := demoRegistry) twoNamedA Everything true) !! "A"
  = Some (demoDescriptor "/t/a2.yaml").
Proof.
  destruct (getFilteredTransformers_last_wins (reg := demoRegistry)
              [("a1", "/t/a1.yaml")] "a2" "/t/a2.yaml" [] Everything true
              (demoDescriptor "/t/a2.yaml") (demoDescriptor "/t/a1.yaml"))
    as (Hlog & Hkept & _).
  - vm_compute. reflexivity.
  - vm_compute. reflexivity.
  - split; [exact Hlog | exact Hkept].
Defined.

(** C5.  The code, at the input where it departs from the claim.  ["G"]
    overrides [tier=default] and its class is not registered; ["B"] is
    labelled [tier=default], passes the user's selector and the class
    check, and no descriptor that passes both has an override selector.
    The first loop logs that it ignores ["G"] for its class, yet it has
    taken the override selector of ["G"] before that check, and ["B"] is
    absent from the returned set.  On the sibling path, where ["G"] fails
    the user's selector, the descriptor and its override selector are
    dropped together and ["B"] is returned. *)
Lemma getFilteredTransformers_shadowed_by_unregistered :
  let r := transformer.getFilteredTransformers (reg := demoRegistry) ghostAndB Everything true in
  let tierDefaultOnly : Selector := fun lbls => bool_decide (lbls !! "tier" = Some "default") in
  map Transformer.Name (survivors (reg := demoRegistry) ghostAndB Everything) = ["B"] /\
  overrideSelectorsOf (survivors (reg := demoRegistry) ghostAndB Everything) = [] /\
  fst r !! "B" = None /\
  snd r = [Log ErrorLevel "Ignoring transformer %s since the class %s not found"
               ["g"; "Ghost"]] /\
  length (transformer.overrideSelectors
            (transformer.loadAll (reg := demoRegistry) ghostAndB Everything true)) = 1 /\
  fst (transformer.getFilteredTransformers (reg := demoRegistry) ghostAndB tierDefaultOnly true)
    !! "B" = Some (demoDescriptor "/t/b.yaml") /\
  transformer.overrideSelectors
    (transformer.loadAll (reg := demoRegistry) ghostAndB tierDefaultOnly true) = [].
Proof. cbv zeta. repeat split; vm_compute; reflexivity. Qed.

(** The spec's scenario: ["O"] overrides [tier=default] and ["B"] carries
    that label; after selection ["B"] is absent and ["O"] remains. *)
Lemma getFilteredTransformers_override_witness :
  let r := transformer.getFilteredTransformers (reg := demoRegistry) overrideAndB Everything true in
  fst r !! "B" = None /\ fst r !! "O" = Some (demoDescriptor "/t/o.yaml").
Proof.
  cbv zeta.
  destruct (getFilteredTransformers_override (reg := demoRegistry) overrideAndB Everything true)
    as [_ Hlookup].
  rewrite !Hlookup. split; vm_compute; reflexivity.
Defined.

(* ===================================================================== *)
(** ** The Starlark host *)
(* ===================================================================== *)

Section script_claims.
Context {sh : ScriptHost}.

(** [fs.read] unpacks exactly one positional string. *)
Lemma UnpackPositionalArgs_one fnname path :
  unpack.UnpackPositionalArgs fnname [starlark.String path] [] 1 [starlark.String ""]
  = inr [starlark.String path].
Proof. reflexivity. Qed.

(** C10. [fs.read] of a path the sandbox accepts: when reading fails
    because the file does not exist the call returns [None] and no error;
    every other failure of the read is returned as the error, with no
    value. *)
Theorem fs_read_missing_file_is_None path :
  IsPathValid path = true ->
  (forall err,
      os_ReadFile path = inl err -> external.IsNotExist err = true ->
      external.getStarlarkFSRead [starlark.String path] []
      = ([ReadFile path], Return (Some starlark.None) None)) /\
  (forall err,
      os_ReadFile path = inl err -> external.IsNotExist err = false ->
      external.getStarlarkFSRead [starlark.String path] []
      = ([ReadFile path], Return None (Some err))).
Proof.
  intros Hvalid. unfold external.getStarlarkFSRead.
  rewrite UnpackPositionalArgs_one, Hvalid. simpl.
  split; intros err -> ->; reflexivity.
Qed.

Lemma JoinQASubKeys_two Delim root id :
  common.JoinQASubKeys Delim [root; id] = root +:+ Delim +:+ id.
Proof. reflexivity. Qed.

(** C9. For a call of [query] whose arguments unpack and decode to a
    problem: an empty id is an error and nothing is asked; otherwise
    every problem handed to the QA engine carries the id itself when it
    starts with the root key and [<root><delimiter><id>] when it does
    not; and the problem is handed over, once, whenever no validation
    function is named or the named one is a function of the script. *)
Theorem query_normalises_id StarGlobals args kwargs prob validation :
  queryProblem args kwargs = Some (prob, validation) ->
  let r := external.getStarlarkQuery StarGlobals args kwargs in
  (qatypes.ID prob = "" ->
   r = ([], Return (Some starlark.None)
              (Some (Errorf "the key 'id' is missing from the question object %+v" [])))) /\
  (qatypes.ID prob <> "" ->
   forall p, p ∈ fetched (fst r) -> qatypes.ID p = normalisedID (qatypes.ID prob)) /\
  (qatypes.ID prob <> "" ->
   validation = "" \/ (exists name n, StarGlobals !! validation = Some (starlark.Function name n)) ->
   exists p, fetched (fst r) = [p] /\ qatypes.ID p = normalisedID (qatypes.ID prob)) /\
  (String.prefix BaseKey (qatypes.ID prob) = true ->
   normalisedID (qatypes.ID prob) = qatypes.ID prob) /\
  (String.prefix BaseKey (qatypes.ID prob) = false ->
   normalisedID (qatypes.ID prob) = common.JoinQASubKeys Delim [BaseKey; qatypes.ID prob]).
Proof.
  unfold queryProblem, external.getStarlarkQuery. cbv zeta.
  destruct (unpack.UnpackPositionalArgs external.qaFnName args kwargs 1
              [starlark.Dict []; starlark.String ""]) as [err|vars]; [discriminate|].
  destruct vars as [|[| | | |elems|items|] [|[| | |validation'| | |] [|? ?]]]; try discriminate.
  destruct (starutil_Unmarshal (starlark.Dict items)) as [err|argI]; [discriminate|].
  destruct (problemFromInterface argI) as [err|prob']; [discriminate|].
  intros [= -> ->].
  assert (Hnorm : (if negb (String.prefix BaseKey (qatypes.ID prob))
                   then common.JoinQASubKeys Delim [BaseKey; qatypes.ID prob]
                   else qatypes.ID prob) = normalisedID (qatypes.ID prob)).
  { unfold normalisedID. rewrite JoinQASubKeys_two.
    now destruct (String.prefix BaseKey (qatypes.ID prob)). }
  rewrite Hnorm.
  split; [|split; [|split; [|split]]].
  - intros ->. reflexivity.
  - intros Hid p. apply String.eqb_neq in Hid. rewrite Hid.
    destruct (negb (String.eqb validation "")).
    + destruct (StarGlobals !! validation) as [[| | | | | |name n]|]; simpl;
        try (intros Hin; now inversion Hin).
      destruct (qaengine_FetchAnswer _) as [?|[?|[?|?]]]; simpl;
        intros Hin; apply list_elem_of_singleton in Hin; now subst.
    + destruct (qaengine_FetchAnswer _) as [?|[?|[?|?]]]; simpl;
        intros Hin; apply list_elem_of_singleton in Hin; now subst.
  - intros Hid Hval. apply String.eqb_neq in Hid. rewrite Hid.
    destruct Hval as [->|(name & n & Hfn)].
    + simpl. destruct (qaengine_FetchAnswer _) as [?|[?|[?|?]]]; simpl;
        eexists; split; reflexivity.
    + rewrite Hfn. destruct (negb (String.eqb validation ""));
        destruct (qaengine_FetchAnswer _) as [?|[?|[?|?]]]; simpl;
        eexists; split; reflexivity.
  - intros Hp. unfold normalisedID. now rewrite Hp.
  - intros Hp. unfold normalisedID. now rewrite Hp, JoinQASubKeys_two.
Qed.
End script_claims.

(** The spec's scenario for C9: [query({id: "b"})] asks the engine about
    ["move2kube.b"], and an id that already starts with the root key is
    asked about as it is. *)
Lemma query_normalises_id_witness :
  fetched (fst (external.getStarlarkQuery (sh := demoScriptHost) ∅
                  [starlark.Dict [(starlark.String "id", starlark.String "b")]] []))
  = [qatypes.mkProblem "move2kube.b" "Input" "" None] /\
  normalisedID (sh := demoScriptHost) "move2kube.a.b" = "move2kube.a.b".
Proof.
  destruct (query_normalises_id (sh := demoScriptHost) ∅
              [starlark.Dict [(starlark.String "id", starlark.String "b")]] []
              (qatypes.mkProblem "b" "" "" None) "" eq_refl)
    as (_ & _ & Hasked & _ & _).
  destruct (Hasked ltac:(discriminate) (or_introl eq_refl)) as (p & Hp & _).
  split; [|reflexivity].
  rewrite Hp. vm_compute in Hp. congruence.
Defined.

(** C10 at work: the demo file system has no file [/tmp/src/nope], and
    reading [/tmp/src] itself fails for another reason. *)
Lemma fs_read_missing_file_is_None_witness :
  external.getStarlarkFSRead (sh := demoScriptHost) [starlark.String "/tmp/src/nope"] []
  = ([ReadFile "/tmp/src/nope"], Return (Some starlark.None) None) /\
  external.getStarlarkFSRead (sh := demoScriptHost) [starlark.String "/tmp/src"] []
  = ([ReadFile "/tmp/src"],
     Return None (Some (PathError "read" "/tmp/src" (ErrOther "is a directory")))).
Proof.
  split.
  - apply (proj1 (fs_read_missing_file_is_None (sh := demoScriptHost) "/tmp/src/nope" eq_refl)
             (PathError "open" "/tmp/src/nope" ErrNotExist)); reflexivity.
  - apply (proj2 (fs_read_missing_file_is_None (sh := demoScriptHost) "/tmp/src" eq_refl)
             (PathError "read" "/tmp/src" (ErrOther "is a directory"))); reflexivity.
Defined.

Section sandbox_claims.
Context {sh : ScriptHost}.

(** A rejected path stops the call before it touches the file system. *)
Lemma fs_rejects member args kwargs qs q :
  checkedPaths member args kwargs = Some qs ->
  q ∈ qs ->
  IsPathValid q = false ->
  exists e,
    external.fs member args kwargs = ([], Return (Some starlark.None) (Some e)) /\
    (if requiredArgumentMissing member args kwargs
     then e = missingError member
     else sandboxError member qs e).
Proof.
  revert qs q. destruct member; open_call; intros qs q Hqs Hq Hv; try discriminate.
  all: simpl in Hqs; try discriminate.
  all: inversion Hqs; subst; clear Hqs.
  all: try (apply list_elem_of_singleton in Hq as ->; rewrite Hv; simpl;
            try destruct (String.eqb _ ""); simpl;
            eexists; (split; [reflexivity|]); simpl; try reflexivity;
            try (eexists; split; [left|split; [exact Hv | reflexivity]])).
  destruct (IsPathValid (filepath_Clean s)) eqn:Hb; simpl.
  - apply elem_of_cons in Hq as [->|Hq]; [congruence|].
    apply list_elem_of_singleton in Hq as ->. rewrite Hv. simpl.
    eexists. split; [reflexivity|].
    exists (filepath_Clean s0). split; [right; left|]. split; [exact Hv|]. now right.
  - eexists. split; [reflexivity|].
    exists (filepath_Clean s). split; [left|]. split; [exact Hb|]. now left.
Qed.

(** A call that returns without an error has had all its paths accepted. *)
Lemma fs_succeeds member args kwargs evs v :
  external.fs member args kwargs = (evs, Return v None) ->
  exists qs,
    checkedPaths member args kwargs = Some qs /\
    forall q, q ∈ qs -> IsPathValid q = true.
Proof.
  destruct (checkedPaths member args kwargs) as [qs|] eqn:Hqs.
  - intros Hcall. exists qs. split; [reflexivity|].
    intros q Hq. destruct (IsPathValid q) eqn:Hv; [reflexivity|].
    destruct (fs_rejects member args kwargs qs q Hqs Hq Hv) as (e & He & _).
    rewrite He in Hcall. discriminate Hcall.
  - revert Hqs. destruct member; open_call; intros Hqs Hcall;
      try discriminate Hqs; try discriminate Hcall.
Qed.

(** Whatever a call does to the file system, it does after all its paths
    were accepted. *)
Lemma fs_events member args kwargs ev :
  ev ∈ fst (external.fs member args kwargs) ->
  exists qs,
    checkedPaths member args kwargs = Some qs /\
    forall q, q ∈ qs -> IsPathValid q = true.
Proof.
  destruct (checkedPaths member args kwargs) as [qs|] eqn:Hqs.
  - intros Hev. exists qs. split; [reflexivity|].
    intros q Hq. destruct (IsPathValid q) eqn:Hv; [reflexivity|].
    destruct (fs_rejects member args kwargs qs q Hqs Hq Hv) as (e & He & _).
    rewrite He in Hev. inversion Hev.
  - revert Hqs. destruct member; open_call; intros Hqs Hev;
      try discriminate Hqs; simpl in Hev; try (now inversion Hev).
Qed.

(** C1 (amended). For every member of the [fs] module and every path a
    call submits to [IsPathValid] (the path argument itself; for
    [path_rel] the cleaned path argument, for [path_join] the joined
    path): if the path is rejected, the call returns an error and no file
    system operation is performed; that error is the invalid-path error of
    the member, unless the argument the member insists on first is
    missing (an empty [filepath], [kind] or [xmlpathexpr]), which is
    reported instead.  A call returns without error, or performs any file
    system operation, only when every such path was accepted. *)
Theorem fs_sandbox member args kwargs :
  (forall qs q,
      checkedPaths member args kwargs = Some qs -> q ∈ qs -> IsPathValid q = false ->
      exists e,
        external.fs member args kwargs = ([], Return (Some starlark.None) (Some e)) /\
        (if requiredArgumentMissing member args kwargs
         then e = missingError member
         else sandboxError member qs e)) /\
  (forall evs v,
      external.fs member args kwargs = (evs, Return v None) ->
      exists qs,
        checkedPaths member args kwargs = Some qs /\
        forall q, q ∈ qs -> IsPathValid q = true) /\
  (forall ev,
      ev ∈ fst (external.fs member args kwargs) ->
      exists qs,
        checkedPaths member args kwargs = Some qs /\
        forall q, q ∈ qs -> IsPathValid q = true).
Proof.
  split; [|split].
  - intros qs q. apply fs_rejects.
  - apply fs_succeeds.
  - apply fs_events.
Qed.
End sandbox_claims.

(** C1, as stated, fails: [get_yamls_with_type_meta] checks that [kind]
    is not empty before it validates the path, so for the rejected path
    [/etc] and an empty kind the error is not the invalid-path error. *)
Lemma fs_rejected_path_other_error :
  pathArguments (sh := demoScriptHost) external.fs_get_yamls_with_type_meta
    [starlark.String "/etc"; starlark.String ""] [] = Some ["/etc"] /\
  IsPathValid (ScriptHost := demoScriptHost) "/etc" = false /\
  external.fs (sh := demoScriptHost) external.fs_get_yamls_with_type_meta
    [starlark.String "/etc"; starlark.String ""] []
  = ([], Return (Some starlark.None)
           (Some (Errorf "kind is missing in find parameters" []))) /\
  Errorf "kind is missing in find parameters" [] <> Errorf "invalid path" [].
Proof. repeat split; try (vm_compute; reflexivity). discriminate. Qed.

(** The spec's scenario for C1: [fs.read("/etc/passwd")] from a
    transformer whose roots are [/tmp/src] and [/tmp/out] fails with
    [invalid path] and reads nothing. *)
Lemma fs_sandbox_witness :
  external.fs (sh := demoScriptHost) external.fs_read [starlark.String "/etc/passwd"] []
  = ([], Return (Some starlark.None) (Some (Errorf "invalid path" []))).
Proof.
  destruct (proj1 (fs_sandbox (sh := demoScriptHost) external.fs_read
                     [starlark.String "/etc/passwd"] [])
              ["/etc/passwd"] "/etc/passwd" eq_refl ltac:(left) eq_refl)
    as (e & Hcall & He).
  simpl in He. now subst e.
Defined.

(* ===================================================================== *)
(** ** Helpers of common/utils.go *)
(* ===================================================================== *)

Section generic_facts.
Context {T : Type}.
Implicit Types (vs : list T) (condition : T -> bool).

Lemma Filter_filter vs condition :
  utils.Filter vs condition = List.filter condition vs.
Proof.
  unfold utils.Filter.
  enough (Hgen : forall acc,
             fold_left (fun ws v => if condition v then ws ++ [v] else ws) vs acc
             = acc ++ List.filter condition vs) by apply (Hgen []).
  induction vs as [|v rest IH]; intros acc; simpl.
  - now rewrite app_nil_r.
  - rewrite IH. destruct (condition v); [|reflexivity].
    now rewrite <- app_assoc.
Qed.

Lemma FindIndex_from_spec i vs condition :
  (0 <= i)%Z ->
  let r := utils.FindIndex_from i vs condition in
  (r = (-1)%Z /\ forall v, v ∈ vs -> condition v = false) \/
  (exists n v,
      r = (i + Z.of_nat n)%Z /\ vs !! n = Some v /\ condition v = true /\
      forall m w, m < n -> vs !! m = Some w -> condition w = false).
Proof.
  revert i. induction vs as [|v rest IH]; intros i Hi; simpl.
  - left. split; [reflexivity|]. intros v Hv. inversion Hv.
  - destruct (condition v) eqn:Hc.
    + right. exists 0, v. repeat split; [lia| exact Hc |]. intros m w Hm. lia.
    + destruct (IH (i + 1)%Z ltac:(lia)) as [[Hr Hall]|(n & w & Hr & Hn & Hw & Hbefore)].
      * left. split; [exact Hr|]. intros u Hu.
        apply elem_of_cons in Hu as [->|Hu]; [exact Hc | now apply Hall].
      * right. exists (S n), w. repeat split; [lia | exact Hn | exact Hw |].
        intros m u Hm Hu. destruct m as [|m]; simpl in Hu.
        -- now inversion Hu; subst.
        -- apply (Hbefore m u); [lia | exact Hu].
Qed.

(** X1. [FindIndex] returns [-1] exactly when no element satisfies the
    condition, which is exactly when [Filter] returns nothing; otherwise
    it returns an index within bounds whose element satisfies the
    condition and before which no element does. *)
Theorem FindIndex_first vs condition :
  let i := utils.FindIndex vs condition in
  (i = (-1)%Z <-> forall v, v ∈ vs -> condition v = false) /\
  (i = (-1)%Z <-> utils.Filter vs condition = []) /\
  (i <> (-1)%Z ->
   (0 <= i < Z.of_nat (length vs))%Z /\
   (exists v, vs !! Z.to_nat i = Some v /\ condition v = true) /\
   forall m w, m < Z.to_nat i -> vs !! m = Some w -> condition w = false).
Proof.
  cbv zeta. unfold utils.FindIndex.
  assert (Hnone : (forall v, v ∈ vs -> condition v = false)
                  <-> utils.Filter vs condition = []).
  { rewrite Filter_filter. split.
    - intros Hall. induction vs as [|v rest IH]; [reflexivity|]. simpl.
      rewrite (Hall v) by left. apply IH. intros u Hu. apply Hall. now right.
    - intros Hnil v Hv. destruct (condition v) eqn:Hc; [|reflexivity].
      assert (Hin : In v (List.filter condition vs)).
      { apply filter_In. split; [now apply list_elem_of_In | exact Hc]. }
      rewrite Hnil in Hin. destruct Hin. }
  destruct (FindIndex_from_spec 0%Z vs condition ltac:(lia))
    as [[Hr Hall]|(n & v & Hr & Hn & Hv & Hbefore)]; cbv zeta in Hr; rewrite Hr.
  - split; [tauto|]. split; [tauto|]. intros Hne. contradiction.
  - assert (Hlt : n < length vs) by (eapply lookup_lt_Some; exact Hn).
    assert (Hex : ~ (forall u, u ∈ vs -> condition u = false)).
    { intros Hall. rewrite (Hall v) in Hv; [discriminate|].
      eapply list_elem_of_lookup_2. exact Hn. }
    split; [split; [lia | tauto]|]. split; [split; [lia | tauto]|].
    intros _. replace (Z.to_nat (0 + Z.of_nat n)) with n by lia.
    split; [lia|]. split; [now exists v | exact Hbefore].
Qed.
End generic_facts.

Section slice_laws.
Context {C : Type} `{EqDecision C}.
Implicit Types (xs ys zs : list C).

(** X2. [MergeSlices(slice1, slice2)] is [slice1], as it is, followed by
    the elements of [slice2] that [slice1] lacks, each once and in the
    order [slice2] has them; merging [slice2] in a second time changes
    nothing. *)
Theorem MergeSlices_appends_missing xs ys :
  (exists zs,
      common.MergeSlices xs ys = xs ++ zs /\
      NoDup zs /\
      sublist zs ys /\
      (forall z, z ∈ zs <-> z ∈ ys /\ z ∉ xs)) /\
  common.MergeSlices (common.MergeSlices xs ys) ys = common.MergeSlices xs ys.
Proof.
  split.
  - unfold common.MergeSlices. revert xs.
    induction ys as [|y ys IH]; intros xs.
    + exists []. rewrite AppendIfNotPresent_nil, app_nil_r.
      split; [reflexivity|]. split; [apply NoDup_nil_2|]. split; [apply sublist_nil|].
      intros z. split; [intros Hz; inversion Hz | intros [Hz _]; inversion Hz].
    + rewrite AppendIfNotPresent_cons.
      destruct (common.IsPresent xs y) eqn:Hp.
      * apply IsPresent_true in Hp.
        destruct (IH xs) as (zs & Heq & Hnd & Hsub & Hin).
        exists zs. split; [exact Heq|]. split; [exact Hnd|].
        split; [now apply sublist_cons|].
        intros z. rewrite Hin, elem_of_cons. split; [tauto|].
        intros [[->|Hz] Hx]; [contradiction | tauto].
      * apply IsPresent_false in Hp.
        destruct (IH (xs ++ [y])) as (zs & Heq & Hnd & Hsub & Hin).
        exists (y :: zs). split; [now rewrite Heq, <- app_assoc|].
        split; [|split; [now apply sublist_skip|]].
        -- apply NoDup_cons. split; [|exact Hnd].
           intros Hy. apply Hin in Hy as [_ Hy]. apply Hy. apply elem_of_app. right. left.
        -- intros z. rewrite !elem_of_cons, Hin, elem_of_app, list_elem_of_singleton.
           split.
           ++ intros [->|[Hz Hx]]; [tauto|]. split; [tauto|]. intros Hzx. apply Hx. now left.
           ++ intros [[->|Hz] Hx]; [now left|].
              destruct (decide (z = y)) as [->|Hne]; [now left|]. right.
              split; [exact Hz|]. intros [Hzx| ->]; contradiction.
  - apply AppendIfNotPresent_absorb. intros y Hy. apply elem_of_MergeSlices. now right.
Qed.
End slice_laws.

Section string_facts.
Implicit Types (s t : string) (c sep : ascii).

Lemma bytes_app s t : gostrings.bytes (s +:+ t) = gostrings.bytes s ++ gostrings.bytes t.
Proof. induction s as [|c s IH]; simpl; [reflexivity | now rewrite IH]. Qed.

Lemma Split_not_nil s sep : gostrings.Split s sep <> [].
Proof.
  destruct s as [|c s]; simpl; [discriminate|].
  destruct (bool_decide (c = sep)); [discriminate|].
  destruct (gostrings.Split s sep); discriminate.
Qed.

(** A string without the separator is one piece. *)
Lemma Split_whole s sep : (sep ∉ gostrings.bytes s) -> gostrings.Split s sep = [s].
Proof.
  induction s as [|c s IH]; simpl; intros Hnot; [reflexivity|].
  rewrite bool_decide_eq_false_2 by (intros ->; apply Hnot; left).
  rewrite IH; [reflexivity|]. intros Hin. apply Hnot. now right.
Qed.

(** Splitting takes the pieces of what precedes a separator, then the
    pieces of what follows it. *)
Lemma Split_at s t sep :
  gostrings.Split (s +:+ String sep t) sep = gostrings.Split s sep ++ gostrings.Split t sep.
Proof.
  induction s as [|c s IH]; simpl.
  - now rewrite bool_decide_eq_true_2.
  - destruct (bool_decide (c = sep)); [now rewrite IH|].
    rewrite IH. pose proof (Split_not_nil s sep) as Hne.
    now destruct (gostrings.Split s sep).
Qed.

(** No piece holds the separator, and a piece holds only bytes of the
    string. *)
Lemma Split_pieces s sep piece :
  piece ∈ gostrings.Split s sep ->
  (sep ∉ gostrings.bytes piece) /\
  forall c, c ∈ gostrings.bytes piece -> c ∈ gostrings.bytes s.
Proof.
  revert piece. induction s as [|c s IH]; simpl; intros piece Hin.
  - apply list_elem_of_singleton in Hin as ->. simpl.
    split; [apply not_elem_of_nil | intros c Hc; inversion Hc].
  - destruct (bool_decide (c = sep)) eqn:Hc.
    + apply elem_of_cons in Hin as [->|Hin].
      * split; [apply not_elem_of_nil | intros c' Hc'; inversion Hc'].
      * destruct (IH piece Hin) as [Hsep Hsub]. split; [exact Hsep|].
        intros c' Hc'. right. now apply Hsub.
    + apply bool_decide_eq_false in Hc.
      pose proof (Split_not_nil s sep) as Hne.
      destruct (gostrings.Split s sep) as [|first pieces]; [contradiction|].
      apply elem_of_cons in Hin as [->|Hin].
      * destruct (IH first ltac:(left)) as [Hsep Hsub]. simpl. split.
        -- intros Hin. apply elem_of_cons in Hin as [->|Hin]; [now apply Hc | now apply Hsep].
        -- intros c' Hc'. apply elem_of_cons in Hc' as [->|Hc']; [left | right; now apply Hsub].
      * destruct (IH piece ltac:(now right)) as [Hsep Hsub]. split; [exact Hsep|].
        intros c' Hc'. right. now apply Hsub.
Qed.

Lemma last_elem {A} (l : list A) d : l <> [] -> List.last l d ∈ l.
Proof.
  induction l as [|x l IH]; [contradiction|]. intros _.
  destruct l as [|y l]; [left|]. right. apply IH. discriminate.
Qed.

Lemma last_app_ne {A} (l k : list A) d : k <> [] -> List.last (l ++ k) d = List.last k d.
Proof.
  intros Hk. induction l as [|x l IH]; [reflexivity|].
  simpl. destruct (l ++ k) eqn:Hlk; [|exact IH].
  apply app_eq_nil in Hlk as [_ ->]. contradiction.
Qed.

(** X3. Neither the image name nor the tag that [GetImageNameAndTag]
    returns holds a slash or a colon. *)
Theorem GetImageNameAndTag_no_separator image :
  let (imageName, tag) := utils.GetImageNameAndTag image in
  ("/"%char ∉ gostrings.bytes imageName) /\ (":"%char ∉ gostrings.bytes imageName) /\
  ("/"%char ∉ gostrings.bytes tag) /\ ":"%char ∉ gostrings.bytes tag.
Proof.
  unfold utils.GetImageNameAndTag. cbv zeta.
  set (parts := gostrings.Split image "/"%char).
  set (final := List.last parts EmptyString).
  assert (Hfinal : "/"%char ∉ gostrings.bytes final).
  { apply (Split_pieces image "/"%char final). apply last_elem. apply Split_not_nil. }
  assert (Hpiece : forall piece,
             piece ∈ gostrings.Split final ":"%char ->
             ("/"%char ∉ gostrings.bytes piece) /\ ":"%char ∉ gostrings.bytes piece).
  { intros piece Hin. destruct (Split_pieces final ":"%char piece Hin) as [Hsep Hsub].
    split; [|exact Hsep]. intros Hslash. apply Hfinal. now apply Hsub. }
  pose proof (Split_not_nil final ":"%char) as Hne.
  destruct (gostrings.Split final ":"%char) as [|imageName rest]; [contradiction|].
  simpl List.hd.
  destruct (Hpiece imageName ltac:(left)) as [Hn1 Hn2].
  split; [exact Hn1|]. split; [exact Hn2|].
  destruct rest as [|tag rest]; simpl.
  - split; intros Hin; vm_compute in Hin;
      repeat (apply elem_of_cons in Hin as [Hin|Hin]; [discriminate Hin|]); inversion Hin.
  - apply (Hpiece tag). right. left.
Qed.

(** X4. An image reference [repo/name:tag] gives back [name] and [tag],
    whatever the repository part holds (slashes, a port); without a tag
    it gives [latest], with or without a repository part. *)
Theorem GetImageNameAndTag_reads_back repo imageName tag :
  ("/"%char ∉ gostrings.bytes imageName) -> (":"%char ∉ gostrings.bytes imageName) ->
  ("/"%char ∉ gostrings.bytes tag) -> (":"%char ∉ gostrings.bytes tag) ->
  utils.GetImageNameAndTag (repo +:+ "/" +:+ imageName +:+ ":" +:+ tag) = (imageName, tag) /\
  utils.GetImageNameAndTag (imageName +:+ ":" +:+ tag) = (imageName, tag) /\
  utils.GetImageNameAndTag (repo +:+ "/" +:+ imageName) = (imageName, "latest") /\
  utils.GetImageNameAndTag imageName = (imageName, "latest").
Proof.
  intros Hn1 Hn2 Ht1 Ht2.
  assert (Hnt : "/"%char ∉ gostrings.bytes (imageName +:+ ":" +:+ tag)).
  { rewrite bytes_app. simpl. rewrite elem_of_app, elem_of_cons.
    intros [H0|[H0|H0]]; [now apply Hn1 | discriminate H0 | now apply Ht1]. }
  assert (Htagged : forall final,
             gostrings.Split final ":"%char = [imageName; tag] ->
             (let imageAndTag := gostrings.Split final ":"%char in
              (List.hd EmptyString imageAndTag,
               if length imageAndTag =? 1 then "latest"
               else List.nth 1 imageAndTag EmptyString)) = (imageName, tag)).
  { intros final ->. reflexivity. }
  assert (Hsplit : gostrings.Split (imageName +:+ ":" +:+ tag) ":"%char = [imageName; tag]).
  { change (imageName +:+ ":" +:+ tag) with (imageName +:+ String ":"%char tag).
    rewrite Split_at, !Split_whole by assumption. reflexivity. }
  unfold utils.GetImageNameAndTag. cbv zeta. repeat split.
  - change (repo +:+ "/" +:+ imageName +:+ ":" +:+ tag)
      with (repo +:+ String "/"%char (imageName +:+ ":" +:+ tag)).
    rewrite Split_at, (Split_whole (imageName +:+ ":" +:+ tag)) by exact Hnt.
    rewrite last_app_ne by discriminate. simpl List.last.
    now apply Htagged.
  - rewrite (Split_whole (imageName +:+ ":" +:+ tag)) by exact Hnt. simpl List.last.
    now apply Htagged.
  - change (repo +:+ "/" +:+ imageName) with (repo +:+ String "/"%char imageName).
    rewrite Split_at, (Split_whole imageName "/"%char) by exact Hn1.
    rewrite last_app_ne by discriminate. simpl List.last.
    now rewrite (Split_whole imageName ":"%char) by exact Hn2.
  - rewrite (Split_whole imageName "/"%char) by exact Hn1. simpl List.last.
    now rewrite (Split_whole imageName ":"%char) by exact Hn2.
Qed.

Lemma ReplaceAll_length s old new :
  String.length (gostrings.ReplaceAll s old new) = String.length s.
Proof. induction s as [|c s IH]; simpl; [reflexivity | now rewrite IH]. Qed.

Lemma ReplaceAll_absent s old new :
  (old ∉ gostrings.bytes s) -> gostrings.ReplaceAll s old new = s.
Proof.
  induction s as [|c s IH]; simpl; intros Hnot; [reflexivity|].
  rewrite bool_decide_eq_false_2 by (intros ->; apply Hnot; left).
  rewrite IH; [reflexivity|]. intros Hin. apply Hnot. now right.
Qed.

Lemma ReplaceAll_gone s old new :
  new <> old -> old ∉ gostrings.bytes (gostrings.ReplaceAll s old new).
Proof.
  intros Hne. induction s as [|c s IH]; simpl; [apply not_elem_of_nil|].
  intros Hin. apply elem_of_cons in Hin as [Hin|Hin]; [|now apply IH].
  destruct (bool_decide (c = old)) eqn:Hc; [now apply Hne|].
  apply bool_decide_eq_false in Hc. now apply Hc.
Qed.

Lemma ReplaceAll_back s old new :
  gostrings.ReplaceAll (gostrings.ReplaceAll s old new) new old
  = gostrings.ReplaceAll s new old.
Proof.
  induction s as [|c s IH]; simpl; [reflexivity|]. rewrite IH. f_equal.
  destruct (bool_decide (c = old)) eqn:Hc.
  - rewrite bool_decide_eq_true_2 by reflexivity.
    apply bool_decide_eq_true in Hc. subst c.
    now destruct (bool_decide (old = new)) eqn:Hon; [apply bool_decide_eq_true in Hon|].
  - reflexivity.
Qed.

(** X5. [GetUnixPath] leaves no backslash and [GetWindowsPath] no slash,
    both keep the length; a path without backslashes survives the round
    trip through [GetWindowsPath] and back, and in general going to
    Windows form and back is the same as going to Unix form. *)
Theorem GetUnixPath_GetWindowsPath path :
  ("\"%char ∉ gostrings.bytes (utils.GetUnixPath path)) /\
  ("/"%char ∉ gostrings.bytes (utils.GetWindowsPath path)) /\
  String.length (utils.GetUnixPath path) = String.length path /\
  String.length (utils.GetWindowsPath path) = String.length path /\
  utils.GetUnixPath (utils.GetWindowsPath path) = utils.GetUnixPath path /\
  utils.GetWindowsPath (utils.GetUnixPath path) = utils.GetWindowsPath path /\
  (("\"%char ∉ gostrings.bytes path) ->
   utils.GetUnixPath path = path /\ utils.GetUnixPath (utils.GetWindowsPath path) = path).
Proof.
  unfold utils.GetUnixPath, utils.GetWindowsPath.
  split; [apply ReplaceAll_gone; discriminate|].
  split; [apply ReplaceAll_gone; discriminate|].
  split; [apply ReplaceAll_length|]. split; [apply ReplaceAll_length|].
  split; [apply ReplaceAll_back|]. split; [apply ReplaceAll_back|].
  intros Hnot. rewrite ReplaceAll_back, ReplaceAll_absent by exact Hnot. now split.
Qed.
End string_facts.

(** An image reference with a registry port, a repository, a name and a
    tag; and a bare name. *)
Lemma GetImageNameAndTag_reads_back_witness :
  utils.GetImageNameAndTag "localhost:5000/team/web:v1" = ("web", "v1") /\
  utils.GetImageNameAndTag "web" = ("web", "latest").
Proof.
  assert (Hfree : forall (c : ascii) (s : string),
             bool_decide (c ∈ gostrings.bytes s) = false -> c ∉ gostrings.bytes s).
  { intros c s Hb Hin. apply bool_decide_eq_false in Hb. contradiction. }
  destruct (GetImageNameAndTag_reads_back "localhost:5000/team" "web" "v1")
    as (Hfull & _ & _ & Hbare); try (apply Hfree; vm_compute; reflexivity).
  split; [exact Hfull | exact Hbare].
Defined.

Section quote_facts.
Implicit Types (s r t : string) (c : ascii).

Lemma string_length_app s t : String.length (s +:+ t) = String.length s + String.length t.
Proof. induction s as [|c s IH]; simpl; [reflexivity | now rewrite IH]. Qed.

Lemma substring_front s t : String.substring 0 (String.length s) (s +:+ t) = s.
Proof. induction s as [|c s IH]; simpl; [now destruct t | now rewrite IH]. Qed.

Lemma substring_whole s : String.substring 0 (String.length s) s = s.
Proof. induction s as [|c s IH]; simpl; [reflexivity | now rewrite IH]. Qed.

Lemma substring_back s t :
  String.substring (String.length s) (String.length t) (s +:+ t) = t.
Proof. induction s as [|c s IH]; simpl; [apply substring_whole | exact IH]. Qed.

Lemma HasPrefix_one s c :
  gostrings.HasPrefix s (String c EmptyString) = true <-> exists r, s = String c r.
Proof.
  unfold gostrings.HasPrefix. destruct s as [|a s]; simpl.
  - split; [discriminate | intros [r Hr]; discriminate].
  - destruct (ascii_dec c a) as [->|Hne].
    + split; [now exists s | intros _; now destruct s].
    + split; [discriminate | intros [r [= -> _]]; contradiction].
Qed.

Lemma HasSuffix_app s t : gostrings.HasSuffix (s +:+ t) t = true.
Proof.
  unfold gostrings.HasSuffix. rewrite string_length_app.
  replace (String.length s + String.length t - String.length t) with (String.length s) by lia.
  rewrite substring_back, String.eqb_refl.
  rewrite andb_true_r. apply Nat.leb_le. lia.
Qed.

Lemma HasSuffix_one s c :
  gostrings.HasSuffix s (String c EmptyString) = true
  <-> exists r, s = r +:+ String c EmptyString.
Proof.
  split; [|intros [r ->]; apply HasSuffix_app].
  unfold gostrings.HasSuffix. induction s as [|a s IH]; [discriminate|].
  cbn [String.length]. intros Hs. apply andb_true_iff in Hs as [_ Hs].
  apply String.eqb_eq in Hs.
  destruct s as [|b s].
  - simpl in Hs. exists EmptyString. simpl. now inversion Hs.
  - destruct IH as [r Hr].
    + apply andb_true_iff. split; [reflexivity|]. apply String.eqb_eq.
      cbn [String.length] in Hs |- *.
      replace (S (S (String.length s)) - 1) with (S (String.length s)) in Hs by lia.
      replace (S (String.length s) - 1) with (String.length s) by lia. exact Hs.
    + exists (String a r). simpl. now rewrite Hr.
Qed.

Lemma TrimPrefix_one c t : gostrings.TrimPrefix (String c t) (String c EmptyString) = t.
Proof.
  unfold gostrings.TrimPrefix.
  rewrite (proj2 (HasPrefix_one (String c t) c)) by now exists t.
  cbn [String.length]. replace (S (String.length t) - 1) with (String.length t) by lia.
  simpl. apply substring_whole.
Qed.

Lemma TrimSuffix_app s t : gostrings.TrimSuffix (s +:+ t) t = s.
Proof.
  unfold gostrings.TrimSuffix. rewrite HasSuffix_app, string_length_app.
  replace (String.length s + String.length t - String.length t) with (String.length s) by lia.
  apply substring_front.
Qed.

(** What stripping does for one quote character. *)
Lemma strip_with c s :
  gostrings.HasPrefix s (String c EmptyString) && gostrings.HasSuffix s (String c EmptyString)
  = true ->
  let stripped :=
    gostrings.TrimSuffix (gostrings.TrimPrefix s (String c EmptyString)) (String c EmptyString) in
  s = String c EmptyString +:+ stripped +:+ String c EmptyString \/
  (s = String c EmptyString /\ stripped = EmptyString).
Proof.
  intros Hq. apply andb_true_iff in Hq as [Hp Hs]. cbv zeta.
  apply HasPrefix_one in Hp as [t ->]. rewrite TrimPrefix_one.
  apply HasSuffix_one in Hs as [r Hr].
  destruct r as [|a r]; simpl in Hr.
  - right. inversion Hr; subst. split; reflexivity.
  - left. inversion Hr; subst. rewrite TrimSuffix_app. reflexivity.
Qed.

Lemma app_one c t : String c EmptyString +:+ t = String c t.
Proof. reflexivity. Qed.

Lemma append_last_inj (a b : string) x y :
  a +:+ String x EmptyString = b +:+ String y EmptyString -> x = y.
Proof.
  revert b. induction a as [|a0 a IHa]; intros [|b0 b] Hab; simpl in Hab.
  - now inversion Hab.
  - inversion Hab as [[Hx Hb]]. destruct b; discriminate Hb.
  - inversion Hab as [[Hx Hb]]. destruct a; discriminate Hb.
  - inversion Hab. eapply IHa. eassumption.
Qed.

(** X6. [StripQuotes] takes one layer of matching quotes off: a string
    between two double quotes, or between two single quotes, comes back
    as it was, whatever it holds; quotes that do not match stay.  In
    general the result is the string itself, or what stands between its
    two matching quotes, or nothing when the string is a lone quote;
    the result is never longer than the string. *)
Theorem StripQuotes_one_layer s :
  (forall q, q = utils.dquote \/ q = utils.squote -> utils.StripQuotes (q +:+ s +:+ q) = s) /\
  utils.StripQuotes (utils.dquote +:+ s +:+ utils.squote)
  = utils.dquote +:+ s +:+ utils.squote /\
  utils.StripQuotes (utils.squote +:+ s +:+ utils.dquote)
  = utils.squote +:+ s +:+ utils.dquote /\
  (utils.StripQuotes s = s \/
   exists q, (q = utils.dquote \/ q = utils.squote) /\
             (s = q +:+ utils.StripQuotes s +:+ q \/
              (s = q /\ utils.StripQuotes s = EmptyString))) /\
  String.length (utils.StripQuotes s) <= String.length s.
Proof.
  assert (Hgen : utils.StripQuotes s = s \/
                 exists q, (q = utils.dquote \/ q = utils.squote) /\
                           (s = q +:+ utils.StripQuotes s +:+ q \/
                            (s = q /\ utils.StripQuotes s = EmptyString))).
  { unfold utils.StripQuotes.
    destruct (gostrings.HasPrefix s utils.dquote && gostrings.HasSuffix s utils.dquote) eqn:Hd.
    - right. exists utils.dquote. split; [now left|]. now apply strip_with.
    - destruct (gostrings.HasPrefix s utils.squote && gostrings.HasSuffix s utils.squote) eqn:Hs.
      + right. exists utils.squote. split; [now right|]. now apply strip_with.
      + now left. }
  assert (Hmatch : forall c, gostrings.HasPrefix (String c (s +:+ String c EmptyString))
                               (String c EmptyString)
                             && gostrings.HasSuffix (String c (s +:+ String c EmptyString))
                                  (String c EmptyString) = true).
  { intros c. apply andb_true_iff. split.
    - apply HasPrefix_one. now eexists.
    - apply HasSuffix_one. now exists (String c s). }
  assert (Hstrip : forall c,
             gostrings.TrimSuffix
               (gostrings.TrimPrefix (String c (s +:+ String c EmptyString)) (String c EmptyString))
               (String c EmptyString) = s).
  { intros c. rewrite TrimPrefix_one. apply TrimSuffix_app. }
  split; [|split; [|split; [|split; [exact Hgen|]]]].
  - intros q [->| ->]; unfold utils.StripQuotes, utils.dquote, utils.squote.
    + rewrite !app_one. rewrite Hmatch. apply Hstrip.
    + rewrite !app_one.
      destruct (gostrings.HasPrefix _ (String "034" _)) eqn:Hp.
      * apply HasPrefix_one in Hp as [r Hr]. discriminate Hr.
      * cbn [andb]. rewrite Hmatch. apply Hstrip.
  - unfold utils.StripQuotes, utils.dquote, utils.squote. rewrite !app_one.
    destruct (gostrings.HasSuffix _ (String "034" _)) eqn:Hs.
    + apply HasSuffix_one in Hs as [r Hr]. exfalso.
      change (String "034" (s +:+ String "039" EmptyString))
        with (String "034" s +:+ String "039" EmptyString) in Hr.
      apply append_last_inj in Hr. discriminate Hr.
    + rewrite andb_false_r.
      destruct (gostrings.HasPrefix _ (String "039" _)) eqn:Hp; [|reflexivity].
      apply HasPrefix_one in Hp as [r Hr]. discriminate Hr.
  - unfold utils.StripQuotes, utils.dquote, utils.squote. rewrite !app_one.
    destruct (gostrings.HasPrefix _ (String "034" _)) eqn:Hp.
    + apply HasPrefix_one in Hp as [r Hr]. discriminate Hr.
    + cbn [andb].
      destruct (gostrings.HasSuffix _ (String "039" _)) eqn:Hs; [|now rewrite andb_false_r].
      apply HasSuffix_one in Hs as [r Hr]. exfalso.
      change (String "039" (s +:+ String "034" EmptyString))
        with (String "039" s +:+ String "034" EmptyString) in Hr.
      apply append_last_inj in Hr. discriminate Hr.
  - destruct Hgen as [->|(q & Hq & [Hs|[Hs ->]])]; [lia| |simpl; lia].
    rewrite Hs at 2. rewrite !string_length_app. lia.
Qed.
End quote_facts.
Section hidden_dir_facts.
Implicit Types (name s : string).

(** X7. [removeDollarPrefixFromHiddenDir] takes the dollar off a name
    that begins with [$.] or [$_] and changes no other name; its result
    never begins with [$.] or [$_], so a second application changes
    nothing. *)
Theorem removeDollarPrefixFromHiddenDir_once name :
  let r := utils.removeDollarPrefixFromHiddenDir name in
  gostrings.HasPrefix r "$." = false /\
  gostrings.HasPrefix r "$_" = false /\
  utils.removeDollarPrefixFromHiddenDir r = r /\
  utils.removeDollarPrefixFromHiddenDir ("$." +:+ name) = "." +:+ name /\
  utils.removeDollarPrefixFromHiddenDir ("$_" +:+ name) = "_" +:+ name /\
  (r = name \/ name = "$" +:+ r) /\
  (gostrings.HasPrefix name "$." = false -> gostrings.HasPrefix name "$_" = false -> r = name).
Proof.
  cbv zeta.
  assert (Hdrop : forall c t,
             String.substring 1 (String.length (String c t) - 1) (String c t) = t).
  { intros c t. cbn [String.length].
    replace (S (String.length t) - 1) with (String.length t) by lia.
    simpl. apply substring_whole. }
  assert (Hdot : forall name,
             utils.removeDollarPrefixFromHiddenDir ("$." +:+ name) = "." +:+ name).
  { clear name. intros name. unfold utils.removeDollarPrefixFromHiddenDir.
    change ("$." +:+ name) with (String "$" (String "." name)).
    change (gostrings.HasPrefix (String "$" (String "." name)) "$.") with (String.prefix "" name).
    replace (String.prefix "" name) with true by now destruct name.
    cbn [orb]. apply Hdrop. }
  assert (Hund : forall name,
             utils.removeDollarPrefixFromHiddenDir ("$_" +:+ name) = "_" +:+ name).
  { clear Hdot. clear name. intros name. unfold utils.removeDollarPrefixFromHiddenDir.
    change ("$_" +:+ name) with (String "$" (String "_" name)).
    change (gostrings.HasPrefix (String "$" (String "_" name)) "$_") with (String.prefix "" name).
    replace (String.prefix "" name) with true by now destruct name.
    rewrite orb_true_r. apply Hdrop. }
  assert (Hshape : forall p : ascii,
             gostrings.HasPrefix name (String "$" (String p EmptyString)) = true ->
             exists t, name = String "$" (String p t)).
  { intros p Hp. unfold gostrings.HasPrefix in Hp.
    destruct name as [|a [|b t]]; cbn [String.prefix] in Hp; try discriminate.
    - now destruct (ascii_dec "$" a).
    - destruct (ascii_dec "$" a) as [<-|]; [|discriminate].
      destruct (ascii_dec p b) as [<-|]; [|discriminate]. now exists t. }
  assert (Hfresh : forall (p q : ascii) t,
             p <> "$"%char ->
             gostrings.HasPrefix (String p t) (String "$" (String q EmptyString)) = false).
  { intros p q t Hp. unfold gostrings.HasPrefix. cbn [String.prefix].
    destruct (ascii_dec "$" p) as [<-|]; [contradiction | reflexivity]. }
  assert (Hkeep : forall t, gostrings.HasPrefix t "$." = false ->
                           gostrings.HasPrefix t "$_" = false ->
                           utils.removeDollarPrefixFromHiddenDir t = t).
  { intros t H1 H2. unfold utils.removeDollarPrefixFromHiddenDir. now rewrite H1, H2. }
  split; [|split; [|split; [|split; [apply Hdot|split; [apply Hund|split; [|apply Hkeep]]]]]].
  all: destruct (gostrings.HasPrefix name "$.") eqn:Hd;
    [apply Hshape in Hd as [t ->]; change (String "$" (String "." t)) with ("$." +:+ t); rewrite Hdot
    |destruct (gostrings.HasPrefix name "$_") eqn:Hu;
     [apply Hshape in Hu as [t ->]; change (String "$" (String "_" t)) with ("$_" +:+ t); rewrite Hund | rewrite (Hkeep name Hd Hu)]].
  all: try assumption; try (apply Hfresh; discriminate);
    try (apply Hkeep; apply Hfresh; discriminate); try (apply Hkeep; assumption);
    try (now left); try (now right).
Qed.
End hidden_dir_facts.

Section hyphen_facts.
Implicit Types (str s e mid : string).

Lemma get_last s c :
  String.get (String.length s) (s +:+ String c EmptyString) = Some c.
Proof. induction s as [|a s IH]; simpl; [reflexivity | exact IH]. Qed.

Lemma string_last_cases s : s = EmptyString \/ exists r c, s = r +:+ String c EmptyString.
Proof.
  induction s as [|a s IH]; [now left|]. right.
  destruct IH as [->|(r & c & ->)].
  - now exists EmptyString, a.
  - now exists (String a r), c.
Qed.

Lemma at_last s c :
  slices.at_ (s +:+ String c EmptyString)
    (Z.of_nat (String.length (s +:+ String c EmptyString)) - 1) = Some c.
Proof.
  unfold slices.at_. rewrite string_length_app. cbn [String.length].
  replace (Z.of_nat (String.length s + 1) - 1)%Z with (Z.of_nat (String.length s)) by lia.
  rewrite (proj2 (Z.leb_le _ _)) by lia. rewrite Nat2Z.id. apply get_last.
Qed.

Lemma upto_last s c :
  slices.upto (s +:+ String c EmptyString)
    (Z.of_nat (String.length (s +:+ String c EmptyString)) - 1) = Some s.
Proof.
  unfold slices.upto. rewrite string_length_app. cbn [String.length].
  replace (Z.of_nat (String.length s + 1) - 1)%Z with (Z.of_nat (String.length s)) by lia.
  rewrite (proj2 (Z.leb_le 0 _)) by lia. rewrite (proj2 (Z.leb_le _ _)) by lia.
  cbn [andb]. rewrite Nat2Z.id. now rewrite substring_front.
Qed.

Lemma from_one c s : slices.from (String c s) 1 = Some s.
Proof.
  unfold slices.from. cbn [String.length].
  rewrite (proj2 (Z.leb_le 0 1)) by lia. rewrite (proj2 (Z.leb_le _ _)) by lia.
  cbn [andb]. change (Z.to_nat 1) with 1.
  replace (S (String.length s) - 1) with (String.length s) by lia.
  simpl. now rewrite substring_whole.
Qed.

(** What [ReplaceStartingTerminatingHyphens] does with a string of at
    least one byte, given by its first byte and by its last byte. *)
Lemma ReplaceStartingTerminatingHyphens_unfold first rest last front s e :
  String first rest = front +:+ String last EmptyString ->
  utils.ReplaceStartingTerminatingHyphens (String first rest) s e
  = match (if bool_decide (first = "-"%char) then Some (s +:+ rest)
           else Some (String first rest)) with
    | Some str =>
        if bool_decide (last = "-"%char)
        then option_map (fun front => front +:+ e)
               (slices.upto str (Z.of_nat (String.length str) - 1))
        else Some str
    | None => None
    end.
Proof.
  intros Hlast.
  assert (Hat : slices.at_ (String first rest)
                  (Z.of_nat (String.length (String first rest)) - 1) = Some last)
    by (rewrite Hlast; apply at_last).
  unfold utils.ReplaceStartingTerminatingHyphens.
  rewrite Hat, from_one. reflexivity.
Qed.

(** X8. [ReplaceStartingTerminatingHyphens] panics on the empty string,
    and on a lone hyphen when the replacement for the start is empty,
    and on nothing else.  A hyphen at each end is replaced by the two
    replacements; a string that neither starts nor ends with a hyphen
    comes back as it is.  For a lone hyphen the replacement for the end
    takes the place of the last byte of the replacement for the start. *)
Theorem ReplaceStartingTerminatingHyphens_ends str s e :
  (utils.ReplaceStartingTerminatingHyphens str s e = None
   <-> str = EmptyString \/ (str = "-" /\ s = EmptyString)) /\
  (forall mid,
      utils.ReplaceStartingTerminatingHyphens ("-" +:+ mid +:+ "-") s e
      = Some (s +:+ mid +:+ e)) /\
  (forall s' c,
      utils.ReplaceStartingTerminatingHyphens "-" (s' +:+ String c EmptyString) e
      = Some (s' +:+ e)) /\
  (forall first rest front last,
      str = String first rest -> str = front +:+ String last EmptyString ->
      first <> "-"%char -> last <> "-"%char ->
      utils.ReplaceStartingTerminatingHyphens str s e = Some str).
Proof.
  split; [|split; [|split]].
  - destruct str as [|first rest].
    + split; [intros _; now left | reflexivity].
    + destruct (string_last_cases (String first rest)) as [Hnil|(front & last & Hlast)];
        [discriminate|].
      rewrite (ReplaceStartingTerminatingHyphens_unfold first rest last front s e Hlast).
      destruct (bool_decide (first = "-"%char)) eqn:Hf.
      * apply bool_decide_eq_true in Hf. subst first.
        destruct (bool_decide (last = "-"%char)) eqn:Hl.
        -- apply bool_decide_eq_true in Hl. subst last.
           destruct (string_last_cases (s +:+ rest)) as [Hnil|(r & c & Hr)].
           ++ rewrite Hnil. simpl. split; [intros _; right | reflexivity].
              destruct s; [|discriminate Hnil]. change (EmptyString +:+ rest) with rest in Hnil. now subst rest.
           ++ rewrite Hr, upto_last. simpl. split; [discriminate|].
              intros [Hx|[Hx Hs]]; [discriminate Hx|]. inversion Hx; subst.
              simpl in Hr. destruct r; discriminate Hr.
        -- split; [discriminate|]. intros [Hx|[Hx Hs]]; [discriminate Hx|].
           inversion Hx; subst. destruct front as [|a [|b front]]; simpl in Hlast.
           ++ inversion Hlast; subst. apply bool_decide_eq_false in Hl. contradiction.
           ++ discriminate Hlast.
           ++ discriminate Hlast.
      * apply bool_decide_eq_false in Hf.
        assert (Hne : ~ (String first rest = EmptyString \/ String first rest = "-" /\ s = "")).
        { intros [Hx|[Hx _]]; [discriminate Hx|]. inversion Hx. contradiction. }
        destruct (bool_decide (last = "-"%char)).
        -- rewrite Hlast at 1 2. rewrite upto_last. simpl. split; [discriminate | tauto].
        -- split; [discriminate | tauto].
  - intros mid. change ("-" +:+ mid +:+ "-") with (String "-" (mid +:+ "-")).
    rewrite (ReplaceStartingTerminatingHyphens_unfold "-" (mid +:+ "-") "-" (String "-" mid) s e)
      by reflexivity.
    rewrite !bool_decide_eq_true_2 by reflexivity.
    assert (Happ : forall a b c : string, (a +:+ b) +:+ c = a +:+ b +:+ c).
    { intros a b c. induction a as [|x a IH]; [reflexivity|].
      change (String x ((a +:+ b) +:+ c) = String x (a +:+ b +:+ c)). now rewrite IH. }
    rewrite <- (Happ s mid "-"). rewrite upto_last. simpl. now rewrite Happ.
  - intros s' c.
    rewrite (ReplaceStartingTerminatingHyphens_unfold "-" "" "-" "" _ e) by reflexivity.
    rewrite !bool_decide_eq_true_2 by reflexivity.
    assert (Hnil : forall a : string, a +:+ "" = a).
    { intros a. induction a as [|x a IH]; [reflexivity|].
      change (String x (a +:+ "") = String x a). now rewrite IH. }
    rewrite Hnil, upto_last. reflexivity.
  - intros first rest front last Hfirst Hlast Hf Hl. rewrite Hfirst in Hlast |- *.
    rewrite (ReplaceStartingTerminatingHyphens_unfold first rest last front s e Hlast).
    now rewrite !bool_decide_eq_false_2 by assumption.
Qed.
End hyphen_facts.
Section unique_facts.
Implicit Types (xs u : list string) (m : gmap string nat) (n : nat).

Lemma indexes_step m n u x :
  indexes m n u ->
  let '(m', n') :=
    match m !! x with
    | Some _ => (m, n)
    | None => (<[x := n]> m, S n)
    end in
  indexes m' n' (if common.IsPresent u x then u else u ++ [x]).
Proof.
  intros (Hn & Hsize & Hnd & Hidx).
  destruct (m !! x) as [i|] eqn:Hx.
  - apply Hidx in Hx. apply list_elem_of_lookup_2 in Hx.
    rewrite (proj2 (IsPresent_true u x) Hx). repeat split; try assumption; apply Hidx.
  - assert (Hnot : x ∉ u).
    { intros Hin. apply list_elem_of_lookup_1 in Hin as [i Hi].
      apply Hidx in Hi. congruence. }
    rewrite (proj2 (IsPresent_false u x) Hnot).
    split; [rewrite length_app; simpl; lia|].
    split; [rewrite map_size_insert_None by exact Hx; lia|].
    split.
    { apply NoDup_app. split; [exact Hnd|]. split; [|apply NoDup_singleton].
      intros y Hy Hy'. apply list_elem_of_singleton in Hy'. now subst y. }
    intros y i. destruct (decide (x = y)) as [<-|Hne].
    + rewrite lookup_insert_eq. split.
      * intros [= <-]. subst n. rewrite lookup_app_r by lia.
        now rewrite Nat.sub_diag.
      * intros Hi. f_equal. destruct (decide (i < length u)) as [Hlt|Hge].
        -- rewrite lookup_app_l in Hi by exact Hlt.
           exfalso. apply Hnot. eapply list_elem_of_lookup_2. exact Hi.
        -- apply lookup_lt_Some in Hi. rewrite length_app in Hi. simpl in Hi. lia.
    + rewrite lookup_insert_ne by exact Hne. rewrite Hidx. split.
      * intros Hi. rewrite lookup_app_l; [exact Hi|]. eapply lookup_lt_Some. exact Hi.
      * intros Hi. destruct (decide (i < length u)) as [Hlt|Hge].
        -- now rewrite lookup_app_l in Hi by exact Hlt.
        -- rewrite lookup_app_r in Hi by lia.
           destruct (i - length u) as [|k]; simpl in Hi; [|discriminate Hi].
           inversion Hi. contradiction.
Qed.

Lemma indexes_fold xs m n u :
  indexes m n u ->
  let '(m', n') :=
    fold_left
      (fun '(exists_, nextIdx) x =>
         match exists_ !! x with
         | Some _ => (exists_, nextIdx)
         | None => (<[x := nextIdx]> exists_, S nextIdx)
         end)
      xs (m, n) in
  indexes m' n' (common.AppendIfNotPresent u xs).
Proof.
  revert m n u. induction xs as [|x xs IH]; intros m n u Hinv; [exact Hinv|].
  cbn [fold_left]. rewrite AppendIfNotPresent_cons.
  pose proof (indexes_step m n u x Hinv) as Hstep.
  destruct (m !! x); apply IH; exact Hstep.
Qed.

(** The second loop of [UniqueStrings] writes every string at its index;
    the indices differ, so the visiting order does not matter. *)
Lemma indexes_fill m n u :
  indexes m n u ->
  map_fold (fun x idx unique => <[idx := x]> unique) (replicate (size m) EmptyString) m = u.
Proof.
  intros (Hn & Hsize & Hnd & Hidx).
  assert (Hfill :
            (fun r (m' : gmap string nat) =>
               (forall x i, m' !! x = Some i -> m !! x = Some i) ->
               length r = n /\ forall x i, m' !! x = Some i -> r !! i = Some x)
              (map_fold (fun x idx unique => <[idx := x]> unique)
                        (replicate (size m) EmptyString) m) m).
  { apply (map_fold_weak_ind
             (fun r (m' : gmap string nat) =>
               (forall x i, m' !! x = Some i -> m !! x = Some i) ->
               length r = n /\ forall x i, m' !! x = Some i -> r !! i = Some x)).
    - intros _. split; [rewrite length_replicate; exact Hsize|].
      intros x i Hx. rewrite lookup_empty in Hx. discriminate Hx.
    - intros x idx m' r Hfresh IHr Hsub.
      destruct IHr as [Hlen Hr].
      { intros y i Hy. apply Hsub. rewrite lookup_insert_ne; [exact Hy|].
        intros ->. congruence. }
      split; [now rewrite length_insert|].
      intros y i Hy. destruct (decide (x = y)) as [<-|Hne].
      + rewrite lookup_insert_eq in Hy. inversion Hy; subst idx.
        apply list_lookup_insert_eq.
        assert (Hm : m !! x = Some i) by (apply Hsub; apply lookup_insert_eq).
        apply Hidx in Hm. apply lookup_lt_Some in Hm. lia.
      + rewrite lookup_insert_ne in Hy by exact Hne.
        rewrite list_lookup_insert_ne; [now apply Hr|].
        intros ->.
        assert (Hmx : m !! x = Some i) by (apply Hsub; apply lookup_insert_eq).
        assert (Hmy : m !! y = Some i).
        { apply Hsub. rewrite lookup_insert_ne by exact Hne. exact Hy. }
        apply Hidx in Hmx, Hmy. congruence. }
  destruct Hfill as [Hlen Hr]; [auto|].
  apply list_eq. intros i. destruct (u !! i) as [x|] eqn:Hu.
  - apply Hr. now apply Hidx.
  - apply lookup_ge_None. apply lookup_ge_None in Hu. lia.
Qed.

(** X9. [UniqueStrings] returns the first occurrences of the strings, in
    the order of the input: what [MergeSlices] makes of the input merged
    into an empty slice.  So it holds no string twice, it holds the
    strings of the input and no other, and a slice without repetitions
    comes back as it is. *)
Theorem UniqueStrings_first_occurrences xs :
  utils.UniqueStrings xs = common.MergeSlices [] xs /\
  NoDup (utils.UniqueStrings xs) /\
  (forall x, x ∈ utils.UniqueStrings xs <-> x ∈ xs) /\
  (NoDup xs -> utils.UniqueStrings xs = xs) /\
  utils.UniqueStrings (utils.UniqueStrings xs) = utils.UniqueStrings xs.
Proof.
  assert (Heq : forall ys, utils.UniqueStrings ys = common.MergeSlices [] ys).
  { intros ys. unfold utils.UniqueStrings, utils.UniqueStrings_index, common.MergeSlices.
    cbv zeta.
    assert (Hinit : indexes ∅ 0 []).
    { repeat split; try apply NoDup_nil_2.
      - intros Hx. rewrite lookup_empty in Hx. discriminate Hx.
      - intros Hx. discriminate Hx. }
    pose proof (indexes_fold ys ∅ 0 [] Hinit) as Hfold.
    destruct (fold_left _ ys (∅, 0)) as [m n]. simpl fst.
    now apply (indexes_fill m n). }
  assert (Hnd : forall ys : list string, NoDup (common.MergeSlices [] ys))
    by (intros ys; apply NoDup_MergeSlices, NoDup_nil_2).
  assert (Hin : forall (ys : list string) x, x ∈ common.MergeSlices [] ys <-> x ∈ ys).
  { intros ys x. rewrite elem_of_MergeSlices. split; [|now right].
    intros [Hx|Hx]; [inversion Hx | exact Hx]. }
  assert (Hfix : forall ys : list string, NoDup ys -> common.MergeSlices [] ys = ys).
  { intros ys Hys. unfold common.MergeSlices.
    enough (Hgen : forall acc, NoDup (acc ++ ys) ->
                               common.AppendIfNotPresent acc ys = acc ++ ys)
      by (apply (Hgen [] Hys)).
    clear Hys. induction ys as [|y ys IH]; intros acc Hacc.
    - now rewrite AppendIfNotPresent_nil, app_nil_r.
    - rewrite AppendIfNotPresent_cons.
      apply NoDup_app in Hacc as Hparts. destruct Hparts as (_ & Hdis & _).
      rewrite (proj2 (IsPresent_false acc y)).
      + rewrite IH; rewrite <- app_assoc; [reflexivity | exact Hacc].
      + intros Hy. apply (Hdis y Hy). left. }
  rewrite !Heq. split; [reflexivity|]. split; [apply Hnd|]. split; [apply Hin|].
  split; [apply Hfix|]. apply Hfix, Hnd.
Qed.
End unique_facts.

Section reverse_facts.
Context {T : Type}.
Implicit Types (xs pre mid post : list T).

Lemma ReverseInPlace_loop_spec fuel pre mid post :
  length mid <= 2 * fuel ->
  utils.ReverseInPlace_loop fuel (length pre) (length pre + length mid - 1)
    (pre ++ mid ++ post)
  = Some (pre ++ rev mid ++ post).
Proof.
  revert pre mid post. induction fuel as [|fuel IH]; intros pre mid post Hlen.
  - destruct mid; [|simpl in Hlen; lia]. cbn [utils.ReverseInPlace_loop].
    rewrite (proj2 (Nat.ltb_ge _ _)) by (simpl; lia). reflexivity.
  - destruct mid as [|a mid]; [|destruct mid as [|b mid' _] using rev_ind].
    + cbn [utils.ReverseInPlace_loop].
      rewrite (proj2 (Nat.ltb_ge _ _)) by (simpl; lia). reflexivity.
    + cbn [utils.ReverseInPlace_loop].
      rewrite (proj2 (Nat.ltb_ge _ _)) by (simpl; lia). reflexivity.
    + cbn [utils.ReverseInPlace_loop].
      assert (Hj : length pre + length (a :: mid' ++ [b]) - 1 = length pre + S (length mid')).
      { simpl. rewrite length_app. simpl. lia. }
      rewrite Hj.
      rewrite (proj2 (Nat.ltb_lt _ _)) by lia.
      assert (Hi : (pre ++ (a :: mid' ++ [b]) ++ post) !! length pre = Some a).
      { rewrite lookup_app_r by lia. now rewrite Nat.sub_diag. }
      assert (Hjj : (pre ++ (a :: mid' ++ [b]) ++ post) !! (length pre + S (length mid'))
                    = Some b).
      { rewrite lookup_app_r by lia.
        replace (length pre + S (length mid') - length pre) with (S (length mid')) by lia.
        simpl. rewrite <- app_assoc. rewrite lookup_app_r by lia.
        now rewrite Nat.sub_diag. }
      rewrite Hi, Hjj.
      assert (Hswap : <[length pre + S (length mid') := a]>
                        (<[length pre := b]> (pre ++ (a :: mid' ++ [b]) ++ post))
                      = (pre ++ [b]) ++ mid' ++ ([a] ++ post)).
      { rewrite insert_app_r_alt by lia. rewrite Nat.sub_diag. simpl.
        rewrite insert_app_r_alt by lia.
        replace (length pre + S (length mid') - length pre) with (S (length mid')) by lia.
        simpl. rewrite <- !app_assoc. simpl.
        rewrite insert_app_r_alt by lia. rewrite Nat.sub_diag. simpl. reflexivity. }
      rewrite Hswap.
      replace (S (length pre)) with (length (pre ++ [b])) by (rewrite length_app; simpl; lia).
      replace (length pre + S (length mid') - 1)
        with (length (pre ++ [b]) + length mid' - 1) by (rewrite length_app; simpl; lia).
      rewrite IH.
      * simpl. rewrite rev_app_distr. simpl. now rewrite <- !app_assoc.
      * simpl in Hlen. rewrite length_app in Hlen. simpl in Hlen. lia.
Qed.

(** X10. [ReverseInPlace] never indexes out of range and leaves the slice
    reversed; run twice it restores the slice. *)
Theorem ReverseInPlace_reverses xs :
  utils.ReverseInPlace xs = Some (rev xs) /\
  (utils.ReverseInPlace xs ≫= utils.ReverseInPlace) = Some xs.
Proof.
  assert (Hrev : forall ys : list T, utils.ReverseInPlace ys = Some (rev ys)).
  { intros ys. unfold utils.ReverseInPlace.
    pose proof (ReverseInPlace_loop_spec (length ys) [] ys []) as Hspec.
    simpl in Hspec. rewrite !app_nil_r in Hspec. apply Hspec. lia. }
  split; [apply Hrev|]. rewrite Hrev. simpl. rewrite Hrev. now rewrite rev_involutive.
Qed.
End reverse_facts.

Section convert_facts.
Implicit Types (vIs : list utils.iface) (vs : list string).

Lemma gatherStrings_strings vs acc :
  utils.gatherStrings (map utils.IString vs) acc = (acc ++ vs, true).
Proof.
  revert acc. induction vs as [|v vs IH]; intros acc; simpl.
  - now rewrite app_nil_r.
  - rewrite IH. now rewrite <- app_assoc.
Qed.

Lemma gatherStrings_spec vIs acc :
  (exists vs, vIs = map utils.IString vs /\ utils.gatherStrings vIs acc = (acc ++ vs, true)) \/
  (exists vs vI rest,
      vIs = map utils.IString vs ++ vI :: rest /\
      (forall v, vI <> utils.IString v) /\
      utils.gatherStrings vIs acc = (acc ++ vs, false)).
Proof.
  revert acc. induction vIs as [|vI vIs IH]; intros acc.
  - left. exists []. simpl. now rewrite app_nil_r.
  - assert (Hstop : forall w,
               (forall v : string, w <> utils.IString v) ->
               utils.gatherStrings (w :: vIs) acc = (acc, false) ->
               exists vs vJ rest,
                 w :: vIs = map utils.IString vs ++ vJ :: rest /\
                 (forall v, vJ <> utils.IString v) /\
                 utils.gatherStrings (w :: vIs) acc = (acc ++ vs, false)).
    { intros w Hno Hg. exists [], w, vIs. rewrite app_nil_r. now repeat split. }
    destruct vI as [x|ys|v|].
    + right. apply Hstop; [discriminate | reflexivity].
    + right. apply Hstop; [discriminate | reflexivity].
    + simpl. destruct (IH (acc ++ [v])) as [(vs & -> & Hg)|(vs & vJ & rest & -> & Hno & Hg)].
      * left. exists (v :: vs). rewrite Hg, <- app_assoc. now split.
      * right. exists (v :: vs), vJ, rest. rewrite Hg, <- app_assoc. now repeat split.
    + right. apply Hstop; [discriminate | reflexivity].
Qed.

(** X11. [ConvertInterfaceToSliceOfStrings] hands a [[]string] back as
    it is, nil or not, and turns a [[]interface{}] of strings into those
    strings.  It fails for every other value: for a slice with a value
    that is no string it returns, with the error, the strings that stand
    before the first such value; for anything that is no slice it
    returns nil, which it returns otherwise only for a nil [[]string]. *)
Theorem ConvertInterfaceToSliceOfStrings_strings xI :
  (forall x vs,
      utils.ConvertInterfaceToSliceOfStrings (utils.IStrings x) = (x, None) /\
      utils.ConvertInterfaceToSliceOfStrings (utils.ISlice (map utils.IString vs))
      = (Some vs, None)) /\
  (snd (utils.ConvertInterfaceToSliceOfStrings xI) = None <->
   (exists x, xI = utils.IStrings x) \/
   (exists vs, xI = utils.ISlice (map utils.IString vs))) /\
  (forall vs vI rest,
      (forall v, vI <> utils.IString v) ->
      xI = utils.ISlice (map utils.IString vs ++ vI :: rest) ->
      fst (utils.ConvertInterfaceToSliceOfStrings xI) = Some vs /\
      snd (utils.ConvertInterfaceToSliceOfStrings xI) <> None) /\
  (fst (utils.ConvertInterfaceToSliceOfStrings xI) = None <->
   xI = utils.IStrings None \/
   ((forall x, xI <> utils.IStrings x) /\ (forall vIs, xI <> utils.ISlice vIs))).
Proof.
  split; [|split; [|split]].
  - intros x vs. split; [reflexivity|]. simpl. now rewrite gatherStrings_strings.
  - destruct xI as [x|vIs|v|]; simpl.
    + split; [intros _; left; now exists x | reflexivity].
    + destruct (gatherStrings_spec vIs []) as [(vs & -> & Hg)|(vs & vI & rest & -> & Hno & Hg)];
        rewrite Hg; simpl.
      * split; [intros _; right; now exists vs | reflexivity].
      * split; [discriminate|]. intros [[x Hx]|[ws Hx]]; [discriminate Hx|].
        exfalso. inversion Hx as [Hmap]. clear Hx Hg.
        revert ws Hmap. induction vs as [|v vs IHvs]; intros [|w ws] Hmap; simpl in Hmap;
          try discriminate Hmap.
        -- inversion Hmap. now apply (Hno w).
        -- inversion Hmap. eapply IHvs. eassumption.
    + split; [discriminate | intros [[x Hx]|[ws Hx]]; discriminate Hx].
    + split; [discriminate | intros [[x Hx]|[ws Hx]]; discriminate Hx].
  - intros vs vI rest Hno ->. simpl.
    assert (Hg : forall acc,
               utils.gatherStrings (map utils.IString vs ++ vI :: rest) acc
               = (acc ++ vs, false)).
    { induction vs as [|v vs IHvs]; intros acc; simpl.
      - rewrite app_nil_r. destruct vI; try reflexivity. now destruct (Hno v).
      - rewrite IHvs. now rewrite <- app_assoc. }
    rewrite Hg. simpl. split; [reflexivity | discriminate].
  - destruct xI as [x|vIs|v|]; simpl.
    + split; [intros ->; now left|].
      intros [[= ->]|[Hx _]]; [reflexivity | now destruct (Hx x)].
    + destruct (utils.gatherStrings vIs []) as [vs [|]]; simpl;
        (split; [discriminate | intros [Hx|[_ Hx]]; [discriminate Hx | now destruct (Hx vIs)]]).
    + split; [intros _; right; split; discriminate | reflexivity].
    + split; [intros _; right; split; discriminate | reflexivity].
Qed.
End convert_facts.

Section string_map_facts.

(** X12. [MergeStringMaps] returns the first map unless it is nil, and
    then the second.  When neither is nil it writes into the first map
    itself, which then holds for every key what the second map holds
    for it, and what it held before for the keys the second map lacks;
    no other map changes (the second one neither, unless it is the
    first), and with a nil map nothing is written at all. *)
Theorem MergeStringMaps_in_place (h : utils.StringMaps) (map1 map2 : option addr) :
  let r := utils.MergeStringMaps h map1 map2 in
  snd r = match map1 with None => map2 | Some _ => map1 end /\
  (map1 = None \/ map2 = None -> fst r = h) /\
  (forall l, map1 <> Some l -> fst r !! l = h !! l) /\
  (forall l1 l2 k,
      map1 = Some l1 -> map2 = Some l2 ->
      default ∅ (fst r !! l1) !! k
      = match default ∅ (h !! l2) !! k with
        | Some v => Some v
        | None => default ∅ (h !! l1) !! k
        end) /\
  (forall l, map1 = Some l -> map2 = Some l -> default ∅ (fst r !! l) = default ∅ (h !! l)).
Proof.
  assert (Hfold : forall m1 m2 : gmap string string,
             map_fold (fun k v map1 => <[k := v]> map1) m1 m2 = m2 ∪ m1).
  { intros m1 m2.
    apply (map_fold_weak_ind (fun r m => r = m ∪ m1)).
    - now rewrite (left_id_L ∅ (∪)).
    - intros k v m r Hfresh ->. now rewrite insert_union_l. }
  cbv zeta. unfold utils.MergeStringMaps. unfold utils.StringMaps in *.
  destruct map1 as [l1|]; [destruct map2 as [l2|]|]; cbn [fst snd].
  - split; [reflexivity|]. split; [intros [Hx|Hx]; discriminate Hx|].
    split; [intros l Hl; apply lookup_insert_ne; congruence|].
    split.
    + intros l1' l2' k [= <-] [= <-].  rewrite lookup_insert_eq. cbn [from_option id].
      rewrite Hfold, lookup_union.
      destruct (default ∅ (h !! l2) !! k), (default ∅ (h !! l1) !! k); reflexivity.
    + intros l Hx Hy. inversion Hx. inversion Hy. subst.
      rewrite lookup_insert_eq. cbn [from_option id].
      rewrite Hfold. apply map_eq. intros k. rewrite lookup_union.
      now destruct (default ∅ (h !! l) !! k).
  - split; [reflexivity|]. split; [reflexivity|]. split; [reflexivity|].
    split; [intros ? ? ? ? Hx; discriminate Hx | intros ? ? Hx; discriminate Hx].
  - split; [reflexivity|]. split; [reflexivity|]. split; [reflexivity|].
    split; [intros ? ? ? Hx; discriminate Hx | intros ? Hx; discriminate Hx].
Qed.
End string_map_facts.
Section parent_facts.
Context (Abs : string -> string * option error) (PathSeparator : ascii).
Implicit Types (cs ps : list string).

Lemma IsParent_parts_spec i cs ps :
  i + length ps <= length cs ->
  utils.IsParent_parts i cs ps
  = Some (bool_decide (ps = take (length ps) (drop i cs))).
Proof.
  revert i. induction ps as [|p ps IH]; intros i Hlen.
  - cbn [utils.IsParent_parts]. rewrite bool_decide_eq_true_2; reflexivity.
  - simpl in Hlen. cbn [utils.IsParent_parts].
    destruct (lookup_lt_is_Some_2 cs i ltac:(lia)) as [c Hc].
    rewrite Hc. rewrite (drop_S cs c i Hc). cbn [length take].
    destruct (String.eqb c p) eqn:Hcp; cbn [negb].
    + apply String.eqb_eq in Hcp. subst c. rewrite IH by lia. f_equal.
      apply bool_decide_ext. split; [now intros <- | now intros [= <-]].
    + apply String.eqb_neq in Hcp. rewrite bool_decide_eq_false_2; [reflexivity|].
      intros [= <- _]. contradiction.
Qed.

(** X13. [IsParent] ends the process when [filepath.Abs] fails, for the
    child first, and the line shows what [filepath.Abs] returned.
    Otherwise it never indexes out of range, and it answers yes exactly
    when the absolute parent is the root or its components, as the path
    separator splits them, are the leading components of the absolute
    child; so a path is a parent of itself. *)
Theorem IsParent_components child parent :
  let '(c, ec) := Abs child in
  let '(p, ep) := Abs parent in
  match ec, ep with
  | Some err, _ =>
      utils.IsParent Abs PathSeparator child parent
      = inl (Log FatalLevel "Failed to make the path %s absolute. Error: %s"
                 [c; error_text err])
  | None, Some err =>
      utils.IsParent Abs PathSeparator child parent
      = inl (Log FatalLevel "Failed to make the path %s absolute. Error: %s"
                 [p; error_text err])
  | None, None =>
      (exists b, utils.IsParent Abs PathSeparator child parent = inr (Some b)) /\
      (utils.IsParent Abs PathSeparator child parent = inr (Some true)
       <-> p = "/" \/
           gostrings.Split p PathSeparator `prefix_of` gostrings.Split c PathSeparator) /\
      (child = parent -> utils.IsParent Abs PathSeparator child parent = inr (Some true))
  end.
Proof.
  unfold utils.IsParent.
  destruct (Abs child) as [c [err|]] eqn:Hc; destruct (Abs parent) as [p [err'|]] eqn:Hp;
    try reflexivity.
  cbv zeta.
  set (cs := gostrings.Split c PathSeparator).
  set (ps := gostrings.Split p PathSeparator).
  assert (Hiff : (if String.eqb p "/" then inr (Some true)
                  else if length cs <? length ps then inr (Some false)
                       else inr (utils.IsParent_parts 0 cs ps))
                 = (inr (Some (bool_decide (p = "/" \/ ps `prefix_of` cs)))
                    : log_entry + option bool)).
  { destruct (String.eqb p "/") eqn:Hroot.
    - apply String.eqb_eq in Hroot. rewrite bool_decide_eq_true_2; [reflexivity | now left].
    - apply String.eqb_neq in Hroot.
      destruct (length cs <? length ps) eqn:Hlen.
      + apply Nat.ltb_lt in Hlen. rewrite bool_decide_eq_false_2; [reflexivity|].
        intros [Hx|[k Hk]]; [contradiction|]. rewrite Hk, length_app in Hlen. lia.
      + apply Nat.ltb_ge in Hlen. rewrite IsParent_parts_spec by (simpl; lia).
        rewrite drop_0. do 2 f_equal. apply bool_decide_ext. split.
        * intros Hps. right. exists (drop (length ps) cs).
          rewrite Hps at 1. now rewrite take_drop.
        * intros [Hx|[k Hk]]; [contradiction|]. rewrite Hk.
          now rewrite take_app_length. }
  rewrite Hiff. split; [now eexists|]. split.
  - split.
    + intros [= Hb]. now apply bool_decide_eq_true in Hb.
    + intros Hb. do 2 f_equal. now apply bool_decide_eq_true.
  - intros ->. rewrite Hc in Hp. inversion Hp; subst.
    do 2 f_equal. apply bool_decide_eq_true. now right.
Qed.
End parent_facts.

Section common_directory_facts.
Context (Dir : string -> string) (Separator : ascii).
Implicit Types (paths : list string) (commonDir d : string).

Lemma prefix_refl (s : string) : String.prefix s s = true.
Proof.
  induction s as [|c s IH]; [reflexivity|]. cbn [String.prefix].
  destruct (ascii_dec c c); [exact IH | contradiction].
Qed.

Lemma forallb_false {A} (f : A -> bool) (l : list A) :
  forallb f l = false -> exists x, In x l /\ f x = false.
Proof.
  induction l as [|x l IH]; simpl; [discriminate|].
  destruct (f x) eqn:Hx; simpl.
  - intros Hl. destruct (IH Hl) as (y & Hy & Hfy). exists y. split; [now right | exact Hfy].
  - intros _. exists x. split; [now left | exact Hx].
Qed.

Lemma FindCommonDirectory_loop_sound fuel paths commonDir d :
  utils.FindCommonDirectory_loop Dir Separator fuel paths commonDir = Some d ->
  (d = String Separator EmptyString \/
   forall path, path ∈ paths ->
                gostrings.HasPrefix (path +:+ String Separator EmptyString)
                  (d +:+ String Separator EmptyString) = true) /\
  exists n,
    n <= fuel /\ d = Nat.iter n Dir commonDir /\
    forall k, k < n ->
      Nat.iter k Dir commonDir <> String Separator EmptyString /\
      exists path, path ∈ paths /\
                   gostrings.HasPrefix (path +:+ String Separator EmptyString)
                     (Nat.iter k Dir commonDir +:+ String Separator EmptyString) = false.
Proof.
  revert commonDir. induction fuel as [|fuel IH]; intros commonDir;
    cbn [utils.FindCommonDirectory_loop]; cbv zeta.
  - destruct (String.eqb commonDir _) eqn:Hs.
    + intros [= <-]. apply String.eqb_eq in Hs. split; [now left|].
      exists 0. split; [lia|]. split; [reflexivity|]. intros k Hk. lia.
    + destruct (forallb _ paths) eqn:Hall; [|discriminate].
      intros [= <-]. split.
      * right. intros path Hin. rewrite forallb_forall in Hall.
        apply Hall. now apply list_elem_of_In.
      * exists 0. split; [lia|]. split; [reflexivity|]. intros k Hk. lia.
  - destruct (String.eqb commonDir _) eqn:Hs.
    + intros [= <-]. apply String.eqb_eq in Hs. split; [now left|].
      exists 0. split; [lia|]. split; [reflexivity|]. intros k Hk. lia.
    + destruct (forallb _ paths) eqn:Hall.
      * intros [= <-]. split.
        -- right. intros path Hin. rewrite forallb_forall in Hall.
           apply Hall. now apply list_elem_of_In.
        -- exists 0. split; [lia|]. split; [reflexivity|]. intros k Hk. lia.
      * intros Hd. destruct (IH (Dir commonDir) Hd) as [Hcommon (n & Hn & Hiter & Hbefore)].
        split; [exact Hcommon|]. exists (S n). split; [lia|].
        split; [now rewrite Nat.iter_succ_r|].
        intros k Hk. destruct k as [|k].
        -- simpl. split; [now apply String.eqb_neq|].
           apply forallb_false in Hall as (path & Hin & Hp).
           exists path. split; [now apply list_elem_of_In | exact Hp].
        -- rewrite Nat.iter_succ_r. apply Hbefore. lia.
Qed.

Lemma FindCommonDirectory_loop_ends fuel paths commonDir n :
  Nat.iter n Dir commonDir = String Separator EmptyString -> n <= fuel ->
  exists d, utils.FindCommonDirectory_loop Dir Separator fuel paths commonDir = Some d.
Proof.
  revert commonDir n. induction fuel as [|fuel IH]; intros commonDir n Hiter Hn;
    cbn [utils.FindCommonDirectory_loop]; cbv zeta.
  - assert (n = 0) by lia. subst n. simpl in Hiter. subst commonDir.
    rewrite String.eqb_refl. now eexists.
  - destruct (String.eqb commonDir _) eqn:Hs; [now eexists|].
    destruct (forallb _ paths); [now eexists|].
    destruct n as [|n].
    + simpl in Hiter. subst commonDir. now rewrite String.eqb_refl in Hs.
    + apply (IH _ n); [|lia]. now rewrite <- Nat.iter_succ_r.
Qed.

(** X14. [FindCommonDirectory] returns the empty string for no path and
    the path itself for one path.  Whatever it returns for paths is the
    separator alone or a prefix, up to a separator, of every path given;
    it is the first of the first path and its successive parents, as
    [filepath.Dir] gives them, that is one or the other.  The loop ends
    as soon as walking up from the first path reaches the separator. *)
Theorem FindCommonDirectory_common fuel paths :
  utils.FindCommonDirectory Dir Separator fuel [] = Some EmptyString /\
  (forall path, utils.FindCommonDirectory Dir Separator fuel [path] = Some path) /\
  (forall first rest d,
      paths = first :: rest ->
      utils.FindCommonDirectory Dir Separator fuel paths = Some d ->
      (d = String Separator EmptyString \/
       forall path, path ∈ paths ->
                    gostrings.HasPrefix (path +:+ String Separator EmptyString)
                      (d +:+ String Separator EmptyString) = true) /\
      exists n,
        n <= fuel /\ d = Nat.iter n Dir first /\
        forall k, k < n ->
          Nat.iter k Dir first <> String Separator EmptyString /\
          exists path, path ∈ paths /\
                       gostrings.HasPrefix (path +:+ String Separator EmptyString)
                         (Nat.iter k Dir first +:+ String Separator EmptyString) = false) /\
  (forall first rest n,
      paths = first :: rest ->
      Nat.iter n Dir first = String Separator EmptyString -> n <= fuel ->
      exists d, utils.FindCommonDirectory Dir Separator fuel paths = Some d).
Proof.
  split; [reflexivity|]. split; [|split].
  - intros path. unfold utils.FindCommonDirectory.
    destruct fuel; cbn [utils.FindCommonDirectory_loop]; cbv zeta;
      (destruct (String.eqb path _); [reflexivity|]);
      cbn [forallb]; unfold gostrings.HasPrefix; now rewrite prefix_refl.
  - intros first rest d -> Hd. now apply FindCommonDirectory_loop_sound.
  - intros first rest n -> Hiter Hn. now apply (FindCommonDirectory_loop_ends _ _ _ n).
Qed.
End common_directory_facts.

(* ===================================================================== *)
(** ** More of package transformer *)
(* ===================================================================== *)

Section plan_facts.
Implicit Types (services : gmap string (list Artifact.t)) (t : Transformer.t).
Implicit Types (s : list Artifact.t) (sn : string).

(** The inner loop of [getPlanArtifactsFromArtifacts], for one service. *)
Lemma plan_service_lookup t sn s (planServices : gmap string (list transformer.PlanArtifact)) k :
  fold_left
    (fun planServices st =>
       <[sn := default [] (planServices !! sn)
               ++ [transformer.mkPlanArtifact (Transformer.Name t) st]]> planServices)
    s planServices !! k
  = if decide (k = sn) then
      match s with
      | [] => planServices !! sn
      | _ :: _ =>
          Some (default [] (planServices !! sn)
                ++ map (transformer.mkPlanArtifact (Transformer.Name t)) s)
      end
    else planServices !! k.
Proof.
  revert planServices. induction s as [|st s IH]; intros planServices.
  - simpl. now destruct (decide (k = sn)) as [->|].
  - cbn [fold_left]. rewrite IH. destruct (decide (k = sn)) as [->|Hne].
    + rewrite lookup_insert_eq. cbn [from_option id].
      destruct s as [|st' s]; simpl; [reflexivity|].
      now rewrite <- app_assoc.
    + now rewrite lookup_insert_ne by congruence.
Qed.

Lemma getPlanArtifactsFromArtifacts_lookup services t sn :
  transformer.getPlanArtifactsFromArtifacts services t !! sn
  = match services !! sn with
    | Some (st :: s) =>
        Some (map (transformer.mkPlanArtifact (Transformer.Name t)) (st :: s))
    | _ => None
    end.
Proof.
  unfold transformer.getPlanArtifactsFromArtifacts. revert sn.
  apply (map_fold_weak_ind
           (fun (r : gmap string (list transformer.PlanArtifact))
                (m : gmap string (list Artifact.t)) =>
              forall sn,
                r !! sn
                = match m !! sn with
                  | Some (st :: s) =>
                      Some (map (transformer.mkPlanArtifact (Transformer.Name t)) (st :: s))
                  | _ => None
                  end)).
  - intros sn. now rewrite !lookup_empty.
  - intros k s m r Hfresh IH sn. rewrite plan_service_lookup.
    destruct (decide (sn = k)) as [->|Hne].
    + rewrite lookup_insert_eq. rewrite (IH k), Hfresh. now destruct s.
    + rewrite lookup_insert_ne by congruence. apply IH.
Qed.

(** X18. [getPlanArtifactsFromArtifacts] keeps the services that have
    artifacts, each with its artifacts in their order and every one
    labelled with the name of the transformer; a service with an empty
    list is dropped, so no service of the plan is empty.  On such a plan
    the second number of [getNamedAndUnNamedServicesLogMessage] is the
    number of artifacts under the empty service name less one, and never
    negative; the first number counts all services that have artifacts,
    the one with the empty name included. *)
Theorem getPlanArtifactsFromArtifacts_services services t :
  let plan := transformer.getPlanArtifactsFromArtifacts services t in
  (forall sn,
      plan !! sn
      = match services !! sn with
        | Some (st :: s) =>
            Some (map (transformer.mkPlanArtifact (Transformer.Name t)) (st :: s))
        | _ => None
        end) /\
  (forall sn, plan !! sn <> Some []) /\
  plan = (map (transformer.mkPlanArtifact (Transformer.Name t)))
           <$> filter (fun entry => entry.2 <> []) services /\
  snd (transformer.getNamedAndUnNamedServicesLogMessage plan)
  = [Z.of_nat (size (filter (fun entry : string * list Artifact.t => entry.2 <> []) services));
     Z.of_nat (length (default [] (services !! "")) - 1)].
Proof.
  cbv zeta.
  assert (Hmap : transformer.getPlanArtifactsFromArtifacts services t
                 = (map (transformer.mkPlanArtifact (Transformer.Name t)))
                     <$> filter (fun entry => entry.2 <> []) services).
  { apply map_eq. intros sn. rewrite getPlanArtifactsFromArtifacts_lookup, lookup_fmap.
    destruct (services !! sn) as [[|st s]|] eqn:Hs.
    - rewrite map_lookup_filter_None_2; [reflexivity|]. right. intros x Hx. simpl.
      rewrite Hs in Hx. inversion Hx. tauto.
    - rewrite (map_lookup_filter_Some_2 _ _ sn (st :: s)); [reflexivity | exact Hs | discriminate].
    - rewrite map_lookup_filter_None_2; [reflexivity | now left]. }
  split; [apply getPlanArtifactsFromArtifacts_lookup|].
  split; [|split; [exact Hmap|]].
  - intros sn. rewrite getPlanArtifactsFromArtifacts_lookup.
    destruct (services !! sn) as [[|st s]|]; discriminate.
  - unfold transformer.getNamedAndUnNamedServicesLogMessage. cbv zeta. cbn [snd].
    rewrite getPlanArtifactsFromArtifacts_lookup.
    rewrite Hmap at 1. rewrite map_size_fmap. f_equal.
    destruct (services !! "") as [[|st s]|]; cbn [from_option id length]; [reflexivity| |reflexivity].
    rewrite length_map. cbn [length]. do 2 f_equal. lia.
Qed.
End plan_facts.

Section registry_more.
Context {reg : RegistryHost}.
Implicit Types (tc ot : Transformer.t) (name : string).

Lemma lastNamed_Some name (tcs : list Transformer.t) tc :
  lastNamed name tcs = Some tc -> Transformer.Name tc = name /\ tc ∈ tcs.
Proof.
  unfold lastNamed. intros Hlast.
  assert (Hin : tc ∈ filter (fun tc => Transformer.Name tc = name) tcs).
  { apply last_Some in Hlast as [l' ->]. apply elem_of_app. right. left. }
  apply list_elem_of_filter in Hin. exact Hin.
Qed.

(** The second loop of [getFilteredTransformers] finds no name taken:
    the keys it walks over are the names of the descriptors. *)
Lemma shadow_silent sels (filtered : gmap string Transformer.t) lg :
  (forall name tc, filtered !! name = Some tc -> Transformer.Name tc = name) ->
  snd (map_fold (transformer.shadowOne sels) (∅, lg) filtered) = lg.
Proof.
  intros Hnames.
  enough (Hgen : (forall name tc, filtered !! name = Some tc -> Transformer.Name tc = name) ->
                 snd (map_fold (transformer.shadowOne sels) (∅, lg) filtered) = lg /\
                 forall name,
                   fst (map_fold (transformer.shadowOne sels) (∅, lg) filtered) !! name <> None ->
                   filtered !! name <> None)
    by (now apply Hgen).
  clear Hnames.
  apply (map_fold_weak_ind
           (fun (r : gmap string Transformer.t * list log_entry)
                (m : gmap string Transformer.t) =>
              (forall name tc, m !! name = Some tc -> Transformer.Name tc = name) ->
              snd r = lg /\ forall name, fst r !! name <> None -> m !! name <> None)).
  - intros _. split; [reflexivity|]. intros name Hn. cbn [fst] in Hn.
    now rewrite lookup_empty in Hn.
  - intros tn tc m [cfgs lg'] Hfresh IH Hnames.
    destruct IH as [Hlg Hdom].
    { intros name tc' Hm. apply Hnames. rewrite lookup_insert_ne; [exact Hm|].
      intros ->. congruence. }
    simpl in Hlg, Hdom. subst lg'.
    assert (Hname : Transformer.Name tc = tn) by (apply Hnames; apply lookup_insert_eq).
    assert (Hfree : cfgs !! Transformer.Name tc = None).
    { rewrite Hname. destruct (cfgs !! tn) eqn:Hc; [|reflexivity].
      exfalso. apply (Hdom tn); [now rewrite Hc | exact Hfresh]. }
    unfold transformer.shadowOne. rewrite Hfree, app_nil_r.
    destruct (negb _); simpl; (split; [reflexivity|]); intros name Hn.
    + destruct (decide (tn = name)) as [->|Hne].
      * now rewrite lookup_insert_eq.
      * rewrite lookup_insert_ne in Hn |- * by exact Hne. now apply Hdom.
    + destruct (decide (tn = name)) as [->|Hne].
      * now rewrite lookup_insert_eq.
      * rewrite lookup_insert_ne by exact Hne. now apply Hdom.
Qed.


(** X20. [getTransformerConfig] fails exactly when the file cannot be
    read or its kind is not [TransformerKind]: a selector that cannot be
    parsed is logged and left nil, and the descriptor still loads.  A
    loaded descriptor has the kind [TransformerKind], the name, class
    and file path the reader left, and the labels of the file with the
    name label set to its name, whatever the file said under that label.
    Its override selector is the parsed override, nil when the override
    is nil, selects nothing or cannot be parsed. *)
Theorem getTransformerConfig_loads path :
  let r := fst (transformer.getTransformerConfig path) in
  match ReadMove2KubeYaml path (transformer.withFilePath NewTransformer path) with
  | inl err => r = inl err
  | inr read =>
      if String.eqb (Transformer.Kind read) TransformerKind then
        exists tc,
          r = inr tc /\
          Transformer.Kind tc = TransformerKind /\
          Transformer.Name tc = Transformer.Name read /\
          Transformer.Labels tc = <[LabelName := Transformer.Name read]> (Transformer.Labels read) /\
          Transformer.Labels tc !! LabelName = Some (Transformer.Name tc) /\
          TransformerSpec.Class (Transformer.Spec tc)
          = TransformerSpec.Class (Transformer.Spec read) /\
          TransformerSpec.FilePath (Transformer.Spec tc)
          = TransformerSpec.FilePath (Transformer.Spec read) /\
          TransformerSpec.OverrideSelector (Transformer.Spec tc)
          = match TransformerSpec.Override (Transformer.Spec read) with
            | SelDecodes s =>
                if negb (length (metav1.MatchExpressions s) =? 0)
                   || negb (size (metav1.MatchLabels s) =? 0)
                then match LabelSelectorAsSelector s with
                     | inr ls => Some ls
                     | inl _ => None
                     end
                else None
            | _ => None
            end
      else exists err, r = inl err
  end.
Proof.
  cbv zeta. unfold transformer.getTransformerConfig. cbv zeta.
  destruct (ReadMove2KubeYaml path _) as [err|read]; [reflexivity|].
  destruct (String.eqb (Transformer.Kind read) TransformerKind) eqn:Hkind; cbn [negb];
    [|now eexists].
  apply String.eqb_eq in Hkind.
  destruct read as [kind name labels [fp class ovr dep osel dsel produced]].
  simpl in Hkind. subst kind.
  unfold transformer.withLabel, transformer.getSelectorFromInterface. cbn.
  destruct ovr as [| |s]; cbn.
  - destruct dep as [| |s']; cbn.
    + eexists. repeat split. cbn. apply lookup_insert_eq.
    + eexists. repeat split. cbn. apply lookup_insert_eq.
    + destruct (negb _ || negb _); [destruct (LabelSelectorAsSelector s')|]; cbn;
        eexists; repeat split; cbn; apply lookup_insert_eq.
  - destruct dep as [| |s']; cbn.
    + eexists. repeat split. cbn. apply lookup_insert_eq.
    + eexists. repeat split. cbn. apply lookup_insert_eq.
    + destruct (negb _ || negb _); [destruct (LabelSelectorAsSelector s')|]; cbn;
        eexists; repeat split; cbn; apply lookup_insert_eq.
  - destruct (negb (length (metav1.MatchExpressions s) =? 0)
              || negb (size (metav1.MatchLabels s) =? 0));
      [destruct (LabelSelectorAsSelector s)|]; cbn;
      (destruct dep as [| |s']; cbn;
       [ eexists; repeat split; cbn; apply lookup_insert_eq
       | eexists; repeat split; cbn; apply lookup_insert_eq
       | destruct (negb _ || negb _); [destruct (LabelSelectorAsSelector s')|]; cbn;
         eexists; repeat split; cbn; apply lookup_insert_eq ]).
Qed.
End registry_more.

(* ===================================================================== *)
(** ** More of the script builtins *)
(* ===================================================================== *)

Section one_operation.
Context {sh : ScriptHost}.

(** X21. The body of a member of [fs] makes at most one call that
    reaches the file system, and gives it the very path it was given and
    had checked by the sandbox: an operation of package [os] on that
    path, or, in [get_files_with_pattern] and [get_yamls_with_type_meta]
    only, one walk of package [common] with that path as its root; only
    [write] calls [os.WriteFile]; [path_join], [path_base] and
    [path_rel] make no such call. *)
Theorem fs_one_operation member args kwargs :
  let evs := fst (external.fs member args kwargs) in
  length evs <= 1 /\
  (forall ev, ev ∈ evs ->
     exists q,
       (osPath ev = Some q \/ walkRoot ev = Some q) /\
       pathArguments member args kwargs = Some [q] /\
       IsPathValid q = true /\
       (writes ev = true -> member = external.fs_write) /\
       (walkRoot ev = Some q ->
        member = external.fs_get_files_with_pattern \/
        member = external.fs_get_yamls_with_type_meta)) /\
  (member = external.fs_path_join \/ member = external.fs_path_base \/
   member = external.fs_path_rel -> evs = []).
Proof.
  cbv zeta. destruct member; open_call; split_tests; cbn [fst length];
    (split; [lia|]);
    (split;
     [ intros ev Hev;
       first
         [ now inversion Hev
         | apply list_elem_of_singleton in Hev; subst ev; eexists;
           split; [first [now left | now right]|]; split; [reflexivity|];
           split; [now apply negb_false_iff|];
           split; [first [discriminate | reflexivity]
                  | first [discriminate | now left | now right]] ]
     | first [ reflexivity | intros [Hm|[Hm|Hm]]; discriminate Hm ] ]).
Qed.
End one_operation.

Section query_facts.
Context {sh : ScriptHost}.

(** X22. The body of [query] does no file operation itself: its one
    call outward is to the QA engine, [qaengine.FetchAnswer], and it makes
    it at most once.  A call that returns without an error, or that ends
    in [logrus.Fatalf], has asked exactly once, and [logrus.Fatalf] is
    reached only after the engine returned an error.  What the engine
    does in that call, the validator it may run included, is not part of
    the statement.  The problem asked about has the description that was
    given, the type that was given or [InputSolutionFormType] when none
    was, and its validator is the one made from the script function named
    by [validation], when one is named.  When [validation] names
    something that is no function of the script, the call fails and
    nothing is asked. *)
Theorem query_asks_once StarGlobals args kwargs :
  let r := external.getStarlarkQuery StarGlobals args kwargs in
  (forall ev, ev ∈ fst r -> exists p, ev = FetchAnswer p) /\
  length (fetched (fst r)) <= 1 /\
  (forall v, snd r = Return v None -> exists p, fst r = [FetchAnswer p]) /\
  (forall entry, snd r = Fatal entry ->
     exists p err, fst r = [FetchAnswer p] /\ qaengine_FetchAnswer p = inl err) /\
  (forall prob validation p,
      queryProblem args kwargs = Some (prob, validation) ->
      p ∈ fetched (fst r) ->
      qatypes.Desc p = qatypes.Desc prob /\
      qatypes.Type_ p = (if String.eqb (qatypes.Type_ prob) "" then InputSolutionFormType
                         else qatypes.Type_ prob) /\
      qatypes.Validator p = (if String.eqb validation "" then qatypes.Validator prob
                             else StarGlobals !! validation)) /\
  (forall prob validation,
      queryProblem args kwargs = Some (prob, validation) ->
      validation <> "" ->
      (forall name n, StarGlobals !! validation <> Some (starlark.Function name n)) ->
      fst r = [] /\ exists e, snd r = Return (Some starlark.None) (Some e)).
Proof.
  cbv zeta. unfold queryProblem, external.getStarlarkQuery, external.badVars. cbv zeta.
  destruct (unpack.UnpackPositionalArgs external.qaFnName args kwargs 1
              [starlark.Dict []; starlark.String ""]) as [err|vars].
  { quiet_call. }
  destruct vars as [|[| | | |elems|items|] [|[| | |validation'| | |] [|? ?]]];
    try (now quiet_call).
  destruct (starutil_Unmarshal (starlark.Dict items)) as [err|argI].
  { quiet_call. }
  destruct (problemFromInterface argI) as [err|prob'].
  { quiet_call. }
  destruct (String.eqb (qatypes.ID prob') "").
  { quiet_call. }
  set (ID := if negb (String.prefix BaseKey (qatypes.ID prob'))
             then common.JoinQASubKeys Delim [BaseKey; qatypes.ID prob']
             else qatypes.ID prob').
  set (Type_ := if String.eqb (qatypes.Type_ prob') "" then InputSolutionFormType
                else qatypes.Type_ prob').
  assert (Hask : forall Validator,
             let prob := qatypes.mkProblem ID Type_ (qatypes.Desc prob') Validator in
             let r := match qaengine_FetchAnswer prob with
                      | inl err =>
                          ([FetchAnswer prob],
                           Fatal (Log FatalLevel "failed to ask the question. Error: %q"
                                      [error_text err]))
                      | inr (inl ansList) =>
                          ([FetchAnswer prob],
                           Return (Some (external.MarshalStrings ansList)) None)
                      | inr (inr (inl err)) =>
                          ([FetchAnswer prob],
                           Return (Some starlark.None)
                             (Some (Errorf "failed to marshal the answer %+v of type %T into a starlark value. Error: %q"
                                           [error_text err])))
                      | inr (inr (inr answerValue)) =>
                          ([FetchAnswer prob], Return (Some answerValue) None)
                      end in
             fst r = [FetchAnswer prob] /\
             (forall entry, snd r = Fatal entry -> exists err, qaengine_FetchAnswer prob = inl err)).
  { intros Validator. cbv zeta.
    destruct (qaengine_FetchAnswer _) as [err|[ans|[err|v]]]; cbn;
      (split; [reflexivity|]); intros entry Hentry; try discriminate Hentry. now eexists. }
  assert (Hone : forall (r : list event * outcome) prob Validator',
             fst r = [FetchAnswer prob] ->
             (forall entry, snd r = Fatal entry ->
                            exists err, qaengine_FetchAnswer prob = inl err) ->
             qatypes.Desc prob = qatypes.Desc prob' ->
             qatypes.Type_ prob = Type_ ->
             qatypes.Validator prob = Validator' ->
             (forall ev, ev ∈ fst r -> exists p, ev = FetchAnswer p) /\
             length (fetched (fst r)) <= 1 /\
             (forall v, snd r = Return v None -> exists p, fst r = [FetchAnswer p]) /\
             (forall entry, snd r = Fatal entry ->
                exists p err, fst r = [FetchAnswer p] /\ qaengine_FetchAnswer p = inl err) /\
             (forall p, p ∈ fetched (fst r) ->
                qatypes.Desc p = qatypes.Desc prob' /\ qatypes.Type_ p = Type_ /\
                qatypes.Validator p = Validator')).
  { intros r prob Validator' Hfst Hfatal Hd Ht Hv. rewrite Hfst. cbn.
    split; [intros ev Hev; apply list_elem_of_singleton in Hev; subst ev; now eexists|].
    split; [lia|]. split; [intros v _; now eexists|].
    split.
    - intros entry Hentry. destruct (Hfatal entry Hentry) as [err Herr]. now exists prob, err.
    - intros p Hp. apply list_elem_of_singleton in Hp. now subst p. }
  destruct (String.eqb validation' "") eqn:Hval; cbn [negb].
  - destruct (Hask (qatypes.Validator prob')) as [Hfst Hfatal]. cbv zeta in Hfst, Hfatal.
    destruct (Hone _ _ (qatypes.Validator prob') Hfst Hfatal eq_refl eq_refl eq_refl)
      as (H1 & H2 & H3 & H4 & H5).
    split; [exact H1|]. split; [exact H2|]. split; [exact H3|]. split; [exact H4|]. split.
    + intros prob validation p [= <- <-] Hp. rewrite Hval. now apply H5.
    + intros prob validation [= <- <-] Hne. apply String.eqb_eq in Hval. contradiction.
  - destruct (StarGlobals !! validation') as [[| | | | | |name n]|] eqn:Hfn;
      try (now quiet_call).
    destruct (Hask (Some (starlark.Function name n))) as [Hfst Hfatal].
    cbv zeta in Hfst, Hfatal.
    destruct (Hone _ _ (Some (starlark.Function name n)) Hfst Hfatal eq_refl eq_refl eq_refl)
      as (H1 & H2 & H3 & H4 & H5).
    split; [exact H1|]. split; [exact H2|]. split; [exact H3|]. split; [exact H4|]. split.
    + intros prob validation p [= <- <-] Hp. rewrite Hval, Hfn. now apply H5.
    + intros prob validation [= <- <-] Hne Hno. exfalso. now apply (Hno name n).
Qed.
End query_facts.

Section loading_facts.
Context {sh : ScriptHost}.
Implicit Types (StarGlobals : gmap string starlark.Value) (t : external.functions).

(** X23. [loadFunctions] succeeds exactly when the script defines
    [transform] as a function of two parameters and defines
    [directory_detect] not at all or as a function of one parameter.
    It then holds the script's [transform]; the detect function is the
    script's [directory_detect], and stays as it was when the script
    has none.  When it fails the transform function stays as it was and
    two lines are logged at error level.
    When the detect function is nil, [DirectoryDetect] returns no
    services and no error, whatever the directory. *)
Theorem loadFunctions_required StarGlobals t :
  let r := external.loadFunctions StarGlobals t in
  let t' := fst (fst r) in
  (snd (fst r) = None <->
   (exists name, StarGlobals !! external.transformFnName = Some (starlark.Function name 2)) /\
   (StarGlobals !! external.directoryDetectFnName = None \/
    exists name, StarGlobals !! external.directoryDetectFnName
                 = Some (starlark.Function name 1))) /\
  (snd (fst r) = None ->
   external.transformFn t' = StarGlobals !! external.transformFnName /\
   external.detectFn t'
   = match StarGlobals !! external.directoryDetectFnName with
     | Some fn => Some fn
     | None => external.detectFn t
     end /\
   snd r = []) /\
  (snd (fst r) <> None ->
   external.transformFn t' = external.transformFn t /\
   length (snd r) = 2 /\
   forall entry, entry ∈ snd r -> level entry = ErrorLevel) /\
  (forall (Services : Type) starutil_Marshal starlark_Call
          (servicesFromInterface : GoValue -> error + Services) dir,
      external.detectFn t' = None ->
      external.DirectoryDetect Services starutil_Marshal starlark_Call servicesFromInterface
        t' dir = (None, None, [])).
Proof.
  cbv zeta. unfold external.loadFunctions, external.loadDetectFn, external.loadTransformFn.
  assert (Htwo : forall a b : log_entry,
             level a = ErrorLevel -> level b = ErrorLevel ->
             forall entry, entry ∈ [a; b] -> level entry = ErrorLevel).
  { intros a b Ha Hb entry Hin.
    apply elem_of_cons in Hin as [->|Hin]; [exact Ha|].
    apply list_elem_of_singleton in Hin. now subst entry. }
  split; [|split; [|split]].
  4: { intros Services ma ca sv dir Hnil. unfold external.DirectoryDetect.
       now rewrite Hnil. }
  all: destruct (StarGlobals !! external.directoryDetectFnName)
         as [[| | | | | |dname dn]|] eqn:Hdet;
    try destruct (Nat.eqb_spec dn 1) as [->|Hdn]; cbn [negb];
    destruct (StarGlobals !! external.transformFnName)
      as [[| | | | | |tname tn]|] eqn:Htr;
    try destruct (Nat.eqb_spec tn 2) as [->|Htn]; cbn [negb fst snd app].
  all: try (split; [discriminate|];
            intros [[name Hn] Hd]; first [discriminate Hn | inversion Hn; congruence
                                         | destruct Hd as [Hd|[name' Hd]];
                                           first [discriminate Hd | inversion Hd; congruence]]).
  all: try (split; [intros _|reflexivity]; split; [now eexists|];
            first [now left | right; now eexists]).
  all: try (intros Herr; discriminate Herr).
  all: try (intros _; repeat split; reflexivity).
  all: try (intros Herr; now destruct Herr).
  all: try (intros _; split; [reflexivity|]; split; [reflexivity|]; apply Htwo; reflexivity).
Qed.
End loading_facts.

Section archive_facts.
Context {sh : ScriptHost}.
Variable archivedData : string -> bool -> string.

(** X24. A member of the [archive] module archives nothing unless its
    one argument is a path the sandbox accepts: for a rejected path it
    returns the error [invalid path] and [None].  For an accepted path
    it archives that path once, with the compression of the member, and
    returns the archive string without an error: a failure to archive
    reaches the script as a string, not as an error. *)
Theorem archive_sandbox member args kwargs :
  let r := external.archive archivedData member args kwargs in
  let gzip := match member with
              | external.arch_tar_gzip_str => true
              | external.arch_tar_str => false
              end in
  (forall ev, ev ∈ fst r ->
     exists srcDir,
       ev = external.CreateTarArchive srcDir gzip /\ IsPathValid srcDir = true /\
       fst r = [ev] /\
       snd r = Return (Some (starlark.String (archivedData srcDir gzip))) None) /\
  (forall srcDir,
      unpack.UnpackPositionalArgs
        (match member with
         | external.arch_tar_gzip_str => external.archTarGZipStrFnName
         | external.arch_tar_str => external.archTarStrFnName
         end) args kwargs 1 [starlark.String ""] = inr [starlark.String srcDir] ->
      if IsPathValid srcDir
      then r = ([external.CreateTarArchive srcDir gzip],
                Return (Some (starlark.String (archivedData srcDir gzip))) None)
      else r = ([], Return (Some starlark.None) (Some (Errorf "invalid path" [])))) /\
  (forall v, snd r = Return v None -> exists ev, fst r = [ev]).
Proof.
  cbv zeta.
  destruct member; unfold external.archive, external.getStarlarkArchTarGZipStr,
    external.getStarlarkArchTarStr, external.CreateTarArchiveGZipStringWrapper,
    external.CreateTarArchiveNoCompressionStringWrapper, external.badVars, external.Errorf0.
  all: match goal with
       | |- context [unpack.UnpackPositionalArgs ?f ?a ?k ?n ?v] =>
           destruct (unpack.UnpackPositionalArgs f a k n v) as [?err|vars]
       end; [|split_vars].
  all: try destruct (IsPathValid _) eqn:Hvalid; cbn [negb fst snd].
  all: split; [intros ev Hev;
               first [ now inversion Hev
                     | apply list_elem_of_singleton in Hev; subst ev; eexists;
                       repeat split; exact Hvalid ]|].
  all: split; [first [ intros srcDir Hs; discriminate Hs
                     | intros srcDir [= <-]; rewrite Hvalid; reflexivity ]|].
  all: first [ intros ? Hv; discriminate Hv | intros ? _; now eexists ].
Qed.
End archive_facts.

Section write_facts.
Context {sh : ScriptHost}.

(** X25. [write] writes only to a path that is not empty and that the
    sandbox accepts, and never writes empty data.  When it returns
    without an error it has written once, the write succeeded, and the
    value returned is the number of bytes of the data.  When the write
    fails the script gets the error [could not write to file] with the
    path, whatever the cause was. *)
Theorem fs_write_bytes args kwargs :
  let r := external.getStarlarkFSWrite args kwargs in
  (forall filePath data perm,
      WriteFile filePath data perm ∈ fst r ->
      filePath <> "" /\ data <> "" /\ IsPathValid filePath = true /\
      fst r = [WriteFile filePath data perm]) /\
  (forall v,
      snd r = Return v None ->
      exists filePath data perm,
        fst r = [WriteFile filePath data perm] /\
        os_WriteFile filePath data perm = None /\
        v = Some (starlark.Int (Z.of_nat (String.length data)))) /\
  (forall filePath data perm err,
      fst r = [WriteFile filePath data perm] ->
      os_WriteFile filePath data perm = Some err ->
      snd r = Return (Some starlark.None)
                (Some (Errorf "could not write to file %s" [filePath]))).
Proof.
  cbv zeta. unfold external.getStarlarkFSWrite, external.badVars, external.Errorf0.
  destruct (unpack.UnpackArgs _ _ _ _) as [err|vars]; [|split_vars].
  all: split_tests; cbn [fst snd].
  all: split; [intros filePath data perm Hin;
               first [ now inversion Hin
                     | apply list_elem_of_singleton in Hin; inversion Hin; subst;
                       split; [now apply String.eqb_neq|];
                       split; [intros ->; discriminate|];
                       split; [now apply negb_false_iff | reflexivity] ]|].
  all: split; [first [ intros ? Hv; discriminate Hv
                     | intros ? [= <-]; do 3 eexists; repeat split; eassumption ]|].
  all: intros filePath data perm err' Hev Hw;
    first [ discriminate Hev | inversion Hev; subst; congruence | reflexivity ].
Qed.
End write_facts.

Section missing_path_facts.
Context {sh : ScriptHost}.

(** X26. For a path the sandbox accepts, [exists] and [is_dir] both
    look the path up once.  [exists] tells true exactly when the look-up
    succeeds, reports a missing path as false without an error, and
    passes any other failure on with false; [is_dir] reports every
    failure, a missing path too, as the error [unable to retrieve file
    information].  So a path that [exists] reports as absent is an error
    for [is_dir]. *)
Theorem fs_exists_is_dir path :
  IsPathValid path = true ->
  let e := external.getStarlarkFSExists [starlark.String path] [] in
  let d := external.getStarlarkFSIsDir [starlark.String path] [] in
  fst e = [Stat path] /\ fst d = [Stat path] /\
  (snd e = Return (Some (starlark.Bool true)) None <-> exists isDir, os_Stat path = inr isDir) /\
  (forall isDir, os_Stat path = inr isDir ->
                 snd d = Return (Some (starlark.Bool isDir)) None) /\
  (forall err, os_Stat path = inl err ->
               snd e = Return (Some (starlark.Bool false))
                         (if external.IsNotExist err then None else Some err) /\
               snd d = Return (Some starlark.None)
                         (Some (Errorf "unable to retrieve file information" []))) /\
  (snd e = Return (Some (starlark.Bool false)) None ->
   snd d = Return (Some starlark.None)
             (Some (Errorf "unable to retrieve file information" []))).
Proof.
  intros Hvalid. cbv zeta.
  unfold external.getStarlarkFSExists, external.getStarlarkFSIsDir, external.Errorf0.
  rewrite !UnpackPositionalArgs_one, Hvalid. cbn [negb].
  destruct (os_Stat path) as [err|isDir] eqn:Hstat.
  - assert (He : snd (if external.IsNotExist err
                      then ([Stat path], Return (Some (starlark.Bool false)) None)
                      else ([Stat path], Return (Some (starlark.Bool false)) (Some err)))
                 = Return (Some (starlark.Bool false))
                     (if external.IsNotExist err then None else Some err))
      by now destruct (external.IsNotExist err).
    assert (Hf : fst (if external.IsNotExist err
                      then ([Stat path], Return (Some (starlark.Bool false)) None)
                      else ([Stat path], Return (Some (starlark.Bool false)) (Some err)))
                 = [Stat path])
      by now destruct (external.IsNotExist err).
    rewrite He, Hf. cbn [fst snd].
    split; [reflexivity|]. split; [reflexivity|]. split.
    { split; [discriminate | intros [isDir Hd]; discriminate Hd]. }
    split; [intros isDir Hd; discriminate Hd|].
    split; [intros err' [= <-]; now split | reflexivity].
  - cbn [fst snd].
    split; [reflexivity|]. split; [reflexivity|]. split.
    { split; [intros _; now eexists | reflexivity]. }
    split; [intros isDir' [= <-]; reflexivity|].
    split; [intros err' Hd; discriminate Hd | discriminate].
Qed.
End missing_path_facts.

(** [exists] and [is_dir] on a path that is not there. *)
Lemma fs_exists_is_dir_witness :
  IsPathValid (ScriptHost := demoScriptHost) "/tmp/src/nope" = true /\
  snd (external.getStarlarkFSExists (sh := demoScriptHost)
         [starlark.String "/tmp/src/nope"] [])
  = Return (Some (starlark.Bool false)) None /\
  snd (external.getStarlarkFSIsDir (sh := demoScriptHost)
         [starlark.String "/tmp/src/nope"] [])
  = Return (Some starlark.None) (Some (Errorf "unable to retrieve file information" [])).
Proof.
  split; [reflexivity|].
  destruct (fs_exists_is_dir (sh := demoScriptHost) "/tmp/src/nope" eq_refl)
    as (_ & _ & _ & _ & Herr & _).
  exact (Herr (PathError "stat" "/tmp/src/nope" ErrNotExist) eq_refl).
Defined.

(** Two paths under [/a]: the walk up from the first one ends, and what
    it finds is a prefix of both. *)
Lemma FindCommonDirectory_common_witness :
  (exists d, utils.FindCommonDirectory demoDir "/" 2 ["/a/b"; "/a/c"] = Some d) /\
  forall path, path ∈ ["/a/b"; "/a/c"] ->
               gostrings.HasPrefix (path +:+ "/") ("/a" +:+ "/") = true.
Proof.
  destruct (FindCommonDirectory_common demoDir "/" 2 ["/a/b"; "/a/c"])
    as (_ & _ & Hsound & Hends).
  split.
  - apply (Hends "/a/b" ["/a/c"] 2); [reflexivity | reflexivity | lia].
  - destruct (Hsound "/a/b" ["/a/c"] "/a" eq_refl eq_refl) as [[Hroot|Hall] _];
      [discriminate Hroot | exact Hall].
Defined.

(** With the identity for [filepath.Abs]: [/a] is a parent of [/a/b]. *)
Lemma IsParent_components_witness :
  utils.IsParent (fun path => (path, None)) "/" "/a/b" "/a" = inr (Some true).
Proof.
  pose proof (IsParent_components (fun path => (path, None)) "/" "/a/b" "/a") as Hparent.
  cbv beta iota in Hparent. destruct Hparent as (_ & Hiff & _).
  apply Hiff. right. exists ["b"]. reflexivity.
Defined.

(** Three artifacts, two of one type and name, on a host that refuses
    nothing; and two artifacts that differ in name. *)
Lemma mergeArtifacts_keys_witness :
  map artifactKey
    (snd (transformer.mergeArtifacts plainStore
            [left; Artifact.mk "db" "Dockerfile" None None; right]))
  = [("Dockerfile", "app"); ("Dockerfile", "db")] /\
  transformer.mergeArtifacts plainStore [left; Artifact.mk "db" "Dockerfile" None None]
  = (plainStore, [left; Artifact.mk "db" "Dockerfile" None None]).
Proof.
  split.
  - destruct (mergeArtifacts_keys (host := untypedHost) plainStore
                [left; Artifact.mk "db" "Dockerfile" None None; right])
      as (_ & _ & _ & Hfirst).
    rewrite Hfirst; [reflexivity|].
    intros cn ct v1 v2 c1 c2 Hct. simpl in Hct. discriminate Hct.
  - apply (mergeArtifacts_keys (host := untypedHost) plainStore
             [left; Artifact.mk "db" "Dockerfile" None None]).
    apply (bool_decide_unpack _). vm_compute. exact I.
Defined.

(** A new artifact and one seen already of its type and name, and a
    second new artifact of that type and name. *)
Lemma updatedArtifacts_keys_witness :
  map artifactKey (snd (transformer.updatedArtifacts plainStore [right] [left; bare]))
  = [("Dockerfile", "app")] /\
  NoDup (map artifactKey (snd (transformer.updatedArtifacts plainStore [right] [left; bare]))).
Proof.
  destruct (updatedArtifacts_keys (host := untypedHost) plainStore [right] [left; bare])
    as (_ & _ & _ & Hnever).
  destruct Hnever as [Hkeys Hnd].
  - intros cn ct v1 v2 c1 c2 Hct. simpl in Hct. discriminate Hct.
  - split; [rewrite Hkeys; reflexivity | exact Hnd].
Defined.

(** Two config maps without a common kind: the merge is accepted, the
    first map gets the kind of the second and keeps its own. *)
Lemma mergeConfigs_kinds_witness :
  let r := transformer.mergeConfigs kindStore (Some 1%positive) (Some 2%positive) in
  snd r = true /\
  transformer.cfg_get (transformer.readConfigs (fst (fst r)) 1%positive) "Image"
  = Some "web:v1" /\
  transformer.cfg_get (transformer.readConfigs (fst (fst r)) 1%positive) "Ports"
  = Some "8080".
Proof.
  destruct (mergeConfigs_kinds (host := scalarHost) kindStore 1%positive 2%positive)
    as (Hframe & _ & _ & Hdisjoint).
  destruct Hdisjoint as [Hok Hcopied].
  - apply (bool_decide_unpack _). vm_compute. exact I.
  - intros k Hk. apply list_elem_of_singleton in Hk. subst k. reflexivity.
  - cbv zeta. split; [exact Hok|]. split.
    + apply (Hcopied "Image"). left.
    + rewrite (Hframe "Ports"); [reflexivity|].
      intros Hin. apply list_elem_of_singleton in Hin. discriminate Hin.
Defined.

(* ===================================================================== *)
(** ** The planner *)
(* ===================================================================== *)

Section planner_facts.
Context {reg : RegistryHost} {ph : PlanHost}.
Implicit Types (ts : list initialized) (p : plantypes.Plan).

Lemma addTransformers_spec ts p :
  let q := lib.addTransformers ts p in
  plantypes.Name q = plantypes.Name p /\
  plantypes.SourceDir q = plantypes.SourceDir p /\
  plantypes.CustomizationsDir q = plantypes.CustomizationsDir p /\
  plantypes.TransformerSelector q = plantypes.TransformerSelector p /\
  plantypes.DisabledTransformers q = plantypes.DisabledTransformers p /\
  plantypes.Services q = plantypes.Services p /\
  plantypes.InvokedByDefaultTransformers q
  = plantypes.InvokedByDefaultTransformers p
    ++ map config_Name (List.filter InvokedByDefault_Enabled ts) /\
  forall name,
    plantypes.Transformers q !! name
    = match last (filter (fun config => config_Name config = name) ts) with
      | Some config => Some (config_FilePath config)
      | None => plantypes.Transformers p !! name
      end.
Proof.
  cbv zeta. unfold lib.addTransformers. revert p.
  induction ts as [|config ts IH]; intros p.
  - simpl. rewrite app_nil_r. repeat split; reflexivity.
  - cbn [fold_left].
    destruct (IH (plantypes.mkPlan (plantypes.Name p) (plantypes.SourceDir p)
                    (plantypes.CustomizationsDir p) (plantypes.TransformerSelector p)
                    (plantypes.DisabledTransformers p)
                    (<[config_Name config := config_FilePath config]> (plantypes.Transformers p))
                    (if InvokedByDefault_Enabled config
                     then plantypes.InvokedByDefaultTransformers p ++ [config_Name config]
                     else plantypes.InvokedByDefaultTransformers p)
                    (plantypes.Services p)))
      as (H1 & H2 & H3 & H4 & H5 & H6 & H7 & H8).
    cbn [plantypes.Name plantypes.SourceDir plantypes.CustomizationsDir
           plantypes.TransformerSelector plantypes.DisabledTransformers plantypes.Services
           plantypes.InvokedByDefaultTransformers plantypes.Transformers] in *.
    repeat (split; [assumption|]). split.
    + rewrite H7. cbn [List.filter].
      destruct (InvokedByDefault_Enabled config); [|reflexivity].
      now rewrite <- app_assoc.
    + intros name. rewrite H8. rewrite filter_cons.
      destruct (decide (config_Name config = name)) as [Heq|Hne].
      * rewrite last_cons.
        destruct (last (filter _ ts)); [reflexivity|].
        rewrite Heq. now rewrite lookup_insert_eq.
      * destruct (last (filter _ ts)); [reflexivity|].
        now rewrite lookup_insert_ne.
Qed.

End planner_facts.

